(** * QNXcode.c: a bounded blocking FIFO between writer and reader threads

    The C program keeps one global [Queue] (a singly linked list of
    [Node]s with [head]/[tail] pointers, an element [count], two counting
    semaphores [full] and [empty], and a mutex [lock]).  Threads call
    [enqueue] and [dequeue] concurrently.

    The embedding is a small-step machine.  Every thread carries the
    frame of the function it is executing (its locals) and a program
    counter that is the source line of the next statement; one machine
    step executes one statement of one thread.  Whatever the program
    cannot decide itself (the result of [malloc], the contents of fresh
    memory, [rand()], whether [fopen] succeeds, what a caller passes) is
    supplied by an [env] value chosen by the scheduler for every step.

    - pointers are [option loc], [None] being [NULL];
    - the C heap is a [gmap loc block];
    - [int] values are [Z], arithmetic on them wraps to 32 bits;
    - a semaphore is its counter, a [nat]; the mutex is its owner.

    Modelled: [log_message], [initializeQueue], [enqueue], [dequeue],
    [get_external_data] and the loop of [writer_thread], together with
    arbitrary client threads that call [enqueue] and [dequeue].
    [reader_thread], [process_data] and the thread creation in [main] are
    outside the scope of this development.

    The main result is an invariant of the machine ([inv]) that ties the
    linked list in the heap to [count], to the two semaphores and to the
    mutex under every interleaving; the properties of sequential calls
    ([call_enqueue], [call_dequeue], [perform]) are derived from it. *)

From Stdlib Require Import ZArith String Ascii List Lia.
From stdpp Require Import base option list gmap.
Import ListNotations.

Local Open Scope nat_scope.
Set Warnings "-clear-no-such-hyp".

(** ** Machine integers *)

Definition INT_MAX : Z := 2147483647.
Definition INT_MIN : Z := (-2147483648)%Z.

(** Two's complement reduction of a mathematical integer to [int]. *)
Definition wrap_int (z : Z) : Z :=
  ((z + 2147483648) mod 4294967296 - 2147483648)%Z.

(** ** Data model (the three structs of the source) *)

(** Addresses and thread identifiers are numbers; a pointer is an
    optional address. *)
Abbreviation loc := nat (only parsing).
Abbreviation ptr := (option nat) (only parsing).
Abbreviation NULL := (@None nat) (only parsing).
Abbreviation tid := nat (only parsing).

(** [DataPacket]: fields [data], [size], [eventId], [eventCorrelationId]. *)
Record DataPacket := mkDataPacket {
  pk_data : ptr;
  pk_size : Z;
  pk_eventId : Z;
  pk_eventCorrelationId : Z
}.

(** [DataPacket data = {0};] *)
Definition zero_packet : DataPacket := mkDataPacket NULL 0 0 0.

(** [Node]: fields [packet], [next]. *)
Record Node := mkNode {
  nd_packet : DataPacket;
  nd_next : ptr
}.

(** A heap block is either a [Node] or a payload buffer of bytes. *)
Inductive block :=
| BNode (n : Node)
| BBuf (bytes : list ascii).

(** [Queue]: fields [head], [tail], [count], [full], [empty], [lock]. *)
Record Queue := mkQueue {
  q_head : ptr;
  q_tail : ptr;
  q_count : Z;
  q_full : nat;
  q_empty : nat;
  q_lock : option tid
}.

Definition set_head (p : ptr) (q : Queue) : Queue :=
  mkQueue p (q_tail q) (q_count q) (q_full q) (q_empty q) (q_lock q).
Definition set_tail (p : ptr) (q : Queue) : Queue :=
  mkQueue (q_head q) p (q_count q) (q_full q) (q_empty q) (q_lock q).
Definition set_count (c : Z) (q : Queue) : Queue :=
  mkQueue (q_head q) (q_tail q) c (q_full q) (q_empty q) (q_lock q).
Definition set_full (v : nat) (q : Queue) : Queue :=
  mkQueue (q_head q) (q_tail q) (q_count q) v (q_empty q) (q_lock q).
Definition set_empty (v : nat) (q : Queue) : Queue :=
  mkQueue (q_head q) (q_tail q) (q_count q) (q_full q) v (q_lock q).
Definition set_lock (l : option tid) (q : Queue) : Queue :=
  mkQueue (q_head q) (q_tail q) (q_count q) (q_full q) (q_empty q) l.

(** ** Threads *)

(** Program counters: the source line of the next statement. *)
Inductive epc :=
| E114 | E115 | E117 | E118 | E121 | E122 | E124 | E125
| E127 | E128 | E130 | E131 | E133 | E135 | E136 | E137.

Inductive dpc :=
| D151 | D153 | D154 | D156 | D157 | D158 | D159 | D160 | D163 | D164
| D165 | D167 | D168 | D170 | D172 | D173 | D175 | D176 | D177.

Inductive wpc :=
| W249 | W250 | W251 | W252 | W254 | W255 | W256 | W258 | W259 | W261.

(** Who called [enqueue]: an arbitrary client of the queue, or line 259
    of [writer_thread]. *)
Inductive caller := FromClient | FromWriter.

(** A thread is between two calls ([Client], remembering what its last
    [dequeue] returned), inside [enqueue] (locals [data], [newNode]),
    inside [dequeue] (locals [data], [temp]) or in the loop of
    [writer_thread] (local [packet]).  A local that the source has not
    yet initialised holds a placeholder that is never read. *)
Inductive tstate :=
| Client (ret : option DataPacket)
| InEnqueue (k : caller) (data : DataPacket) (newNode : ptr) (pc : epc)
| InDequeue (data : DataPacket) (temp : ptr) (pc : dpc)
| InWriter (packet : DataPacket) (pc : wpc).

(** ** Machine state *)

Record state := mkState {
  dataQueue : Queue;
  heap : gmap loc block;
  threads : list tstate;
  logfile : list string
}.

Definition set_queue (q : Queue) (s : state) : state :=
  mkState q (heap s) (threads s) (logfile s).
Definition set_heap (h : gmap loc block) (s : state) : state :=
  mkState (dataQueue s) h (threads s) (logfile s).
Definition set_thread (t : tid) (st : tstate) (s : state) : state :=
  mkState (dataQueue s) (heap s) (<[t := st]> (threads s)) (logfile s).
Definition set_logfile (l : list string) (s : state) : state :=
  mkState (dataQueue s) (heap s) (threads s) l.

(** What the environment supplies to one step. *)
Record env := mkEnv {
  e_call : option DataPacket;  (* a client calls enqueue(p) / dequeue() *)
  e_malloc : ptr;              (* what malloc returns *)
  e_node : Node;               (* contents of a fresh node block *)
  e_bytes : list ascii;        (* contents of a fresh 1024-byte buffer *)
  e_rand : Z;                  (* what rand() returns *)
  e_fopen : bool               (* whether fopen(LOG_FILE, "a") succeeds *)
}.

(** A step either yields a state, or the thread is blocked in
    [sem_wait]/[pthread_mutex_lock], or the statement has no defined
    behaviour in C, or the environment supplied something the C library
    cannot return (an address already allocated, a negative [rand()]). *)
Inductive outcome :=
| Step (s : state)
| Blocked
| Undefined
| Refused.

(** ** Library calls *)

(** [log_message]: appends a line when the file can be opened. *)
Definition log_message (fopen_ok : bool) (message : string) (s : state) : state :=
  if fopen_ok then set_logfile (logfile s ++ [message]) s else s.

(** [malloc]: [NULL], or an address that is not allocated. *)
Definition malloc (r : ptr) (fresh : block) (h : gmap loc block)
  : option (ptr * gmap loc block) :=
  match r with
  | None => Some (NULL, h)
  | Some a =>
      match h !! a with
      | None => Some (Some a, <[a := fresh]> h)
      | Some _ => None
      end
  end.

(** [free]: [free(NULL)] does nothing; freeing an address that is not
    allocated is undefined. *)
Definition free (p : ptr) (h : gmap loc block) : option (gmap loc block) :=
  match p with
  | None => Some h
  | Some a =>
      match h !! a with
      | Some _ => Some (delete a h)
      | None => None
      end
  end.

Definition load_node (h : gmap loc block) (p : ptr) : option Node :=
  match p with
  | Some a => match h !! a with Some (BNode n) => Some n | _ => None end
  | None => None
  end.

Definition store_node (h : gmap loc block) (p : ptr) (n : Node)
  : option (gmap loc block) :=
  match p with
  | Some a =>
      match h !! a with
      | Some (BNode _) => Some (<[a := BNode n]> h)
      | _ => None
      end
  | None => None
  end.

Definition load_buf (h : gmap loc block) (p : ptr) : option (list ascii) :=
  match p with
  | Some a => match h !! a with Some (BBuf b) => Some b | _ => None end
  | None => None
  end.

(** [sem_wait]: [None] when the caller has to wait. *)
Definition sem_wait (v : nat) : option nat :=
  match v with
  | O => None
  | S v' => Some v'
  end.

Definition sem_post (v : nat) : nat := S v.

(** [pthread_mutex_lock]: [None] when the caller has to wait. *)
Definition pthread_mutex_lock (t : tid) (l : option tid) : option (option tid) :=
  match l with
  | None => Some (Some t)
  | Some _ => None
  end.

(** [pthread_mutex_unlock]: undefined unless the caller owns the mutex. *)
Definition pthread_mutex_unlock (t : tid) (l : option tid) : option (option tid) :=
  match l with
  | Some o => if Nat.eqb o t then Some None else None
  | None => None
  end.

(** ** [initializeQueue] *)

Definition initializeQueue (fopen_ok : bool) (size : Z) (s : state) : state :=
  let q1 := set_tail NULL (set_head NULL (dataQueue s)) in
  let q2 := set_count 0 q1 in
  let q3 := set_full 0 q2 in
  (* sem_init takes an unsigned value *)
  let q4 := set_empty (Z.to_nat (size mod 4294967296)) q3 in
  let q5 := set_lock None q4 in
  log_message fopen_ok "Queue initialized." (set_queue q5 s).

(** ** [enqueue], one statement at a time *)

(** Where control goes when [enqueue] returns. *)
Definition return_to (k : caller) : tstate :=
  match k with
  | FromClient => Client None
  | FromWriter => InWriter zero_packet W249
  end.

Definition update_node (h : gmap loc block) (p : ptr) (f : Node -> Node)
  : option (gmap loc block) :=
  match load_node h p with
  | Some n => store_node h p (f n)
  | None => None
  end.

Definition enqueue (t : tid) (e : env) (k : caller) (data : DataPacket)
    (newNode : ptr) (pc : epc) (s : state) : outcome :=
  let q := dataQueue s in
  let goto pc' s' := Step (set_thread t (InEnqueue k data newNode pc') s') in
  match pc with
  | E114 => (* Node *newNode = (Node* ) malloc(sizeof(Node)); *)
      match malloc (e_malloc e) (BNode (e_node e)) (heap s) with
      | Some (p, h) => Step (set_thread t (InEnqueue k data p E115) (set_heap h s))
      | None => Refused
      end
  | E115 => (* if (newNode == NULL) *)
      match newNode with
      | None => goto E117 s
      | Some _ => goto E121 s
      end
  | E117 =>
      goto E118 (log_message (e_fopen e)
                   "Error: Memory allocation failed for new node." s)
  | E118 => (* return; *)
      Step (set_thread t (return_to k) s)
  | E121 => (* newNode->packet = data; *)
      match update_node (heap s) newNode (fun n => mkNode data (nd_next n)) with
      | Some h => goto E122 (set_heap h s)
      | None => Undefined
      end
  | E122 => (* newNode->next = NULL; *)
      match update_node (heap s) newNode (fun n => mkNode (nd_packet n) NULL) with
      | Some h => goto E124 (set_heap h s)
      | None => Undefined
      end
  | E124 => (* sem_wait(&q->empty); *)
      match sem_wait (q_empty q) with
      | Some v => goto E125 (set_queue (set_empty v q) s)
      | None => Blocked
      end
  | E125 => (* pthread_mutex_lock(&q->lock); *)
      match pthread_mutex_lock t (q_lock q) with
      | Some l => goto E127 (set_queue (set_lock l q) s)
      | None => Blocked
      end
  | E127 => (* if (q->tail == NULL) *)
      match q_tail q with
      | None => goto E128 s
      | Some _ => goto E130 s
      end
  | E128 => (* q->head = q->tail = newNode; *)
      goto E133 (set_queue (set_head newNode (set_tail newNode q)) s)
  | E130 => (* q->tail->next = newNode; *)
      match update_node (heap s) (q_tail q)
              (fun n => mkNode (nd_packet n) newNode) with
      | Some h => goto E131 (set_heap h s)
      | None => Undefined
      end
  | E131 => (* q->tail = newNode; *)
      goto E133 (set_queue (set_tail newNode q) s)
  | E133 => (* q->count++; *)
      goto E135 (set_queue (set_count (wrap_int (q_count q + 1)) q) s)
  | E135 => (* pthread_mutex_unlock(&q->lock); *)
      match pthread_mutex_unlock t (q_lock q) with
      | Some l => goto E136 (set_queue (set_lock l q) s)
      | None => Undefined
      end
  | E136 => (* sem_post(&q->full); *)
      goto E137 (set_queue (set_full (sem_post (q_full q)) q) s)
  | E137 => (* log_message("Data enqueued."); and the function ends *)
      Step (set_thread t (return_to k)
              (log_message (e_fopen e) "Data enqueued." s))
  end.

(** ** [dequeue], one statement at a time *)

Definition dequeue (t : tid) (e : env) (data : DataPacket) (temp : ptr)
    (pc : dpc) (s : state) : outcome :=
  let q := dataQueue s in
  let goto pc' s' := Step (set_thread t (InDequeue data temp pc') s') in
  match pc with
  | D151 => (* DataPacket data = {0}; *)
      Step (set_thread t (InDequeue zero_packet temp D153) s)
  | D153 => (* sem_wait(&q->full); *)
      match sem_wait (q_full q) with
      | Some v => goto D154 (set_queue (set_full v q) s)
      | None => Blocked
      end
  | D154 => (* pthread_mutex_lock(&q->lock); *)
      match pthread_mutex_lock t (q_lock q) with
      | Some l => goto D156 (set_queue (set_lock l q) s)
      | None => Blocked
      end
  | D156 => (* if (q->head == NULL) *)
      match q_head q with
      | None => goto D157 s
      | Some _ => goto D163 s
      end
  | D157 => (* pthread_mutex_unlock(&q->lock); *)
      match pthread_mutex_unlock t (q_lock q) with
      | Some l => goto D158 (set_queue (set_lock l q) s)
      | None => Undefined
      end
  | D158 =>
      goto D159 (log_message (e_fopen e)
                   "Error: Tried to dequeue from an empty queue." s)
  | D159 => (* sem_post(&q->empty); *)
      goto D160 (set_queue (set_empty (sem_post (q_empty q)) q) s)
  | D160 => (* return data; *)
      Step (set_thread t (Client (Some data)) s)
  | D163 => (* Node *temp = q->head; *)
      Step (set_thread t (InDequeue data (q_head q) D164) s)
  | D164 => (* data = temp->packet; *)
      match load_node (heap s) temp with
      | Some n => Step (set_thread t (InDequeue (nd_packet n) temp D165) s)
      | None => Undefined
      end
  | D165 => (* q->head = q->head->next; *)
      match load_node (heap s) (q_head q) with
      | Some n => goto D167 (set_queue (set_head (nd_next n) q) s)
      | None => Undefined
      end
  | D167 => (* if (q->head == NULL) *)
      match q_head q with
      | None => goto D168 s
      | Some _ => goto D170 s
      end
  | D168 => (* q->tail = NULL; *)
      goto D170 (set_queue (set_tail NULL q) s)
  | D170 => (* q->count--; *)
      goto D172 (set_queue (set_count (wrap_int (q_count q - 1)) q) s)
  | D172 => (* pthread_mutex_unlock(&q->lock); *)
      match pthread_mutex_unlock t (q_lock q) with
      | Some l => goto D173 (set_queue (set_lock l q) s)
      | None => Undefined
      end
  | D173 => (* sem_post(&q->empty); *)
      goto D175 (set_queue (set_empty (sem_post (q_empty q)) q) s)
  | D175 => (* free(temp); *)
      match free temp (heap s) with
      | Some h => goto D176 (set_heap h s)
      | None => Undefined
      end
  | D176 =>
      goto D177 (log_message (e_fopen e) "Data dequeued." s)
  | D177 => (* return data; *)
      Step (set_thread t (Client (Some data)) s)
  end.

(** ** [get_external_data] *)

Definition srcString : list ascii :=
  list_ascii_of_string
    "0123456789abcdefghijklmnopqrstuvwxyxABCDEFGHIJKLMNOPQRSTUVWXYZ".

(** [strncpy(dest, src, n)] writes exactly [n] bytes: those of [src],
    then NUL bytes; writing past the end of [dest] is undefined. *)
Definition strncpy (dest src : list ascii) (n : nat) : option (list ascii) :=
  if n <=? length dest
  then Some (take n (src ++ replicate (n - length src) Ascii.zero) ++ drop n dest)
  else None.

(** The result of [rand()] is the argument [rand]; the function returns
    the new contents of [buffer] and its [int] result.  [x % 0] is
    undefined. *)
Definition get_external_data (rand : Z) (buffer : list ascii)
    (bufferSizeInBytes : Z) : option (list ascii * Z) :=
  if (bufferSizeInBytes =? 0)%Z then None
  else
    let val := Z.rem rand bufferSizeInBytes in
    if (bufferSizeInBytes <? val)%Z then Some (buffer, (-1)%Z)
    else
      match strncpy buffer srcString (Z.to_nat val) with
      | Some b => Some (b, val)
      | None => None
      end.

(** ** [writer_thread], one statement at a time *)

Definition with_data (p : ptr) (k : DataPacket) : DataPacket :=
  mkDataPacket p (pk_size k) (pk_eventId k) (pk_eventCorrelationId k).
Definition with_size (n : Z) (k : DataPacket) : DataPacket :=
  mkDataPacket (pk_data k) n (pk_eventId k) (pk_eventCorrelationId k).
Definition with_eventId (n : Z) (k : DataPacket) : DataPacket :=
  mkDataPacket (pk_data k) (pk_size k) n (pk_eventCorrelationId k).
Definition with_eventCorrelationId (n : Z) (k : DataPacket) : DataPacket :=
  mkDataPacket (pk_data k) (pk_size k) (pk_eventId k) n.

Definition writer_thread (t : tid) (e : env) (packet : DataPacket)
    (pc : wpc) (s : state) : outcome :=
  let goto pc' s' := Step (set_thread t (InWriter packet pc') s') in
  match pc with
  | W249 => (* packet.data = (char* ) malloc(1024); *)
      if negb (length (e_bytes e) =? 1024) then Refused
      else
        match malloc (e_malloc e) (BBuf (e_bytes e)) (heap s) with
        | Some (p, h) =>
            Step (set_thread t (InWriter (with_data p packet) W250) (set_heap h s))
        | None => Refused
        end
  | W250 => (* if (packet.data == NULL) *)
      match pk_data packet with
      | None => goto W251 s
      | Some _ => goto W254 s
      end
  | W251 =>
      goto W252 (log_message (e_fopen e)
                   "Error: Memory allocation failed for data packet." s)
  | W252 => (* continue; *)
      Step (set_thread t (InWriter zero_packet W249) s)
  | W254 => (* packet.size = get_external_data(packet.data, 1024); *)
      if (e_rand e <? 0)%Z || (INT_MAX <? e_rand e)%Z then Refused
      else
        match pk_data packet, load_buf (heap s) (pk_data packet) with
        | Some a, Some buffer =>
            match get_external_data (e_rand e) buffer 1024 with
            | Some (b, n) =>
                Step (set_thread t (InWriter (with_size n packet) W255)
                        (set_heap (<[a := BBuf b]> (heap s)) s))
            | None => Undefined
            end
        | _, _ => Undefined
        end
  | W255 => (* packet.eventId = 0; *)
      Step (set_thread t (InWriter (with_eventId 0 packet) W256) s)
  | W256 => (* packet.eventCorrelationId = 0; *)
      Step (set_thread t (InWriter (with_eventCorrelationId 0 packet) W258) s)
  | W258 => (* if (packet.size > 0) *)
      if (0 <? pk_size packet)%Z then goto W259 s else goto W261 s
  | W259 => (* enqueue(&dataQueue, packet); *)
      Step (set_thread t (InEnqueue FromWriter packet NULL E114) s)
  | W261 => (* free(packet.data); and the loop body ends *)
      match free (pk_data packet) (heap s) with
      | Some h => Step (set_thread t (InWriter zero_packet W249) (set_heap h s))
      | None => Undefined
      end
  end.

(** ** The machine *)

(** One statement of thread [t].  A [Client] starts a call: [enqueue(p)]
    when the environment says [Some p], [dequeue()] otherwise. *)
Definition step (t : tid) (e : env) (s : state) : outcome :=
  match threads s !! t with
  | None => Refused
  | Some (Client _) =>
      match e_call e with
      | Some p => Step (set_thread t (InEnqueue FromClient p NULL E114) s)
      | None => Step (set_thread t (InDequeue zero_packet NULL D151) s)
      end
  | Some (InEnqueue k data newNode pc) => enqueue t e k data newNode pc s
  | Some (InDequeue data temp pc) => dequeue t e data temp pc s
  | Some (InWriter packet pc) => writer_thread t e packet pc s
  end.

(** A schedule says which thread moves next and what the environment
    answers.  [run] is [None] as soon as a scheduled step is not a
    [Step]. *)
Fixpoint run (sched : list (tid * env)) (s : state) : option state :=
  match sched with
  | [] => Some s
  | (t, e) :: rest =>
      match step t e s with
      | Step s' => run rest s'
      | _ => None
      end
  end.

(** A thread that has not started anything yet. *)
Definition fresh_thread (st : tstate) : bool :=
  match st with
  | Client None => true
  | InWriter _ W249 => true
  | _ => false
  end.

(** The program before [main] has run: the global queue is zeroed, the
    heap is empty. *)
Definition zero_queue : Queue := mkQueue NULL NULL 0 0 0 None.

Definition boot (fopen_ok : bool) (size : Z) (pool : list tstate) : state :=
  initializeQueue fopen_ok size (mkState zero_queue ∅ pool []).

Definition reachable (size : Z) (pool : list tstate) (s : state) : Prop :=
  forallb fresh_thread pool = true /\
  exists fopen_ok sched, run sched (boot fopen_ok size pool) = Some s.

(** ** Sequential calls

    [finish fuel t e s] lets thread [t] alone run, statement after
    statement, until it is back between two calls (a [Client]); the
    outcome is that of the first step that is not a [Step].  Both
    functions are straight-line code of fewer than twenty statements,
    so the fuel given below never runs out. *)
Fixpoint finish (fuel : nat) (t : tid) (e : env) (s : state) : outcome :=
  match threads s !! t with
  | Some (Client _) => Step s
  | _ =>
      match fuel with
      | O => Refused
      | S fuel' =>
          match step t e s with
          | Step s' => finish fuel' t e s'
          | o => o
          end
      end
  end.

(** [enqueue(&dataQueue, p)] called by the idle client [t] and run to its
    return without any other thread moving in between. *)
Definition call_enqueue (t : tid) (e : env) (p : DataPacket) (s : state) : outcome :=
  match threads s !! t with
  | Some (Client _) =>
      finish 16 t e (set_thread t (InEnqueue FromClient p NULL E114) s)
  | _ => Refused
  end.

(** [dequeue(&dataQueue)] called by the idle client [t] and run to its
    return; the result is in the client's [ret]. *)
Definition call_dequeue (t : tid) (e : env) (s : state) : outcome :=
  match threads s !! t with
  | Some (Client _) =>
      finish 19 t e (set_thread t (InDequeue zero_packet NULL D151) s)
  | _ => Refused
  end.

Definition returned (t : tid) (s : state) : option DataPacket :=
  match threads s !! t with
  | Some (Client r) => r
  | _ => None
  end.

(** ** The contents of the linked list *)

(** Follow [next] pointers from [p], at most [fuel] nodes. *)
Fixpoint walk (fuel : nat) (h : gmap loc block) (p : ptr) : list DataPacket :=
  match fuel with
  | O => []
  | S fuel' =>
      match load_node h p with
      | Some n => nd_packet n :: walk fuel' h (nd_next n)
      | None => []
      end
  end.

(** The packets stored in the queue, head first.  A list without a cycle
    has no more nodes than the heap has blocks. *)
Definition items (s : state) : list DataPacket :=
  walk (size (heap s)) (heap s) (q_head (dataQueue s)).

(** [chain h p L]: starting at [p], the heap holds exactly the nodes [L]
    (address and packet), the last one pointing to [NULL]. *)
Fixpoint chain (h : gmap loc block) (p : ptr) (L : list (loc * DataPacket)) : Prop :=
  match L with
  | [] => p = NULL
  | (a, d) :: L' =>
      p = Some a /\ exists nx, h !! a = Some (BNode (mkNode d nx)) /\ chain h nx L'
  end.

(** ** The invariant of the machine *)

Fixpoint total (w : tstate -> nat) (l : list tstate) : nat :=
  match l with
  | [] => 0
  | st :: l' => w st + total w l'
  end.

(** Threads that hold a unit of [empty]: an enqueuer that has passed
    [sem_wait(&q->empty)] and not yet linked its node, a dequeuer that
    has unlinked a node and not yet done [sem_post(&q->empty)]. *)
Definition slot_held (st : tstate) : nat :=
  match st with
  | InEnqueue _ _ _ (E125 | E127 | E128 | E130) => 1
  | InDequeue _ _ (D167 | D168 | D170 | D172 | D173) => 1
  | _ => 0
  end.

(** Threads that hold a unit of [full]: an enqueuer that has linked its
    node and not yet done [sem_post(&q->full)], a dequeuer that has
    passed [sem_wait(&q->full)] and not yet unlinked a node. *)
Definition item_held (st : tstate) : nat :=
  match st with
  | InEnqueue _ _ _ (E131 | E133 | E135 | E136) => 1
  | InDequeue _ _ (D154 | D156 | D163 | D164 | D165) => 1
  | _ => 0
  end.

(** [count] lags behind the list between the splice and [count++]
    / [count--]. *)
Definition count_low (st : tstate) : nat :=
  match st with
  | InEnqueue _ _ _ (E131 | E133) => 1
  | _ => 0
  end.

Definition count_high (st : tstate) : nat :=
  match st with
  | InDequeue _ _ (D167 | D168 | D170) => 1
  | _ => 0
  end.

(** The statements between [pthread_mutex_lock] and
    [pthread_mutex_unlock]. *)
Definition crit (st : tstate) : bool :=
  match st with
  | InEnqueue _ _ _ (E127 | E128 | E130 | E131 | E133 | E135) => true
  | InDequeue _ _ (D156 | D157 | D163 | D164 | D165 | D167 | D168 | D170 | D172) => true
  | _ => false
  end.

(** The error branch of [dequeue] (lines 157 to 160). *)
Definition in_error_branch (st : tstate) : bool :=
  match st with
  | InDequeue _ _ (D157 | D158 | D159 | D160) => true
  | _ => false
  end.

Definition ptr_list (p : ptr) : list loc :=
  match p with
  | Some a => [a]
  | None => []
  end.

(** The heap blocks a thread has to itself: the node it allocated and
    has not linked yet, the node it unlinked and has not freed yet, the
    payload buffer a writer has not passed on yet. *)
Definition owned (st : tstate) : list loc :=
  match st with
  | InEnqueue _ _ n (E115 | E117 | E118 | E121 | E122 | E124 | E125 | E127 | E128 | E130) =>
      ptr_list n
  | InDequeue _ tmp (D167 | D168 | D170 | D172 | D173 | D175) => ptr_list tmp
  | InWriter k (W250 | W251 | W252 | W254 | W255 | W256 | W258 | W259 | W261) =>
      ptr_list (pk_data k)
  | _ => []
  end.

(** What a thread knows about its own blocks. *)
Definition priv_ok (h : gmap loc block) (st : tstate) : Prop :=
  match st with
  | InEnqueue _ d n pc =>
      match pc with
      | E114 => True
      | E115 => forall a, n = Some a -> exists nd, h !! a = Some (BNode nd)
      | E117 | E118 => n = NULL
      | E121 => exists a nd, n = Some a /\ h !! a = Some (BNode nd)
      | E122 => exists a nx, n = Some a /\ h !! a = Some (BNode (mkNode d nx))
      | E124 | E125 | E127 | E128 | E130 =>
          exists a, n = Some a /\ h !! a = Some (BNode (mkNode d NULL))
      | _ => True
      end
  | InDequeue _ tmp pc =>
      match pc with
      | D167 | D168 | D170 | D172 | D173 | D175 =>
          exists a nd, tmp = Some a /\ h !! a = Some (BNode nd)
      | _ => True
      end
  | InWriter k pc =>
      match pc with
      | W249 => True
      | W251 | W252 => pk_data k = NULL
      | W250 =>
          forall a, pk_data k = Some a ->
            exists b, h !! a = Some (BBuf b) /\ length b = 1024
      | _ =>
          exists a b, pk_data k = Some a /\ h !! a = Some (BBuf b) /\ length b = 1024
      end
  | Client _ => True
  end.

(** What the owner of the mutex knows about the list. *)
Definition crit_ok (hd tl : ptr) (L : list (loc * DataPacket)) (st : tstate) : Prop :=
  match st with
  | InEnqueue _ d n pc =>
      match pc with
      | E127 | E133 | E135 => tl = last L.*1
      | E128 => tl = last L.*1 /\ tl = NULL
      | E130 => tl = last L.*1 /\ tl <> NULL
      | E131 => exists a L0, n = Some a /\ L = L0 ++ [(a, d)] /\ L0 <> [] /\ tl = last L0.*1
      | _ => True
      end
  | InDequeue d tmp pc =>
      match pc with
      | D156 => tl = last L.*1 /\ hd <> NULL
      | D170 | D172 => tl = last L.*1
      | D163 => tl = last L.*1 /\ hd <> NULL
      | D164 => tl = last L.*1 /\ hd <> NULL /\ tmp = hd
      | D165 => tl = last L.*1 /\ tmp = hd /\ exists a L', L = (a, d) :: L'
      | D167 => exists a, tmp = Some a /\ tl = last (a :: L.*1)
      | D168 => L = [] /\ tl = tmp
      | _ => True
      end
  | _ => True
  end.

Record inv (C : nat) (L : list (loc * DataPacket)) (s : state) : Prop := mkInv {
  inv_bound : (Z.of_nat C <= INT_MAX)%Z;
  inv_chain : chain (heap s) (q_head (dataQueue s)) L;
  inv_slots : C = q_empty (dataQueue s) + length L + total slot_held (threads s);
  inv_items : length L = q_full (dataQueue s) + total item_held (threads s);
  inv_count :
    (q_count (dataQueue s) + Z.of_nat (total count_low (threads s))
     = Z.of_nat (length L) + Z.of_nat (total count_high (threads s)))%Z;
  inv_lock : forall t st, threads s !! t = Some st ->
    (crit st = true <-> q_lock (dataQueue s) = Some t);
  inv_owner : forall o, q_lock (dataQueue s) = Some o -> o < length (threads s);
  inv_tail : q_lock (dataQueue s) = None -> q_tail (dataQueue s) = last L.*1;
  inv_own : NoDup (L.*1 ++ flat_map owned (threads s));
  inv_priv : forall t st, threads s !! t = Some st -> priv_ok (heap s) st;
  inv_crit : forall t st, threads s !! t = Some st ->
    crit_ok (q_head (dataQueue s)) (q_tail (dataQueue s)) L st;
  inv_noerr : forall t st, threads s !! t = Some st -> in_error_branch st = false
}.

(** The effect of one statement of a thread in state [st] on the list. *)
Definition abs_step (st : tstate) (L : list (loc * DataPacket)) : list (loc * DataPacket) :=
  match st with
  | InEnqueue _ d n (E128 | E130) => L ++ ((fun a => (a, d)) <$> ptr_list n)
  | InDequeue _ _ D165 => tail L
  | _ => L
  end.

(** A sequence of calls made one after the other, each run to its
    return; the result lists what the [dequeue] calls returned. *)
Inductive op :=
| OpEnqueue (t : tid) (e : env) (p : DataPacket)
| OpDequeue (t : tid) (e : env).

Fixpoint perform (ops : list op) (s : state) : option (state * list DataPacket) :=
  match ops with
  | [] => Some (s, [])
  | OpEnqueue t e p :: rest =>
      match call_enqueue t e p s with
      | Step s' => perform rest s'
      | _ => None
      end
  | OpDequeue t e :: rest =>
      match call_dequeue t e s with
      | Step s' =>
          match returned t s', perform rest s' with
          | Some d, Some (s'', ds) => Some (s'', d :: ds)
          | _, _ => None
          end
      | _ => None
      end
  end.

(** The packets passed to [enqueue], in call order. *)
Fixpoint passed (ops : list op) : list DataPacket :=
  match ops with
  | [] => []
  | OpEnqueue _ _ p :: rest => p :: passed rest
  | OpDequeue _ _ :: rest => passed rest
  end.

(** Those of them whose call got a node from [malloc]. *)
Fixpoint delivered (ops : list op) : list DataPacket :=
  match ops with
  | [] => []
  | OpEnqueue _ e p :: rest =>
      match e_malloc e with
      | Some _ => p :: delivered rest
      | None => delivered rest
      end
  | OpDequeue _ _ :: rest => delivered rest
  end.

Definition is_enqueue (o : op) : bool :=
  match o with
  | OpEnqueue _ _ _ => true
  | OpDequeue _ _ => false
  end.


(** ** One thread running alone *)

(** A thread that is not inside a call: a client between two calls, a
    writer at the top of its loop. *)
Definition idle (st : tstate) : bool :=
  match st with
  | Client _ => true
  | InWriter _ W249 => true
  | _ => false
  end.

(** No thread is inside a call. *)
Definition quiescent (s : state) : Prop :=
  forall u su, threads s !! u = Some su -> idle su = true.

Definition others_idle (t : tid) (s : state) : Prop :=
  forall u su, u <> t -> threads s !! u = Some su -> idle su = true.

(** A client inside a call it made itself. *)
Definition busy (st : tstate) : bool :=
  match st with
  | InEnqueue FromClient _ _ _ => true
  | InDequeue _ _ _ => true
  | _ => false
  end.

(** An upper bound on the statements left before the call returns. *)
Definition remaining (st : tstate) : nat :=
  match st with
  | InEnqueue _ _ _ pc =>
      match pc with
      | E114 => 13 | E115 => 12 | E117 => 2 | E118 => 1 | E121 => 11
      | E122 => 10 | E124 => 9 | E125 => 8 | E127 => 7 | E128 => 6
      | E130 => 6 | E131 => 5 | E133 => 4 | E135 => 3 | E136 => 2
      | E137 => 1
      end
  | InDequeue _ _ pc =>
      match pc with
      | D151 => 15 | D153 => 14 | D154 => 13 | D156 => 12 | D157 => 4
      | D158 => 3 | D159 => 2 | D160 => 1 | D163 => 11 | D164 => 10
      | D165 => 9 | D167 => 8 | D168 => 7 | D170 => 6 | D172 => 5
      | D173 => 4 | D175 => 3 | D176 => 2 | D177 => 1
      end
  | _ => 0
  end.

(** The list as it will be when the call of the thread has returned. *)
Definition outlook (e : env) (st : tstate) (L : list (loc * DataPacket))
  : list (loc * DataPacket) :=
  match st with
  | InEnqueue _ d n pc =>
      match pc with
      | E114 => L ++ ((fun a => (a, d)) <$> ptr_list (e_malloc e))
      | E115 | E121 | E122 | E124 | E125 | E127 | E128 | E130 =>
          L ++ ((fun a => (a, d)) <$> ptr_list n)
      | _ => L
      end
  | InDequeue _ _ pc =>
      match pc with
      | D151 | D153 | D154 | D156 | D163 | D164 | D165 => tail L
      | _ => L
      end
  | _ => L
  end.

(** What the thread will have in [ret] when its call has returned. *)
Definition result (st : tstate) (L : list (loc * DataPacket)) : option DataPacket :=
  match st with
  | Client r => r
  | InDequeue d _ pc =>
      match pc with
      | D151 | D153 | D154 | D156 | D163 | D164 => snd <$> head L
      | _ => Some d
      end
  | _ => None
  end.

(** The call of the thread is going to wait at [sem_wait]: an enqueue
    that has (or will get) a node while the list holds [C] items, a
    dequeue while the list is empty. *)
Definition blocks (C : nat) (e : env) (st : tstate) (L : list (loc * DataPacket)) : bool :=
  match st with
  | InEnqueue _ _ n pc =>
      match pc with
      | E114 => bool_decide (is_Some (e_malloc e)) && (C <=? length L)
      | E115 => bool_decide (is_Some n) && (C <=? length L)
      | E121 | E122 | E124 => C <=? length L
      | _ => false
      end
  | InDequeue _ _ (D151 | D153) => length L =? 0
  | _ => false
  end.

(** [malloc] is about to return an address that is not allocated. *)
Definition env_fresh (e : env) (st : tstate) (s : state) : Prop :=
  match st with
  | InEnqueue _ _ _ E114 => forall a, e_malloc e = Some a -> heap s !! a = None
  | _ => True
  end.

(** Thread [t] is a client between two calls. *)
Definition client_at (t : tid) (s : state) : bool :=
  match threads s !! t with
  | Some (Client _) => true
  | _ => false
  end.

Definition op_thread (o : op) : tid :=
  match o with
  | OpEnqueue t _ _ => t
  | OpDequeue t _ => t
  end.

(** The environment of a client that calls [enqueue(p)]. *)
Definition calling (p : option DataPacket) (e : env) : env :=
  mkEnv p (e_malloc e) (e_node e) (e_bytes e) (e_rand e) (e_fopen e).

(** The call gets a node (a dequeue needs none). *)
Definition allocates (o : op) : bool :=
  match o with
  | OpEnqueue _ e _ => bool_decide (is_Some (e_malloc e))
  | OpDequeue _ _ => true
  end.

Definition is_dequeue_of (s : state) (o : op) : Prop :=
  is_enqueue o = false /\ client_at (op_thread o) s = true.

(** ** Sample inputs, used to exercise the theorems *)

Definition sample_env (m : ptr) : env :=
  mkEnv None m (mkNode zero_packet (Some 99)) [] 0 true.

Definition sample_packet (n : Z) : DataPacket := mkDataPacket NULL n 7 8.

Definition two_clients : list tstate := [Client None; Client None].

(** The state in which a sequence of calls leaves the booted program. *)
Definition after (size : Z) (pool : list tstate) (ops : list op) : state :=
  match perform ops (boot true size pool) with
  | Some (s, _) => s
  | None => boot true size pool
  end.

Definition sample_enqueues : list op :=
  [OpEnqueue 0 (sample_env (Some 10)) (sample_packet 5);
   OpEnqueue 1 (sample_env (Some 11)) (sample_packet 6)].

Definition sample_dequeues : list op :=
  [OpDequeue 1 (sample_env None); OpDequeue 0 (sample_env None)].

(** The count invariant for a queue of capacity [size]: [count] is
    within bounds, and whenever the mutex is free it is the number of
    nodes in the list. *)
Definition count_ok (size : Z) (s : state) : Prop :=
  (0 <= q_count (dataQueue s) <= size)%Z /\
  (q_lock (dataQueue s) = None ->
   q_count (dataQueue s) = Z.of_nat (length (items s))).

(** The state a schedule leads to from the booted program. *)
Definition after_run (size : Z) (pool : list tstate) (sched : list (tid * env)) : state :=
  match run sched (boot true size pool) with
  | Some s => s
  | None => boot true size pool
  end.

(** One writer that has allocated its buffer at address 5 and is about
    to call [get_external_data] (line 254). *)
Definition sample_writer_env : env :=
  mkEnv None (Some 5) (mkNode zero_packet NULL) (replicate 1024 "x"%char) 0 true.

Definition sample_writer_sched : list (tid * env) :=
  [(0, sample_writer_env); (0, sample_writer_env)].

Definition one_writer : list tstate := [InWriter zero_packet W249].

Definition sample_writer : state := after_run 2 one_writer sample_writer_sched.

(** Client 0 has called [enqueue] and stands at [sem_wait(&q->empty)]
    (line 124). *)
Definition sample_waiting : state :=
  after_run 2 two_clients
    (replicate 5 (0, calling (Some (sample_packet 5)) (sample_env (Some 10)))).

(** ** Where the synchronisation calls are *)

Definition at_sem_wait (st : tstate) : bool :=
  match st with
  | InEnqueue _ _ _ E124 | InDequeue _ _ D153 => true
  | _ => false
  end.

Definition at_mutex_lock (st : tstate) : bool :=
  match st with
  | InEnqueue _ _ _ E125 | InDequeue _ _ D154 => true
  | _ => false
  end.

Definition at_mutex_unlock (st : tstate) : bool :=
  match st with
  | InEnqueue _ _ _ E135 | InDequeue _ _ (D157 | D172) => true
  | _ => false
  end.

Definition at_sem_post (st : tstate) : bool :=
  match st with
  | InEnqueue _ _ _ E136 | InDequeue _ _ (D159 | D173) => true
  | _ => false
  end.

(** ** The critical sections *)

(** The number of statements the owner of the mutex has left up to and
    including its [pthread_mutex_unlock]; 0 outside the critical
    sections. *)
Definition crit_left (st : tstate) : nat :=
  match st with
  | InEnqueue _ _ _ pc =>
      match pc with
      | E127 => 5 | E128 => 3 | E130 => 4 | E131 => 3 | E133 => 2 | E135 => 1
      | _ => 0
      end
  | InDequeue _ _ pc =>
      match pc with
      | D156 => 8 | D157 => 1 | D163 => 7 | D164 => 6 | D165 => 5
      | D167 => 4 | D168 => 3 | D170 => 2 | D172 => 1
      | _ => 0
      end
  | _ => 0
  end.

(** ** Logging switched off *)

(** The same environment, with every [fopen] of the log file failing. *)
Definition mute (e : env) : env :=
  mkEnv (e_call e) (e_malloc e) (e_node e) (e_bytes e) (e_rand e) false.

Definition mute_all (sched : list (tid * env)) : list (tid * env) :=
  (fun te => (te.1, mute te.2)) <$> sched.

(** The state without the contents of the log file. *)
Definition forget_log (s : state) : state := set_logfile [] s.

(** ** What happens to the packets

    The statements at which a packet changes hands: a caller passes it to
    [enqueue] (a client's call, line 259 of the writer); [enqueue] gives
    up at line 118; lines 128 and 130 link its node into the list; line
    165 unlinks the head, whose packet line 164 has copied into [data];
    [dequeue] returns [data] at line 160 or 177. *)
Inductive event :=
| Passed (d : DataPacket)
| Dropped (d : DataPacket)
| Linked (d : DataPacket)
| Unlinked (d : DataPacket)
| Returned (d : DataPacket).

(** The event of the next statement of a thread in state [st]. *)
Definition observe (e : env) (st : tstate) : list event :=
  match st with
  | Client _ =>
      match e_call e with
      | Some p => [Passed p]
      | None => []
      end
  | InWriter pk W259 => [Passed pk]
  | InEnqueue _ d _ E118 => [Dropped d]
  | InEnqueue _ d (Some _) (E128 | E130) => [Linked d]
  | InDequeue d _ D165 => [Unlinked d]
  | InDequeue d _ (D160 | D177) => [Returned d]
  | _ => []
  end.

(** The events of a schedule, in the order of the steps. *)
Fixpoint history (sched : list (tid * env)) (s : state) : list event :=
  match sched with
  | [] => []
  | (t, e) :: rest =>
      match threads s !! t, step t e s with
      | Some st, Step s' => observe e st ++ history rest s'
      | _, _ => []
      end
  end.

Definition passed_in (h : list event) : list DataPacket :=
  omap (fun ev => match ev with Passed d => Some d | _ => None end) h.
Definition dropped_in (h : list event) : list DataPacket :=
  omap (fun ev => match ev with Dropped d => Some d | _ => None end) h.
Definition linked_in (h : list event) : list DataPacket :=
  omap (fun ev => match ev with Linked d => Some d | _ => None end) h.
Definition unlinked_in (h : list event) : list DataPacket :=
  omap (fun ev => match ev with Unlinked d => Some d | _ => None end) h.
Definition returned_in (h : list event) : list DataPacket :=
  omap (fun ev => match ev with Returned d => Some d | _ => None end) h.

(** The packet of an [enqueue] in progress that is neither linked nor
    dropped yet. *)
Definition pending (st : tstate) : list DataPacket :=
  match st with
  | InEnqueue _ d _ (E114 | E115 | E117 | E118 | E121 | E122 | E124 | E125
                     | E127 | E128 | E130) => [d]
  | _ => []
  end.

(** The packet a [dequeue] in progress has unlinked and not returned
    yet. *)
Definition holding (st : tstate) : list DataPacket :=
  match st with
  | InDequeue d _ (D167 | D168 | D170 | D172 | D173 | D175 | D176 | D177) => [d]
  | _ => []
  end.

(** ** Further sample states *)

(** Client 0 has called [enqueue], passed [sem_wait] and taken the
    mutex: it stands at line 127. *)
Definition sample_locked : state :=
  after_run 2 two_clients
    (replicate 7 (0, calling (Some (sample_packet 5)) (sample_env (Some 10)))).

(** Client 0 enqueues a packet, then client 1 dequeues it, then client
    0 starts a second [enqueue] and gets as far as line 124. *)
Definition sample_sched : list (tid * env) :=
  replicate 13 (0, calling (Some (sample_packet 5)) (sample_env (Some 10)))
  ++ replicate 16 (1, calling None (sample_env None))
  ++ replicate 5 (0, calling (Some (sample_packet 6)) (sample_env (Some 11))).

(** A writer whose [get_external_data] returned 3 and which stands at the
    call of [enqueue] (line 259). *)
Definition sample_rand_env : env :=
  mkEnv None NULL (mkNode zero_packet NULL) (replicate 1024 "x"%char) 3 true.

Definition sample_calling : state :=
  after_run 2 one_writer
    (sample_writer_sched ++ replicate 4 (0, sample_rand_env)).

(** What [writer_thread] builds before it calls [enqueue]: a buffer, a
    length between 1 and 1023 and both identifiers zero. *)
Definition well_formed (d : DataPacket) : Prop :=
  pk_data d <> NULL /\ (0 < pk_size d <= 1023)%Z /\
  pk_eventId d = 0%Z /\ pk_eventCorrelationId d = 0%Z.

(** What is known of the local [packet] of a writer, line by line. *)
Definition writer_ok (st : tstate) : Prop :=
  match st with
  | InWriter pk W255 => (0 <= pk_size pk <= 1023)%Z
  | InWriter pk W256 => (0 <= pk_size pk <= 1023)%Z /\ pk_eventId pk = 0%Z
  | InWriter pk W258 =>
      (0 <= pk_size pk <= 1023)%Z /\ pk_eventId pk = 0%Z /\
      pk_eventCorrelationId pk = 0%Z
  | InWriter pk W259 =>
      (0 < pk_size pk <= 1023)%Z /\ pk_eventId pk = 0%Z /\
      pk_eventCorrelationId pk = 0%Z
  | InEnqueue FromWriter d _ _ => well_formed d
  | _ => True
  end.

(** A thread that runs [writer_thread], in the loop or in its call of
    [enqueue]. *)
Definition producer (st : tstate) : bool :=
  match st with
  | InWriter _ _ | InEnqueue FromWriter _ _ _ => true
  | _ => false
  end.

(** Two writers; the first has enqueued one packet of length 3. *)
Definition two_writers : list tstate :=
  [InWriter zero_packet W249; InWriter zero_packet W249].

Definition sample_link_env : env :=
  mkEnv None (Some 7) (mkNode zero_packet NULL) (replicate 1024 "x"%char) 3 true.

Definition sample_produced : state :=
  after_run 2 two_writers
    (sample_writer_sched ++ replicate 4 (0, sample_rand_env)
     ++ replicate 13 (0, sample_link_env)).

(** The packet this writer has built. *)
Definition sample_built : DataPacket := mkDataPacket (Some 5) 3 0 0.

(** The writer has just called [enqueue] (line 114). *)
Definition sample_in_call : state :=
  after_run 2 one_writer
    (sample_writer_sched ++ replicate 5 (0, sample_rand_env)).

(** The addresses of the nodes of the list, from [p] on. *)
Fixpoint trail (fuel : nat) (h : gmap loc block) (p : ptr) : list loc :=
  match fuel with
  | O => []
  | S fuel' =>
      match p, load_node h p with
      | Some a, Some n => a :: trail fuel' h (nd_next n)
      | _, _ => []
      end
  end.

Definition cells (s : state) : list loc :=
  trail (size (heap s)) (heap s) (q_head (dataQueue s)).

(** The node a thread holds outside the list: [newNode] before it is
    linked, [temp] before it is freed. *)
Definition node_in_hand (st : tstate) : list loc :=
  match st with
  | InWriter _ _ => []
  | _ => owned st
  end.

(** Every [Node] block of the heap is in the list or in the hand of a
    thread. *)
Definition nodes_accounted (L : list (loc * DataPacket)) (s : state) : Prop :=
  forall a nd, heap s !! a = Some (BNode nd) ->
    a ∈ L.*1 ++ flat_map owned (threads s).

(** A thread that is not in the writer loop: it is in [enqueue], in
    [dequeue] or about to call one of them. *)
Definition in_queue_code (st : tstate) : bool :=
  match st with
  | InWriter _ _ => false
  | _ => true
  end.

(** The writer of [sample_in_call] one statement later: the node is
    allocated. *)
Definition sample_node_made : state :=
  after_run 2 one_writer
    (sample_writer_sched ++ replicate 5 (0, sample_rand_env)
     ++ [(0, sample_link_env)]).

(** ** [process_data] *)

(** What goes to the standard output: fixed text, the thread identifier
    that [pthread_self()] returns (printed with [%llu]), one character
    ([%c]) or the end of a line. *)
Inductive token :=
  | Text (s : string)
  | Self (t : tid)
  | Chr (c : ascii)
  | Newline.

(** [for (i = 0; i < bufferSizeInBytes; i++) printf("%c", buffer[i]);]
    with [count] iterations still to run; reading past the end of the
    buffer is undefined. *)
Fixpoint print_loop (buffer : list ascii) (i count : nat) : option (list token) :=
  match count with
  | O => Some []
  | S count' =>
      match buffer !! i with
      | Some c =>
          match print_loop buffer (S i) count' with
          | Some o => Some (Chr c :: o)
          | None => None
          end
      | None => None
      end
  end.

(** [memset(buffer, c, n)] sets [n] bytes one after the other; [n] is taken
    as a [size_t], so a negative [int] is a huge length, and writing past
    the end of the buffer is undefined. *)
Fixpoint fill (buffer : list ascii) (c : ascii) (i count : nat) : list ascii :=
  match count with
  | O => buffer
  | S count' => fill (<[i := c]> buffer) c (S i) count'
  end.

Definition memset (buffer : list ascii) (c : ascii) (n : Z) : option (list ascii) :=
  if (n <? 0)%Z || (Z.of_nat (length buffer) <? n)%Z then None
  else Some (fill buffer c 0 (Z.to_nat n)).

(** [process_data(buffer, bufferSizeInBytes)] run by thread [t] on the heap
    [h]: what it prints and the heap it leaves; [None] is undefined
    behaviour. *)
Definition process_data (t : tid) (h : gmap loc block) (buffer : ptr)
    (bufferSizeInBytes : Z) : option (list token * gmap loc block) :=
  match buffer with
  | Some a =>
      match h !! a with
      | Some (BBuf b) =>
          match print_loop b 0 (Z.to_nat bufferSizeInBytes),
                memset b Ascii.zero bufferSizeInBytes with
          | Some o, Some b' =>
              Some ([Text "thread "; Self t; Text " - "] ++ o ++ [Newline],
                    <[a := BBuf b']> h)
          | _, _ => None
          end
      | _ => None
      end
  | None => Some ([Text "error in process data - "; Self t; Newline], h)
  end.

(** ** [reader_thread] *)

(** One round of the loop of [reader_thread], run by thread [t] while the
    other threads stand still: the call of [dequeue], then the test, the
    call of [process_data] and the [free] of lines 284-287 on the packet
    returned.  The result is what the round prints and the state it
    leaves. *)
Definition reader_thread (t : tid) (e : env) (s : state) : outcome * list token :=
  match call_dequeue t e s with
  | Step s1 =>
      match returned t s1 with
      | Some packet =>
          if (0 <? pk_size packet)%Z then
            match process_data t (heap s1) (pk_data packet) (pk_size packet) with
            | Some (o, h) =>
                match free (pk_data packet) h with
                | Some h' => (Step (set_heap h' s1), o)
                | None => (Undefined, o)
                end
            | None => (Undefined, [])
            end
          else (Step s1, [])
      | None => (Refused, [])
      end
  | o => (o, [])
  end.

(** No client calls [enqueue]: the threads that are not writers only call
    [dequeue], as [reader_thread] does. *)
Definition never_enqueues (sched : list (tid * env)) : Prop :=
  Forall (fun te => e_call te.2 = None) sched.

(** The payload of [d] is a live buffer of 1024 bytes that no writer holds
    any more, and the length of [d] fits it. *)
Definition payload_in (h : gmap loc block) (thr : list tstate)
    (d : DataPacket) : Prop :=
  exists a b,
    pk_data d = Some a /\ h !! a = Some (BBuf b) /\ length b = 1024 /\
    (1 <= pk_size d <= 1023)%Z /\
    forall u su, thr !! u = Some su -> a ∉ owned su.

(** A writer and a reader; the writer has enqueued one packet of length 3
    and is back at the top of its loop. *)
Definition writer_and_reader : list tstate :=
  [InWriter zero_packet W249; Client None].

Definition sample_production : list (tid * env) :=
  sample_writer_sched ++ replicate 4 (0, sample_rand_env)
  ++ replicate 13 (0, sample_link_env).

Definition sample_to_read : state :=
  after_run 2 writer_and_reader sample_production.

(** A buffer of 1024 bytes before and after [get_external_data] has
    written three characters into it. *)
Definition sample_buffer : list ascii := replicate 1024 "x"%char.

Definition sample_filled : list ascii :=
  list_ascii_of_string "012" ++ replicate 1021 "x"%char.

(** Every stored packet, and every packet a call of [enqueue] is about
    to store, has its payload. *)
Definition payloads_ok (L : list (loc * DataPacket)) (s : state) : Prop :=
  (forall d, d ∈ L.*2 -> payload_in (heap s) (threads s) d) /\
  (forall u k d n pc, threads s !! u = Some (InEnqueue k d n pc) ->
     payload_in (heap s) (threads s) d).

(** * Properties *)

(** ** Sums over the thread pool *)

Lemma total_insert (w : tstate -> nat) (l : list tstate) t st st' :
  l !! t = Some st ->
  total w (<[t := st']> l) + w st = total w l + w st'.
Proof.
  revert t. induction l as [|x l IH]; intros [|t] H; simplify_eq/=.
  - lia.
  - specialize (IH t H). lia.
Qed.

Lemma total_fresh (w : tstate -> nat) (l : list tstate) :
  (forall st, fresh_thread st = true -> w st = 0) ->
  forallb fresh_thread l = true -> total w l = 0.
Proof.
  intros Hw. induction l as [|x l IH]; simpl; [done|].
  intros [Hx Hl]%andb_prop. rewrite (Hw x Hx). by rewrite IH.
Qed.

(** ** Ownership *)

Lemma owned_insert (l : list tstate) t st :
  l !! t = Some st ->
  exists R,
    flat_map owned l ≡ₚ owned st ++ R /\
    (forall st', flat_map owned (<[t := st']> l) ≡ₚ owned st' ++ R) /\
    (forall u su, u <> t -> l !! u = Some su -> forall a, a ∈ owned su -> a ∈ R).
Proof.
  revert t. induction l as [|x l IH]; intros [|t] H; simplify_eq/=.
  - exists (flat_map owned l). split_and!; [done..|].
    intros [|u] su Hu Hsu a Ha; [done|]. simpl in Hsu.
    apply list_elem_of_In, in_flat_map. exists su. split.
    + apply list_elem_of_In. by eapply list_elem_of_lookup_2.
    + by apply list_elem_of_In.
  - destruct (IH t H) as (R & H1 & H2 & H3).
    exists (owned x ++ R). split_and!.
    + rewrite H1. by rewrite !(assoc (++)), (comm (++) (owned x)).
    + intros st'. rewrite H2. by rewrite !(assoc (++)), (comm (++) (owned x)).
    + intros [|u] su Hu Hsu a Ha; simplify_eq/=.
      * apply elem_of_app. by left.
      * apply elem_of_app. right. apply (H3 u su); [congruence|done..].
Qed.

Lemma owned_lookup (l : list tstate) t st a :
  l !! t = Some st -> a ∈ owned st -> a ∈ flat_map owned l.
Proof.
  intros H Ha. apply list_elem_of_In, in_flat_map. exists st. split.
  - apply list_elem_of_In. by eapply list_elem_of_lookup_2.
  - by apply list_elem_of_In.
Qed.

Lemma owned_fresh (l : list tstate) :
  forallb fresh_thread l = true -> flat_map owned l = [].
Proof.
  induction l as [|x l IH]; simpl; [done|].
  intros [Hx Hl]%andb_prop. rewrite (IH Hl).
  destruct x as [[]| | |? []]; simpl in *; try done.
Qed.

(** ** Chains *)

Lemma chain_frame h h' p L :
  chain h p L ->
  (forall a, a ∈ L.*1 -> h' !! a = h !! a) ->
  chain h' p L.
Proof.
  revert p. induction L as [|[a d] L IH]; simpl; [done|].
  intros p (-> & nx & Ha & Hc) Hf. split; [done|]. exists nx. split.
  - rewrite Hf; [done|]. apply list_elem_of_here.
  - apply IH; [done|]. intros b Hb. apply Hf. by apply list_elem_of_further.
Qed.

Lemma chain_alloc h p L a :
  chain h p L -> a ∈ L.*1 -> exists nd, h !! a = Some (BNode nd).
Proof.
  revert p. induction L as [|[b d] L IH]; simpl; intros p Hc Ha.
  - by apply elem_of_nil in Ha.
  - destruct Hc as (-> & nx & Hb & Hc).
    apply elem_of_cons in Ha as [->|Ha]; eauto.
Qed.

Lemma chain_fun h p L L' : chain h p L -> chain h p L' -> L = L'.
Proof.
  revert p L'. induction L as [|[a d] L IH]; intros p [|[a' d'] L']; simpl.
  - done.
  - intros -> [? _]. done.
  - intros [-> _] ?. done.
  - intros (-> & nx & Ha & Hc) (? & nx' & Ha' & Hc'). simplify_eq.
    f_equal. eauto.
Qed.

Lemma chain_nil_iff h p L : chain h p L -> (p = NULL <-> L = []).
Proof.
  destruct L as [|[a d] L]; simpl.
  - intros ->. done.
  - intros [-> _]. split; done.
Qed.

(** Appending a node behind the last one. *)
Lemma chain_snoc h p L tl ndl a d :
  chain h p L ->
  NoDup L.*1 ->
  last L.*1 = Some tl ->
  h !! tl = Some (BNode ndl) ->
  a ∉ L.*1 ->
  h !! a = Some (BNode (mkNode d NULL)) ->
  chain (<[tl := BNode (mkNode (nd_packet ndl) (Some a))]> h) p (L ++ [(a, d)]).
Proof.
  revert p. induction L as [|[b e] L IH]; simpl; [done|].
  intros p (-> & nx & Hb & Hc) Hnd Hlast Htl Ha Had.
  apply NoDup_cons in Hnd as [Hb' Hnd].
  apply not_elem_of_cons in Ha as [Hab Ha].
  split; [done|].
  destruct L as [|[c f] L].
  - simpl in *. simplify_eq. exists (Some a). split.
    + by rewrite lookup_insert_eq.
    + split; [done|]. exists NULL. split; [|done].
      rewrite lookup_insert_ne; [done|]. congruence.
  - exists nx. split.
    + rewrite lookup_insert_ne; [done|].
      intros ->. apply Hb'. simpl in Hlast.
      change (last (b :: c :: L.*1)) with (last (c :: L.*1)) in Hlast.
      apply last_Some in Hlast as [l' Hl']. simpl. rewrite Hl'.
      apply elem_of_app. right. apply list_elem_of_here.
    + apply IH; done.
Qed.

(** [walk] reads off a chain once it has fuel for every node. *)
Lemma walk_chain h p L n :
  chain h p L -> length L <= n -> walk n h p = L.*2.
Proof.
  revert p n. induction L as [|[a d] L IH]; intros p n.
  - simpl. intros -> _. destruct n; done.
  - simpl. intros (-> & nx & Ha & Hc) Hn. destruct n as [|n]; [lia|].
    simpl. rewrite Ha. simpl. f_equal. apply IH; [done|lia].
Qed.

Lemma chain_length_heap h p L :
  chain h p L -> NoDup L.*1 -> length L <= size h.
Proof.
  intros Hc Hnd.
  assert (list_to_set (C := gset loc) L.*1 ⊆ dom h) as Hsub.
  { intros a Ha. apply elem_of_list_to_set in Ha.
    destruct (chain_alloc _ _ _ _ Hc Ha) as [nd Hnd'].
    apply elem_of_dom. eauto. }
  apply subseteq_size in Hsub.
  rewrite size_list_to_set in Hsub by done.
  rewrite size_dom in Hsub. by rewrite length_fmap in Hsub.
Qed.

(** ** The invariant holds initially *)

Lemma fresh_lookup (pool : list tstate) t st :
  forallb fresh_thread pool = true -> pool !! t = Some st -> fresh_thread st = true.
Proof.
  intros H Ht. rewrite forallb_forall in H. apply H.
  apply list_elem_of_In. by eapply list_elem_of_lookup_2.
Qed.

Lemma inv_boot fopen_ok size pool :
  (0 <= size <= INT_MAX)%Z ->
  forallb fresh_thread pool = true ->
  inv (Z.to_nat size) [] (boot fopen_ok size pool).
Proof.
  intros Hsz Hpool. unfold INT_MAX in Hsz.
  assert (Hthreads : threads (boot fopen_ok size pool) = pool)
    by (by destruct fopen_ok).
  assert (Hq : dataQueue (boot fopen_ok size pool)
               = mkQueue NULL NULL 0 0 (Z.to_nat size) None).
  { destruct fopen_ok; simpl; unfold set_empty; simpl;
      by rewrite Z.mod_small by lia. }
  assert (Hh : heap (boot fopen_ok size pool) = ∅) by (by destruct fopen_ok).
  split; rewrite ?Hthreads, ?Hq, ?Hh; simpl.
  - unfold INT_MAX. lia.
  - done.
  - rewrite total_fresh; [lia| |done]. by intros [[]| | |? []].
  - rewrite total_fresh; [lia| |done]. by intros [[]| | |? []].
  - rewrite !total_fresh; [lia| |done| |done]; by intros [[]| | |? []].
  - intros t st Ht. apply (fresh_lookup _ _ _ Hpool) in Ht.
    destruct st as [[]| | |? []]; simpl in *; try done.
  - done.
  - done.
  - rewrite owned_fresh by done. constructor.
  - intros t st Ht. apply (fresh_lookup _ _ _ Hpool) in Ht.
    destruct st as [[]| | |? []]; simpl in *; try done.
  - intros t st Ht. apply (fresh_lookup _ _ _ Hpool) in Ht.
    destruct st as [[]| | |? []]; simpl in *; try done.
  - intros t st Ht. apply (fresh_lookup _ _ _ Hpool) in Ht.
    destruct st as [[]| | |? []]; simpl in *; try done.
Qed.

(** ** Every step preserves the invariant *)

Lemma total_le (w1 w2 : tstate -> nat) (l : list tstate) :
  (forall st, w1 st <= w2 st) -> total w1 l <= total w2 l.
Proof.
  intros H. induction l as [|x l IH]; simpl; [lia|]. specialize (H x). lia.
Qed.

Lemma total_ge (w : tstate -> nat) (l : list tstate) t st :
  l !! t = Some st -> w st <= total w l.
Proof.
  revert t. induction l as [|x l IH]; intros [|t] H; simplify_eq/=; [lia|].
  specialize (IH t H). lia.
Qed.

Lemma wrap_int_small z : (INT_MIN <= z <= INT_MAX)%Z -> wrap_int z = z.
Proof.
  unfold INT_MIN, INT_MAX, wrap_int. intros H.
  rewrite Z.mod_small by lia. lia.
Qed.

(** At every state of the invariant [count] is between 0 and the
    capacity. *)
Lemma count_low_item (l : list tstate) : total count_low l <= total item_held l.
Proof. apply total_le. intros [?|???[]|??[]|??]; simpl; lia. Qed.

Lemma count_high_slot (l : list tstate) : total count_high l <= total slot_held l.
Proof. apply total_le. intros [?|???[]|??[]|??]; simpl; lia. Qed.

Lemma inv_count_range C L s :
  inv C L s -> (0 <= q_count (dataQueue s) <= Z.of_nat C)%Z.
Proof.
  intros [].
  pose proof (count_low_item (threads s)).
  pose proof (count_high_slot (threads s)).
  lia.
Qed.

(** Case analysis on the statement that thread [t] executes. *)
Ltac unfold_prims :=
  unfold malloc, free, update_node, store_node, load_node, load_buf, sem_wait,
    sem_post, pthread_mutex_lock, pthread_mutex_unlock, log_message,
    return_to in *.

Ltac destruct_exists :=
  repeat match goal with
         | H : exists _, _ |- _ => destruct H
         | H : _ /\ _ |- _ => destruct H
         end.

Ltac step_cases Hinv Ht H :=
  let Hpriv := fresh "Hpriv" in
  let Hcrit := fresh "Hcrit" in
  let Hnoerr := fresh "Hnoerr" in
  pose proof (inv_priv _ _ _ Hinv _ _ Ht) as Hpriv;
  pose proof (inv_crit _ _ _ Hinv _ _ Ht) as Hcrit;
  pose proof (inv_noerr _ _ _ Hinv _ _ Ht) as Hnoerr;
  unfold step in H; rewrite Ht in H;
  match type of Ht with
  | _ = Some ?st =>
      destruct st as [?ret | ?k ?d ?n [] | ?d ?tmp [] | ?pk []]
  end;
  simpl in H, Hpriv, Hcrit, Hnoerr; try discriminate Hnoerr; clear Hnoerr;
  unfold_prims; destruct_exists;
  simplify_eq/=;
  repeat (case_match; simplify_eq/=; try done);
  repeat match goal with
         | E : negb _ = false |- _ => apply negb_false_iff in E
         | E : (_ =? _) = true |- _ => apply Nat.eqb_eq in E; subst
         end.

Lemma step_sums C L s t e st s' :
  inv C L s ->
  threads s !! t = Some st ->
  step t e s = Step s' ->
  C = q_empty (dataQueue s') + length (abs_step st L) + total slot_held (threads s') /\
  length (abs_step st L) = q_full (dataQueue s') + total item_held (threads s') /\
  (q_count (dataQueue s') + Z.of_nat (total count_low (threads s'))
   = Z.of_nat (length (abs_step st L)) + Z.of_nat (total count_high (threads s')))%Z.
Proof.
  intros Hinv Ht Hstep.
  pose proof (count_low_item (threads s)) as Hlow.
  pose proof (count_high_slot (threads s)) as Hhigh.
  pose proof (inv_bound _ _ _ Hinv) as Hbound.
  pose proof (inv_slots _ _ _ Hinv) as Hslots.
  pose proof (inv_items _ _ _ Hinv) as Hitems.
  pose proof (inv_count _ _ _ Hinv) as Hcount.
  pose proof (total_ge slot_held _ _ _ Ht) as Gs.
  pose proof (total_ge item_held _ _ _ Ht) as Gi.
  pose proof (total_ge count_low _ _ _ Ht) as Gl.
  pose proof (total_ge count_high _ _ _ Ht) as Gh.
  pose proof (fun st' => total_insert slot_held _ _ _ st' Ht) as Ts.
  pose proof (fun st' => total_insert item_held _ _ _ st' Ht) as Ti.
  pose proof (fun st' => total_insert count_low _ _ _ st' Ht) as Tl.
  pose proof (fun st' => total_insert count_high _ _ _ st' Ht) as Th.
  step_cases Hinv Ht Hstep; simpl;
    match goal with
    | |- context [total _ (<[_ := ?st']> _)] =>
        specialize (Ts st'); specialize (Ti st'); specialize (Tl st');
        specialize (Th st')
    end; simpl in *; rewrite ?length_app in *; simpl in *.
  all: try (rewrite wrap_int_small by (unfold INT_MIN, INT_MAX in *; lia)).
  all: lia.
Qed.

Lemma lookup_set_thread (l : list tstate) t st st' u su :
  l !! t = Some st ->
  <[t := st']> l !! u = Some su ->
  (u = t /\ su = st') \/ (u <> t /\ l !! u = Some su).
Proof.
  intros Ht Hu. destruct (decide (u = t)) as [->|Hne].
  - rewrite list_lookup_insert_eq in Hu by (by eapply lookup_lt_Some).
    left. by simplify_eq.
  - rewrite list_lookup_insert_ne in Hu by done. by right.
Qed.

Lemma step_lock C L s t e st s' :
  inv C L s ->
  threads s !! t = Some st ->
  step t e s = Step s' ->
  forall u su, threads s' !! u = Some su ->
    (crit su = true <-> q_lock (dataQueue s') = Some u).
Proof.
  intros Hinv Ht Hstep u su Hu.
  pose proof (inv_lock _ _ _ Hinv _ _ Ht) as Hlt.
  step_cases Hinv Ht Hstep; simpl in *;
    destruct (lookup_set_thread _ _ _ _ _ _ Ht Hu) as [[-> ->]|[Hne Hu']];
    try pose proof (inv_lock _ _ _ Hinv _ _ Hu') as Hlu;
    simpl in *; try (destruct (crit su)); intuition congruence.
Qed.

Lemma step_owner C L s t e st s' :
  inv C L s ->
  threads s !! t = Some st ->
  step t e s = Step s' ->
  forall o, q_lock (dataQueue s') = Some o -> o < length (threads s').
Proof.
  intros Hinv Ht Hstep o.
  pose proof (inv_owner _ _ _ Hinv o) as Ho.
  pose proof (lookup_lt_Some _ _ _ Ht) as Hlt.
  step_cases Hinv Ht Hstep; simpl in *; rewrite length_insert; try done.
  all: intros [= <-]; done.
Qed.

Lemma step_tail C L s t e st s' :
  inv C L s ->
  threads s !! t = Some st ->
  step t e s = Step s' ->
  q_lock (dataQueue s') = None ->
  q_tail (dataQueue s') = last (abs_step st L).*1.
Proof.
  intros Hinv Ht Hstep.
  pose proof (inv_lock _ _ _ Hinv _ _ Ht) as Hlt.
  pose proof (inv_tail _ _ _ Hinv) as Htl.
  step_cases Hinv Ht Hstep; simpl in *; intuition congruence.
Qed.

Lemma inv_head_nonnull C L s t st :
  inv C L s -> threads s !! t = Some st -> item_held st = 1 ->
  q_head (dataQueue s) <> NULL.
Proof.
  intros Hinv Ht Hst Hhd.
  pose proof (inv_items _ _ _ Hinv) as Hi.
  pose proof (total_ge item_held _ _ _ Ht) as Hge.
  apply (chain_nil_iff _ _ _ (inv_chain _ _ _ Hinv)) in Hhd.
  subst L. simpl in Hi. lia.
Qed.

Lemma step_noerr C L s t e st s' :
  inv C L s ->
  threads s !! t = Some st ->
  step t e s = Step s' ->
  forall u su, threads s' !! u = Some su -> in_error_branch su = false.
Proof.
  intros Hinv Ht Hstep u su Hu.
  step_cases Hinv Ht Hstep; simpl in *;
    destruct (lookup_set_thread _ _ _ _ _ _ Ht Hu) as [[-> ->]|[Hne Hu']];
    try (by eapply (inv_noerr _ _ _ Hinv)); done.
Qed.

Lemma elem_of_ptr_list (p : option nat) a : a ∈ ptr_list p <-> p = Some a.
Proof.
  destruct p as [b|]; simpl.
  - rewrite list_elem_of_singleton. split; congruence.
  - split; [by intros ?%elem_of_nil|done].
Qed.

Lemma priv_alloc h st a : priv_ok h st -> a ∈ owned st -> is_Some (h !! a).
Proof.
  destruct st as [?|? ? n []|? tmp []|pk []]; simpl;
    intros Hp Ha; try (by apply elem_of_nil in Ha);
    apply elem_of_ptr_list in Ha; destruct_exists; simplify_eq; eauto.
  - destruct (Hp a eq_refl) as [nd ->]. eauto.
  - destruct (Hp a Ha) as (b & -> & _). eauto.
Qed.

Lemma priv_ok_frame h h' st :
  priv_ok h st -> (forall a, a ∈ owned st -> h' !! a = h !! a) -> priv_ok h' st.
Proof.
  destruct st as [?|? ? n []|? tmp []|pk []]; simpl; intros Hp Hf; try done;
    destruct_exists; simplify_eq;
    try (intros a Hn; rewrite Hf by (by apply elem_of_ptr_list); by apply Hp);
    repeat eexists; try (rewrite Hf by (by apply elem_of_ptr_list)); eauto.
Qed.

Lemma crit_ok_noncrit hd tl L st : crit st = false -> crit_ok hd tl L st.
Proof. destruct st as [?|? ? ? []|? ? []|? []]; simpl; done. Qed.

Lemma inv_alloc C L s a :
  inv C L s -> a ∈ L.*1 ++ flat_map owned (threads s) -> is_Some (heap s !! a).
Proof.
  intros Hinv [Ha|Ha]%elem_of_app.
  - destruct (chain_alloc _ _ _ _ (inv_chain _ _ _ Hinv) Ha) as [nd ->]. eauto.
  - apply list_elem_of_In, in_flat_map in Ha as (st & Hst & Ha).
    apply list_elem_of_In, list_elem_of_lookup in Hst as [t Ht].
    eapply priv_alloc; [by eapply inv_priv|]. by apply list_elem_of_In.
Qed.

(** The blocks of the list, of the stepping thread and of the other
    threads, seen from the stepping thread. *)
Lemma inv_split C L s t st :
  inv C L s ->
  threads s !! t = Some st ->
  exists R,
    NoDup (L.*1 ++ owned st ++ R) /\
    (forall a, a ∈ L.*1 ++ owned st ++ R -> is_Some (heap s !! a)) /\
    (forall st', flat_map owned (<[t := st']> (threads s)) ≡ₚ owned st' ++ R) /\
    (forall u su, u <> t -> threads s !! u = Some su ->
       forall a, a ∈ owned su -> a ∈ R).
Proof.
  intros Hinv Ht. destruct (owned_insert _ _ _ Ht) as (R & H1 & H2 & H3).
  exists R. split_and!; [|intros a Ha|done..].
  - rewrite <- H1. by eapply inv_own.
  - eapply inv_alloc; [done|]. by rewrite H1.
Qed.

Lemma NoDup_mid (A R : list nat) a :
  NoDup (A ++ a :: R) <-> (a ∉ A ++ R) /\ NoDup (A ++ R).
Proof. rewrite <- Permutation_middle. apply NoDup_cons. Qed.

Ltac use_pk_data :=
  repeat match goal with
         | H : pk_data ?k = _ |- _ => rewrite H in *
         end.

Lemma step_own C L s t e st s' :
  inv C L s ->
  threads s !! t = Some st ->
  step t e s = Step s' ->
  NoDup ((abs_step st L).*1 ++ flat_map owned (threads s')).
Proof.
  intros Hinv Ht Hstep.
  destruct (inv_split _ _ _ _ _ Hinv Ht) as (R & Hnd & Hal & Hperm & _).
  pose proof (inv_chain _ _ _ Hinv) as Hch.
  step_cases Hinv Ht Hstep; simpl in *; rewrite Hperm; simpl in *;
    use_pk_data; simpl in *; rewrite ?app_nil_r; try done.
  all: rewrite ?fmap_app, <- ?(assoc_L (++)) in *; simpl in *.
  all: rewrite ?NoDup_mid, ?NoDup_cons in *.
  all: destruct_exists; simplify_eq/=.
  all: try tauto.
  all: split; [intros Hin; apply Hal in Hin; destruct Hin; congruence|tauto].
Qed.

Lemma last_elem_of (l : list nat) a : last l = Some a -> a ∈ l.
Proof.
  intros [l' ->]%last_Some. apply elem_of_app. right. apply list_elem_of_here.
Qed.

Lemma strncpy_length dest src n b :
  strncpy dest src n = Some b -> length b = length dest.
Proof.
  unfold strncpy. destruct (n <=? length dest) eqn:Hn; [|done].
  apply Nat.leb_le in Hn. intros [= <-].
  rewrite length_app, length_take, length_drop, length_app, length_replicate.
  lia.
Qed.

Lemma get_external_data_length r buf n b v :
  get_external_data r buf n = Some (b, v) -> length b = length buf.
Proof.
  unfold get_external_data. repeat case_match; intros; simplify_eq; [done|].
  by eapply strncpy_length.
Qed.

(** A block of another thread is not the block [a] the stepping thread
    writes to or frees. *)
Ltac other_block Hnd Hal :=
  let E := fresh in
  intros E; subst;
  first
    [ match goal with
      | H : _ !! ?b = None, Hb : ?b ∈ _ |- _ =>
          assert (is_Some (heap _ !! b)) as [? ?]
            by (apply Hal; rewrite !elem_of_app; auto);
          congruence
      end
    | rewrite ?NoDup_app, ?NoDup_cons in Hnd; set_solver ].

Lemma step_priv C L s t e st s' :
  inv C L s ->
  threads s !! t = Some st ->
  step t e s = Step s' ->
  forall u su, threads s' !! u = Some su -> priv_ok (heap s') su.
Proof.
  intros Hinv Ht Hstep u su Hu.
  destruct (inv_split _ _ _ _ _ Hinv Ht) as (R & Hnd & Hal & _ & Hsub).
  pose proof (inv_chain _ _ _ Hinv) as Hch.
  step_cases Hinv Ht Hstep; simpl in *;
    (destruct (lookup_set_thread _ _ _ _ _ _ Ht Hu) as [[-> ->]|[Hne Hu']];
     [ simpl; use_pk_data; rewrite ?lookup_insert_eq; simplify_eq/=; eauto
     | apply (priv_ok_frame (heap s)); [by eapply inv_priv|];
       intros b Hb; specialize (Hsub u su Hne Hu' b Hb); try done ]).
  all: try (intros a [= <-]; rewrite ?lookup_insert_eq; by eauto).
  all: try (by (repeat eexists; rewrite ?lookup_insert_eq; eauto)).
  all: try (edestruct Hpriv as (? & ?); [done|]; destruct_exists; by eauto).
  all: try (repeat eexists; rewrite ?lookup_insert_eq; eauto;
            erewrite get_external_data_length by done; done).
  all: try match goal with
           | H : last _ = Some _ |- _ => apply last_elem_of in H
           | H : Some _ = last _ |- _ => symmetry in H; apply last_elem_of in H
           end.
  all: try (rewrite lookup_insert_ne by (other_block Hnd Hal); done).
  all: try (rewrite lookup_delete_ne by (other_block Hnd Hal); done).
Qed.

Lemma last_snoc_fst (L : list (nat * DataPacket)) a d :
  last (L ++ [(a, d)]).*1 = Some a.
Proof. rewrite fmap_app. simpl. apply last_snoc. Qed.

Lemma last_cons_nonempty (a : nat) (l : list nat) :
  l <> [] -> last (a :: l) = last l.
Proof. by destruct l. Qed.

Lemma step_crit C L s t e st s' :
  inv C L s ->
  threads s !! t = Some st ->
  step t e s = Step s' ->
  forall u su, threads s' !! u = Some su ->
    crit_ok (q_head (dataQueue s')) (q_tail (dataQueue s')) (abs_step st L) su.
Proof.
  intros Hinv Ht Hstep u su Hu.
  pose proof (inv_lock _ _ _ Hinv _ _ Ht) as Hlt.
  pose proof (inv_tail _ _ _ Hinv) as Htl.
  pose proof (inv_chain _ _ _ Hinv) as Hch.
  pose proof (inv_head_nonnull _ _ _ _ _ Hinv Ht) as Hhd.
  step_cases Hinv Ht Hstep; simpl in *;
    (destruct (lookup_set_thread _ _ _ _ _ _ Ht Hu) as [[-> ->]|[Hne Hu']];
     [ simpl
     | destruct (crit su) eqn:Hc; [|by apply crit_ok_noncrit];
       pose proof (inv_lock _ _ _ Hinv _ _ Hu') as Hlu;
       first [ exact (inv_crit _ _ _ Hinv _ _ Hu')
             | exfalso; intuition congruence ] ]).
  all: try done.
  all: try (intuition congruence).
  all: try (by rewrite last_snoc_fst).
  - (* line 130 *)
    eexists _, L. split_and!; [done..| |done].
    intros ->. simpl in *. congruence.
  - (* line 164 *)
    split_and!; [done..|].
    destruct L as [|[a d'] L']; simpl in Hch; [congruence|].
    destruct Hch as (? & nx & Ha & _). simplify_eq. eauto.
  - (* line 165 *)
    destruct Hch as (? & _). simplify_eq. eauto.
  - (* line 167, the list is not empty *)
    destruct L as [|[a d'] L']; simpl in Hch; [congruence|].
    destruct_exists. simplify_eq. done.
  - (* line 167, the list is empty *)
    destruct L as [|[a d'] L']; simpl in Hch; [done|]. by destruct Hch.
Qed.

Lemma step_chain C L s t e st s' :
  inv C L s ->
  threads s !! t = Some st ->
  step t e s = Step s' ->
  chain (heap s') (q_head (dataQueue s')) (abs_step st L).
Proof.
  intros Hinv Ht Hstep.
  destruct (inv_split _ _ _ _ _ Hinv Ht) as (R & Hnd & Hal & _ & _).
  pose proof (inv_chain _ _ _ Hinv) as Hch.
  step_cases Hinv Ht Hstep; simpl in *; rewrite ?app_nil_r; try done.
  all: try (apply (chain_frame (heap s)); [done|]; intros b Hb;
            first [ rewrite lookup_insert_ne by (other_block Hnd Hal)
                  | rewrite lookup_delete_ne by (other_block Hnd Hal) ];
            done).
  all: repeat match goal with
              | H : q_head _ = _ |- _ => rewrite H in *; clear H
              | H : q_tail _ = _ |- _ => rewrite H in *; clear H
              end; try done.
  - (* line 128: the list was empty *)
    match goal with
    | H : None = last _ |- _ =>
        symmetry in H; apply last_None, fmap_nil_inv in H; subst L
    end.
    simpl. eauto.
  - (* line 130: the list was not empty *)
    match goal with
    | H : Some _ = last _ |- _ => symmetry in H
    end.
    rewrite NoDup_app, NoDup_cons in Hnd.
    eapply chain_snoc; try done; [tauto|].
    intros Hx. destruct Hnd as (_ & Hnd & _). apply (Hnd _ Hx).
    apply list_elem_of_here.
  - (* line 165 *)
    destruct Hch as (? & nx & Ha & Hc). by simplify_eq.
Qed.

(** One statement of any thread preserves the invariant; the list
    changes as [abs_step] says. *)
Lemma step_inv C L s t e st s' :
  inv C L s ->
  threads s !! t = Some st ->
  step t e s = Step s' ->
  inv C (abs_step st L) s'.
Proof.
  intros Hinv Ht Hstep.
  destruct (step_sums _ _ _ _ _ _ _ Hinv Ht Hstep) as (H1 & H2 & H3).
  split.
  - by eapply inv_bound.
  - by eapply step_chain.
  - done.
  - done.
  - done.
  - by eapply step_lock.
  - by eapply step_owner.
  - by eapply step_tail.
  - by eapply step_own.
  - by eapply step_priv.
  - by eapply step_crit.
  - by eapply step_noerr.
Qed.

Lemma step_thread t e s s' :
  step t e s = Step s' -> exists st, threads s !! t = Some st.
Proof.
  unfold step. destruct (threads s !! t) as [st|]; [eauto|done].
Qed.

Lemma step_inv_ex C L s t e s' :
  inv C L s -> step t e s = Step s' -> exists L', inv C L' s'.
Proof.
  intros Hinv Hstep. destruct (step_thread _ _ _ _ Hstep) as [st Ht].
  eexists. by eapply step_inv.
Qed.

Lemma run_inv C sched : forall L s s',
  inv C L s -> run sched s = Some s' -> exists L', inv C L' s'.
Proof.
  induction sched as [|[t e] sched IH]; simpl; intros L s s' Hinv Hrun.
  - simplify_eq. eauto.
  - destruct (step t e s) as [s1| | |] eqn:Hstep; try done.
    destruct (step_inv_ex _ _ _ _ _ _ Hinv Hstep) as [L1 Hinv1]. eauto.
Qed.

(** Every reachable state satisfies the invariant, the capacity being
    the [size] given to [initializeQueue]. *)
Lemma reachable_inv size pool s :
  (0 <= size <= INT_MAX)%Z ->
  reachable size pool s ->
  exists L, inv (Z.to_nat size) L s.
Proof.
  intros Hsz (Hpool & ok & sched & Hrun).
  eapply run_inv; [|done]. by apply inv_boot.
Qed.

(** The list of the invariant is what [items] computes. *)
Lemma inv_items_eq C L s : inv C L s -> items s = L.*2.
Proof.
  intros Hinv. unfold items. apply walk_chain; [by eapply inv_chain|].
  eapply chain_length_heap; [by eapply inv_chain|].
  pose proof (inv_own _ _ _ Hinv) as Hnd. apply NoDup_app in Hnd. tauto.
Qed.

Lemma inv_unique C C' L L' s : inv C L s -> inv C' L' s -> L = L'.
Proof.
  intros H1 H2. eapply chain_fun; by eapply inv_chain.
Qed.

(** ** No statement runs into undefined behaviour *)

Lemma get_external_data_some r buf n :
  (0 <= r)%Z -> (0 < n)%Z -> (n <= Z.of_nat (length buf))%Z ->
  exists b, get_external_data r buf n = Some (b, Z.rem r n).
Proof.
  intros Hr Hn Hlen. unfold get_external_data.
  pose proof (Z.rem_bound_pos r n Hr Hn) as Hrem.
  destruct (n =? 0)%Z eqn:E0; [apply Z.eqb_eq in E0; lia|].
  destruct (n <? Z.rem r n)%Z eqn:E1; [apply Z.ltb_lt in E1; lia|].
  unfold strncpy.
  destruct (Z.to_nat (Z.rem r n) <=? length buf) eqn:E2; [eauto|].
  apply Nat.leb_gt in E2. lia.
Qed.

Lemma step_defined C L s t e :
  inv C L s -> step t e s <> Undefined.
Proof.
  intros Hinv Hstep.
  destruct (threads s !! t) as [st|] eqn:Ht;
    [|by unfold step in Hstep; rewrite Ht in Hstep].
  pose proof (inv_lock _ _ _ Hinv _ _ Ht) as Hlt.
  pose proof (inv_chain _ _ _ Hinv) as Hch.
  step_cases Hinv Ht Hstep; simpl in *.
  all: try match goal with
           | H : Some _ = last _ |- _ =>
               symmetry in H; apply last_elem_of in H;
               destruct (chain_alloc _ _ _ _ Hch H); congruence
           end.
  all: try match goal with
           | H : (_ =? _) = false |- _ =>
               apply Nat.eqb_neq in H; intuition congruence
           end.
  all: try (intuition congruence).
  all: try (destruct L as [|[? ?] ?]; simpl in *; destruct_exists;
            simplify_eq; congruence).
  all: try (destruct_exists; simplify_eq; congruence).
  (* line 254 *)
  match goal with
  | H : _ || _ = false |- _ => apply orb_false_elim in H as [Hr%Z.ltb_ge _]
  end.
  match goal with
  | Hb : heap s !! _ = Some (BBuf ?l) |- _ =>
      destruct (get_external_data_some (e_rand e) l 1024) as [b Hb'];
        [done|lia|lia|congruence]
  end.
Qed.

(** ** A thread running alone *)

Lemma total_alone (w : tstate -> nat) (l : list tstate) t st :
  l !! t = Some st ->
  (forall u su, u <> t -> l !! u = Some su -> w su = 0) ->
  total w l = w st.
Proof.
  revert t. induction l as [|x l IH]; intros [|t] Ht Hz; simplify_eq/=.
  - assert (total w l = 0) as ->; [|lia].
    clear IH. induction l as [|y l IH]; simpl; [done|].
    rewrite (Hz 1 y) by done. simpl. apply IH.
    intros [|u] su Hu Hsu; [done|]. apply (Hz (S (S u)) su); done.
  - rewrite (Hz 0 x) by done. simpl. apply (IH t); [done|].
    intros u su Hu Hsu. apply (Hz (S u) su); [congruence|done].
Qed.

Lemma idle_quiet st :
  idle st = true ->
  slot_held st = 0 /\ item_held st = 0 /\ count_low st = 0 /\
  count_high st = 0 /\ crit st = false.
Proof. destruct st as [?|? ? ? []|? ? []|? []]; simpl; done. Qed.

Lemma alone_facts C L s t st :
  inv C L s -> others_idle t s -> threads s !! t = Some st ->
  C = q_empty (dataQueue s) + length L + slot_held st /\
  length L = q_full (dataQueue s) + item_held st /\
  (crit st = false -> q_lock (dataQueue s) = None).
Proof.
  intros Hinv Hidle Ht.
  pose proof (inv_slots _ _ _ Hinv) as Hs.
  pose proof (inv_items _ _ _ Hinv) as Hi.
  rewrite (total_alone slot_held _ _ _ Ht) in Hs
    by (intros u su Hu Hsu; by apply idle_quiet, (Hidle u)).
  rewrite (total_alone item_held _ _ _ Ht) in Hi
    by (intros u su Hu Hsu; by apply idle_quiet, (Hidle u)).
  split_and!; [done..|]. intros Hc.
  destruct (q_lock (dataQueue s)) as [o|] eqn:Ho; [|done]. exfalso.
  pose proof (inv_owner _ _ _ Hinv o Ho) as Hlen.
  apply lookup_lt_is_Some in Hlen as [so Hso].
  pose proof (inv_lock _ _ _ Hinv _ _ Hso) as [_ Hcrit].
  specialize (Hcrit Ho).
  destruct (decide (o = t)) as [->|Hne]; [congruence|].
  apply (Hidle o so Hne) in Hso. apply idle_quiet in Hso. intuition congruence.
Qed.

Lemma others_idle_set t st s q h lg :
  others_idle t s ->
  others_idle t (mkState q h (<[t := st]> (threads s)) lg).
Proof.
  intros H u su Hu Hsu. simpl in Hsu.
  rewrite list_lookup_insert_ne in Hsu by done. by eapply H.
Qed.

(** A call that is not going to wait makes a step, and the step changes
    neither where the list is heading nor what the call will return. *)
Lemma step_alone_runs C L s t e st :
  inv C L s -> others_idle t s -> threads s !! t = Some st ->
  busy st = true -> env_fresh e st s -> blocks C e st L = false ->
  exists s1 st1,
    step t e s = Step s1 /\
    threads s1 = <[t := st1]> (threads s) /\
    (busy st1 = true \/ st1 = Client (result st L)) /\
    remaining st1 < remaining st /\
    blocks C e st1 (abs_step st L) = false /\
    outlook e st1 (abs_step st L) = outlook e st L /\
    result st1 (abs_step st L) = result st L /\
    env_fresh e st1 s1.
Proof.
  intros Hinv Hidle Ht Hbusy Hfresh Hblocks.
  destruct (alone_facts _ _ _ _ _ Hinv Hidle Ht) as (Hs & Hi & Hl).
  pose proof (inv_chain _ _ _ Hinv) as Hch.
  destruct (step t e s) as [s1| | |] eqn:Hstep.
  - step_cases Hinv Ht Hstep; simpl in *; try done;
      eexists _, _; (split; [reflexivity|]); simpl;
      (split; [reflexivity|]); simpl.
    all: rewrite ?app_nil_r, ?andb_false_r; simpl.
    all: try (split_and!; try done; try lia; auto; fail).
    (* line 164 *)
    destruct L as [|[a d'] L']; simpl in Hch; destruct_exists; simplify_eq.
    split_and!; auto.
  - exfalso. step_cases Hinv Ht Hstep; simpl in *; try done.
    all: try (apply Nat.leb_gt in Hblocks; lia).
    all: try (apply Nat.eqb_neq in Hblocks; lia).
    all: try (specialize (Hl eq_refl); congruence).
  - by apply (step_defined _ _ _ _ _ Hinv) in Hstep.
  - exfalso. step_cases Hinv Ht Hstep; simpl in *; try done.
    all: try (rewrite Hfresh in * by done; done).
Qed.

(** A call that is going to wait walks up to its [sem_wait] without
    touching the queue, and waits there. *)
Lemma step_alone_blocks C L s t e st :
  inv C L s -> others_idle t s -> threads s !! t = Some st ->
  env_fresh e st s -> blocks C e st L = true ->
  (at_sem_wait st = true /\ forall e', step t e' s = Blocked) \/
  (at_sem_wait st = false /\
   exists s1 st1,
     step t e s = Step s1 /\
     threads s1 = <[t := st1]> (threads s) /\
     remaining st1 < remaining st /\
     blocks C e st1 L = true /\
     abs_step st L = L /\
     env_fresh e st1 s1 /\
     dataQueue s1 = dataQueue s).
Proof.
  intros Hinv Hidle Ht Hfresh Hblocks.
  destruct (alone_facts _ _ _ _ _ Hinv Hidle Ht) as (Hs & Hi & Hl).
  destruct (at_sem_wait st) eqn:Hw.
  - left. split; [done|]. intros e'. unfold step. rewrite Ht.
    destruct st as [?|? ? ? []|? ? []|? []]; simpl in *; try done.
    + apply Nat.leb_le in Hblocks.
      destruct (q_empty (dataQueue s)) eqn:E; [done|lia].
    + apply Nat.eqb_eq in Hblocks.
      destruct (q_full (dataQueue s)) eqn:E; [done|lia].
  - right. split; [done|].
    destruct (step t e s) as [s1| | |] eqn:Hstep.
    + step_cases Hinv Ht Hstep; simpl in *; try done;
        eexists _, _; (split; [reflexivity|]); simpl;
        (split; [reflexivity|]); simpl; split_and!; try done; try lia.
      by apply Nat.eqb_eq.
    + exfalso. step_cases Hinv Ht Hstep; simpl in *; done.
    + by apply (step_defined _ _ _ _ _ Hinv) in Hstep.
    + exfalso. step_cases Hinv Ht Hstep; simpl in *; try done.
      all: try (rewrite Hfresh in * by done; done).
Qed.

Lemma finish_busy fuel t e s st :
  threads s !! t = Some st -> remaining st <> 0 ->
  finish (S fuel) t e s =
  match step t e s with
  | Step s' => finish fuel t e s'
  | o => o
  end.
Proof.
  intros Ht Hst. simpl. rewrite Ht. by destruct st.
Qed.

Lemma finish_client fuel t e s r :
  threads s !! t = Some (Client r) -> finish fuel t e s = Step s.
Proof. intros Ht. destruct fuel; simpl; by rewrite Ht. Qed.

Lemma busy_remaining st : busy st = true -> remaining st <> 0.
Proof. destruct st as [?|[] ? ? []|? ? []|? []]; simpl; done. Qed.

Lemma blocks_remaining C e st L : blocks C e st L = true -> remaining st <> 0.
Proof. destruct st as [?|? ? ? []|? ? []|? []]; simpl; done. Qed.

(** A call that is not going to wait returns; the state it returns in
    satisfies the invariant for the list [outlook] announced, and the
    caller holds [result]. *)
Lemma finish_runs C t e fuel : forall st L s,
  remaining st <= fuel ->
  inv C L s -> others_idle t s -> threads s !! t = Some st ->
  (busy st = true \/ st = Client (result st L)) ->
  env_fresh e st s -> blocks C e st L = false ->
  exists s',
    finish fuel t e s = Step s' /\
    inv C (outlook e st L) s' /\
    threads s' = <[t := Client (result st L)]> (threads s).
Proof.
  induction fuel as [|fuel IH]; intros st L s Hfuel Hinv Hidle Ht Hst Hfresh Hb.
  - destruct Hst as [Hst|Hst].
    + apply busy_remaining in Hst. lia.
    + exists s. rewrite Hst in Ht. rewrite (finish_client _ _ _ _ _ Ht).
      split_and!; [done|by rewrite Hst|]. by rewrite list_insert_id.
  - destruct Hst as [Hst|Hst].
    + rewrite (finish_busy _ _ _ _ _ Ht (busy_remaining _ Hst)).
      destruct (step_alone_runs _ _ _ _ _ _ Hinv Hidle Ht Hst Hfresh Hb)
        as (s1 & st1 & Hstep & Hth & Hst1 & Hrem & Hb1 & Hout & Hres & Hfresh1).
      rewrite Hstep.
      pose proof (step_inv _ _ _ _ _ _ _ Hinv Ht Hstep) as Hinv1.
      assert (threads s1 !! t = Some st1) as Ht1.
      { rewrite Hth. apply list_lookup_insert_eq. by eapply lookup_lt_Some. }
      destruct (IH st1 (abs_step st L) s1) as (s' & Hfin & Hinv' & Hth');
        try done.
      * lia.
      * intros u su Hu Hsu. rewrite Hth in Hsu.
        rewrite list_lookup_insert_ne in Hsu by done. by eapply Hidle.
      * destruct Hst1 as [?|Hst1]; [by left|right].
        rewrite Hst1. simpl. done.
      * exists s'. split_and!; [done|by rewrite <- Hout|].
        rewrite Hth', Hth, list_insert_insert_eq. by rewrite Hres.
    + exists s. rewrite Hst in Ht. rewrite (finish_client _ _ _ _ _ Ht).
      split_and!; [done|by rewrite Hst|]. by rewrite list_insert_id.
Qed.

(** A call that is going to wait does not return. *)
Lemma finish_blocks C t e fuel : forall st L s,
  remaining st <= fuel ->
  inv C L s -> others_idle t s -> threads s !! t = Some st ->
  env_fresh e st s -> blocks C e st L = true ->
  finish fuel t e s = Blocked.
Proof.
  induction fuel as [|fuel IH]; intros st L s Hfuel Hinv Hidle Ht Hfresh Hb.
  - apply blocks_remaining in Hb. lia.
  - rewrite (finish_busy _ _ _ _ _ Ht (blocks_remaining _ _ _ _ Hb)).
    destruct (step_alone_blocks _ _ _ _ _ _ Hinv Hidle Ht Hfresh Hb)
      as [[_ Hblocked]|(_ & s1 & st1 & Hstep & Hth & Hrem & Hb1 & Habs & Hfresh1 & _)].
    + by rewrite Hblocked.
    + rewrite Hstep.
      pose proof (step_inv _ _ _ _ _ _ _ Hinv Ht Hstep) as Hinv1.
      rewrite Habs in Hinv1.
      apply (IH st1 L s1); try done.
      * lia.
      * intros u su Hu Hsu. rewrite Hth in Hsu.
        rewrite list_lookup_insert_ne in Hsu by done. by eapply Hidle.
      * rewrite Hth. apply list_lookup_insert_eq. by eapply lookup_lt_Some.
Qed.

(** ** Calls on a quiescent queue *)

Lemma quiescent_others t s : quiescent s -> others_idle t s.
Proof. intros H u su _ Hu. by eapply H. Qed.

Lemma quiescent_set t r s :
  quiescent s -> forall s', threads s' = <[t := Client r]> (threads s) ->
  quiescent s'.
Proof.
  intros H s' Hs' u su Hu. rewrite Hs' in Hu.
  destruct (decide (u = t)) as [->|Hne].
  - apply list_lookup_insert_Some in Hu as [(_ & <- & _)|[? _]]; done.
  - rewrite list_lookup_insert_ne in Hu by done. by eapply H.
Qed.

Lemma total_quiescent (w : tstate -> nat) (l : list tstate) :
  (forall u su, l !! u = Some su -> w su = 0) -> total w l = 0.
Proof.
  induction l as [|x l IH]; simpl; intros H; [done|].
  rewrite (H 0 x) by done. simpl. apply IH.
  intros u su Hu. by apply (H (S u)).
Qed.

(** When no call is in progress the fields of the queue are determined
    by the list and the capacity. *)
Lemma quiescent_facts C L s :
  inv C L s -> quiescent s ->
  q_count (dataQueue s) = Z.of_nat (length L) /\
  q_full (dataQueue s) = length L /\
  q_empty (dataQueue s) + length L = C /\
  q_lock (dataQueue s) = None /\
  q_tail (dataQueue s) = last L.*1.
Proof.
  intros Hinv Hq.
  pose proof (inv_slots _ _ _ Hinv) as Hs.
  pose proof (inv_items _ _ _ Hinv) as Hi.
  pose proof (inv_count _ _ _ Hinv) as Hc.
  rewrite total_quiescent in Hs
    by (intros u su Hu; by apply idle_quiet, (Hq u)).
  rewrite total_quiescent in Hi
    by (intros u su Hu; by apply idle_quiet, (Hq u)).
  rewrite !total_quiescent in Hc
    by (intros u su Hu; by apply idle_quiet, (Hq u)).
  assert (q_lock (dataQueue s) = None) as Hl.
  { destruct (q_lock (dataQueue s)) as [o|] eqn:Ho; [|done]. exfalso.
    pose proof (inv_owner _ _ _ Hinv o Ho) as Hlen.
    apply lookup_lt_is_Some in Hlen as [so Hso].
    pose proof (inv_lock _ _ _ Hinv _ _ Hso) as [_ Hcrit].
    specialize (Hcrit Ho). apply Hq, idle_quiet in Hso.
    intuition congruence. }
  split_and!; [lia..|done|by apply (inv_tail _ _ _ Hinv)].
Qed.

Lemma call_begin C L s t r st0 :
  inv C L s -> threads s !! t = Some (Client r) ->
  (exists p, st0 = InEnqueue FromClient p NULL E114) \/
  st0 = InDequeue zero_packet NULL D151 ->
  inv C L (set_thread t st0 s).
Proof.
  intros Hinv Ht Hst0.
  set (e0 := mkEnv None None (mkNode zero_packet None) [] 0 true).
  destruct Hst0 as [[p ->]| ->].
  - apply (step_inv C L s t (calling (Some p) e0) (Client r)); [done..|].
    unfold step. by rewrite Ht.
  - apply (step_inv C L s t (calling None e0) (Client r)); [done..|].
    unfold step. by rewrite Ht.
Qed.

Lemma set_thread_lookup t st s :
  t < length (threads s) -> threads (set_thread t st s) !! t = Some st.
Proof. intros H. simpl. by apply list_lookup_insert_eq. Qed.

(** [enqueue] on a quiescent queue: it returns having appended the
    packet when it got a node and the list is below capacity; it waits
    when it got a node and the list is at capacity. *)
Lemma call_enqueue_some C L s t e p r a :
  inv C L s -> quiescent s -> threads s !! t = Some (Client r) ->
  e_malloc e = Some a -> heap s !! a = None ->
  if C <=? length L
  then call_enqueue t e p s = Blocked
  else exists s',
      call_enqueue t e p s = Step s' /\
      inv C (L ++ [(a, p)]) s' /\
      threads s' = <[t := Client None]> (threads s).
Proof.
  intros Hinv Hq Ht Hm Ha. unfold call_enqueue. rewrite Ht.
  pose proof (lookup_lt_Some _ _ _ Ht) as Hlt.
  set (st0 := InEnqueue FromClient p NULL E114).
  assert (inv C L (set_thread t st0 s)) as Hinv0
    by (eapply call_begin; eauto).
  assert (others_idle t (set_thread t st0 s)) as Hidle0
    by (apply others_idle_set; by apply quiescent_others).
  destruct (C <=? length L) eqn:HC.
  - apply (finish_blocks C t e 16 st0 L); try done.
    + simpl. lia.
    + by apply set_thread_lookup.
    + simpl. intros a' Ha'. congruence.
    + simpl. rewrite Hm, HC. done.
  - destruct (finish_runs C t e 16 st0 L (set_thread t st0 s))
      as (s' & Hfin & Hinv' & Hth); try done.
    + simpl. lia.
    + by apply set_thread_lookup.
    + by left.
    + simpl. intros a' Ha'. congruence.
    + simpl. rewrite Hm, HC. done.
    + exists s'. split_and!; [done| |].
      * simpl in Hinv'. by rewrite Hm in Hinv'.
      * rewrite Hth. simpl. by rewrite list_insert_insert_eq.
Qed.

(** [dequeue] on a quiescent queue: it returns the packet at the head
    and removes it; it waits when the list is empty. *)
Lemma call_dequeue_spec C L s t e r :
  inv C L s -> quiescent s -> threads s !! t = Some (Client r) ->
  match L with
  | [] => call_dequeue t e s = Blocked
  | (a, d) :: L' =>
      exists s',
        call_dequeue t e s = Step s' /\
        inv C L' s' /\
        threads s' = <[t := Client (Some d)]> (threads s)
  end.
Proof.
  intros Hinv Hq Ht. unfold call_dequeue. rewrite Ht.
  pose proof (lookup_lt_Some _ _ _ Ht) as Hlt.
  set (st0 := InDequeue zero_packet NULL D151).
  assert (inv C L (set_thread t st0 s)) as Hinv0
    by (eapply call_begin; eauto).
  assert (others_idle t (set_thread t st0 s)) as Hidle0
    by (apply others_idle_set; by apply quiescent_others).
  destruct L as [|[a d] L'].
  - apply (finish_blocks C t e 19 st0 []); try done.
    + simpl. lia.
    + by apply set_thread_lookup.
  - destruct (finish_runs C t e 19 st0 ((a, d) :: L') (set_thread t st0 s))
      as (s' & Hfin & Hinv' & Hth); try done.
    + simpl. lia.
    + by apply set_thread_lookup.
    + by left.
    + exists s'. split_and!; [done..|].
      rewrite Hth. simpl. by rewrite list_insert_insert_eq.
Qed.

(** ** Calls followed statement by statement *)

Local Arguments finish : simpl never.

(** Executes the next statement of the call of thread [t]. *)
Ltac call_step Hlt :=
  erewrite finish_busy;
    [ | simpl; apply list_lookup_insert_eq; rewrite ?length_insert; exact Hlt
      | simpl; done ];
  unfold step at 1; simpl threads;
  rewrite list_lookup_insert_eq by (rewrite ?length_insert; exact Hlt);
  simpl.

Ltac call_end Hlt :=
  erewrite finish_client
    by (simpl; apply list_lookup_insert_eq; rewrite ?length_insert; exact Hlt).

(** [enqueue] when [malloc] returns [NULL]: lines 114 to 118. *)
Lemma call_enqueue_null s t e p r :
  threads s !! t = Some (Client r) ->
  e_malloc e = None ->
  exists s',
    call_enqueue t e p s = Step s' /\
    dataQueue s' = dataQueue s /\
    heap s' = heap s /\
    threads s' = <[t := Client None]> (threads s) /\
    logfile s' =
      logfile (log_message (e_fopen e)
                 "Error: Memory allocation failed for new node." s).
Proof.
  intros Ht Hm. pose proof (lookup_lt_Some _ _ _ Ht) as Hlt.
  unfold call_enqueue. rewrite Ht.
  destruct e as [ec em en eb er [|]]; simpl in *; subst em.
  all: call_step Hlt; call_step Hlt; call_step Hlt; call_step Hlt;
    call_end Hlt.
  all: eexists; (split; [reflexivity|]); simpl.
  all: rewrite !list_insert_insert_eq; done.
Qed.

(** [enqueue] when [malloc] returns an allocated address: the
    environment is refused at line 114. *)
Lemma call_enqueue_refused s t e p r a b :
  threads s !! t = Some (Client r) ->
  e_malloc e = Some a -> heap s !! a = Some b ->
  call_enqueue t e p s = Refused.
Proof.
  intros Ht Hm Ha. pose proof (lookup_lt_Some _ _ _ Ht) as Hlt.
  unfold call_enqueue. rewrite Ht.
  call_step Hlt. rewrite Hm. simpl. by rewrite Ha.
Qed.


Lemma call_enqueue_none C L s t e p r :
  inv C L s -> quiescent s -> threads s !! t = Some (Client r) ->
  e_malloc e = None ->
  exists s',
    call_enqueue t e p s = Step s' /\
    inv C L s' /\
    threads s' = <[t := Client None]> (threads s) /\
    dataQueue s' = dataQueue s /\
    heap s' = heap s /\
    logfile s' =
      logfile (log_message (e_fopen e)
                 "Error: Memory allocation failed for new node." s).
Proof.
  intros Hinv Hq Ht Hm.
  destruct (call_enqueue_null s t e p r Ht Hm) as (s' & Hcall & Hdq & Hh & Hth & Hlog).
  exists s'. split_and!; try done.
  pose proof (lookup_lt_Some _ _ _ Ht) as Hlt.
  set (st0 := InEnqueue FromClient p NULL E114).
  destruct (finish_runs C t e 16 st0 L (set_thread t st0 s))
    as (s1 & Hfin & Hinv1 & _).
  - simpl. lia.
  - eapply call_begin; eauto.
  - apply others_idle_set. by apply quiescent_others.
  - by apply set_thread_lookup.
  - by left.
  - simpl. intros a' Ha'. congruence.
  - simpl. by rewrite Hm.
  - unfold call_enqueue in Hcall. rewrite Ht in Hcall.
    fold st0 in Hcall. rewrite Hfin in Hcall. simplify_eq.
    simpl in Hinv1. rewrite Hm in Hinv1. simpl in Hinv1.
    by rewrite app_nil_r in Hinv1.
Qed.

Lemma client_at_set t r s s' u :
  client_at t s = true ->
  threads s' = <[t := Client r]> (threads s) ->
  client_at u s' = client_at u s.
Proof.
  unfold client_at. intros Ht Hs'. rewrite Hs'.
  destruct (decide (u = t)) as [->|Hne].
  - destruct (threads s !! t) as [st|] eqn:E; [|done].
    rewrite list_lookup_insert_eq by (by eapply lookup_lt_Some).
    by destruct st.
  - by rewrite list_lookup_insert_ne.
Qed.

Lemma client_at_lookup t s :
  client_at t s = true -> exists r, threads s !! t = Some (Client r).
Proof.
  unfold client_at. destruct (threads s !! t) as [[r| | |]|]; try done. eauto.
Qed.

Lemma returned_set t d s s' :
  t < length (threads s) ->
  threads s' = <[t := Client (Some d)]> (threads s) ->
  returned t s' = Some d.
Proof.
  intros Hlt Hs'. unfold returned. rewrite Hs'.
  by rewrite list_lookup_insert_eq.
Qed.

(** A sequence of calls on a quiescent queue: what the dequeues
    returned, followed by what is left in the list, is what the list held
    followed by what the enqueues delivered. *)
Lemma perform_spec C ops : forall L s s' rets,
  inv C L s -> quiescent s ->
  perform ops s = Some (s', rets) ->
  exists L',
    inv C L' s' /\ quiescent s' /\
    rets ++ L'.*2 = L.*2 ++ delivered ops /\
    (forall u, client_at u s' = client_at u s).
Proof.
  induction ops as [|[t e p|t e] ops IH]; intros L s s' rets Hinv Hq Hp;
    simpl in Hp.
  - simplify_eq. exists L. by rewrite app_nil_r.
  - destruct (call_enqueue t e p s) as [s1| | |] eqn:Hcall; try done.
    assert (client_at t s = true) as Hc.
    { unfold call_enqueue in Hcall. unfold client_at.
      destruct (threads s !! t) as [[]|]; done. }
    destruct (client_at_lookup _ _ Hc) as [r Ht].
    simpl. destruct (e_malloc e) as [a|] eqn:Hm.
    + destruct (heap s !! a) as [b|] eqn:Ha.
      { by rewrite (call_enqueue_refused _ _ _ _ _ _ _ Ht Hm Ha) in Hcall. }
      pose proof (call_enqueue_some C L s t e p r a Hinv Hq Ht Hm Ha) as Hs.
      destruct (C <=? length L); [congruence|].
      destruct Hs as (s1' & Hcall' & Hinv1 & Hth).
      rewrite Hcall in Hcall'. simplify_eq.
      destruct (IH _ _ _ _ Hinv1 (quiescent_set _ _ _ Hq _ Hth) Hp)
        as (L' & Hinv' & Hq' & Heq & Hcl).
      exists L'. split_and!; try done.
      * rewrite Heq, fmap_app. simpl. by rewrite <- (assoc (++)).
      * intros u. rewrite Hcl. by eapply client_at_set.
    + destruct (call_enqueue_none C L s t e p r Hinv Hq Ht Hm)
        as (s1' & Hcall' & Hinv1 & Hth & _).
      rewrite Hcall in Hcall'. simplify_eq.
      destruct (IH _ _ _ _ Hinv1 (quiescent_set _ _ _ Hq _ Hth) Hp)
        as (L' & Hinv' & Hq' & Heq & Hcl).
      exists L'. split_and!; try done.
      intros u. rewrite Hcl. by eapply client_at_set.
  - destruct (call_dequeue t e s) as [s1| | |] eqn:Hcall; try done.
    assert (client_at t s = true) as Hc.
    { unfold call_dequeue in Hcall. unfold client_at.
      destruct (threads s !! t) as [[]|]; done. }
    destruct (client_at_lookup _ _ Hc) as [r Ht].
    pose proof (call_dequeue_spec C L s t e r Hinv Hq Ht) as Hs.
    destruct L as [|[a d] L1]; [congruence|].
    destruct Hs as (s1' & Hcall' & Hinv1 & Hth).
    rewrite Hcall in Hcall'. simplify_eq.
    rewrite (returned_set t d s s1') in Hp
      by (done || by eapply lookup_lt_Some).
    destruct (perform ops s1') as [[s2 ds]|] eqn:Hrest; [|done].
    simplify_eq.
    destruct (IH _ _ _ _ Hinv1 (quiescent_set _ _ _ Hq _ Hth) Hrest)
      as (L' & Hinv' & Hq' & Heq & Hcl).
    exists L'. split_and!; try done.
    + simpl. by rewrite Heq.
    + intros u. rewrite Hcl. by eapply client_at_set.
Qed.

(** Dequeues on a quiescent queue that holds enough packets return
    them head first. *)
Lemma perform_dequeues C deqs : forall L s,
  inv C L s -> quiescent s ->
  Forall (is_dequeue_of s) deqs ->
  length deqs <= length L ->
  exists s',
    perform deqs s = Some (s', take (length deqs) L.*2) /\
    inv C (drop (length deqs) L) s' /\ quiescent s'.
Proof.
  induction deqs as [|o deqs IH]; intros L s Hinv Hq Hall Hlen.
  - exists s. simpl. by rewrite drop_0.
  - apply Forall_cons in Hall as [[Ho Hc] Hall].
    destruct o as [t e p|t e]; [done|]. simpl in *.
    destruct (client_at_lookup _ _ Hc) as [r Ht].
    pose proof (call_dequeue_spec C L s t e r Hinv Hq Ht) as Hs.
    destruct L as [|[a d] L1]; [simpl in Hlen; lia|].
    destruct Hs as (s1 & Hcall & Hinv1 & Hth). rewrite Hcall.
    rewrite (returned_set t d s s1) by (done || by eapply lookup_lt_Some).
    destruct (IH L1 s1) as (s' & Hp & Hinv' & Hq'); try done.
    + by eapply quiescent_set.
    + eapply Forall_impl; [exact Hall|]. intros o [? Ho']. split; [done|].
      by rewrite (client_at_set t (Some d) s s1).
    + simpl in Hlen. lia.
    + exists s'. rewrite Hp. by simpl.
Qed.

Lemma perform_enqueues_rets ops : forall s s' rets,
  forallb is_enqueue ops = true ->
  perform ops s = Some (s', rets) -> rets = [].
Proof.
  induction ops as [|[t e p|t e] ops IH]; intros s s' rets Hall Hp;
    simpl in *; simplify_eq; try done.
  destruct (call_enqueue t e p s); try done. eauto.
Qed.

Lemma quiescent_boot fopen_ok size pool :
  forallb fresh_thread pool = true -> quiescent (boot fopen_ok size pool).
Proof.
  intros Hpool u su Hu.
  assert (threads (boot fopen_ok size pool) = pool) as Hth
    by (by destruct fopen_ok).
  rewrite Hth in Hu. apply (fresh_lookup _ _ _ Hpool) in Hu.
  destruct su as [[]| | |? []]; done.
Qed.

Lemma reachable_step size pool s t e s' :
  reachable size pool s -> step t e s = Step s' -> reachable size pool s'.
Proof.
  intros (Hpool & ok & sched & Hrun) Hstep. split; [done|].
  exists ok, (sched ++ [(t, e)]).
  revert Hrun. generalize (boot ok size pool). clear Hpool.
  induction sched as [|[u f] sched IH]; simpl; intros s0 Hrun.
  - simplify_eq. by rewrite Hstep.
  - destruct (step u f s0); try done. by apply IH.
Qed.

(** * The claims *)

(** C1 (FIFO order).  Start from the queue as [initializeQueue] leaves
    it.  Let a sequence of [enqueue] calls run, one after the other and
    without any [dequeue] in between; the packets it delivers to the queue
    are those of the calls whose node allocation succeeded.  Then the same
    number of [dequeue] calls, made by any clients, all return, and they
    return exactly the delivered packets in the order of the [enqueue]
    calls. *)
Theorem fifo_order fopen_ok size pool enqs deqs s r :
  (0 <= size <= INT_MAX)%Z ->
  forallb fresh_thread pool = true ->
  forallb is_enqueue enqs = true ->
  perform enqs (boot fopen_ok size pool) = Some (s, r) ->
  Forall (is_dequeue_of s) deqs ->
  length deqs = length (delivered enqs) ->
  exists s', perform deqs s = Some (s', delivered enqs).
Proof.
  intros Hsz Hpool Henq Hp Hdeq Hlen.
  pose proof (inv_boot fopen_ok size pool Hsz Hpool) as Hinv0.
  pose proof (quiescent_boot fopen_ok size pool Hpool) as Hq0.
  destruct (perform_spec _ _ _ _ _ _ Hinv0 Hq0 Hp) as (L & Hinv & Hq & Heq & _).
  rewrite (perform_enqueues_rets _ _ _ _ Henq Hp) in Heq. simpl in Heq.
  assert (length L = length (delivered enqs)) as HL
    by (by rewrite <- Heq, length_fmap).
  destruct (perform_dequeues _ deqs L s Hinv Hq Hdeq) as (s' & Hp' & _);
    [lia|].
  exists s'. rewrite Hp'. f_equal. f_equal.
  rewrite Hlen, <- HL, <- Heq, <- (length_fmap snd L). apply firstn_all.
Qed.

Lemma fifo_order_witness :
  exists s',
    perform sample_dequeues (after 2 two_clients sample_enqueues)
    = Some (s', [sample_packet 5; sample_packet 6]).
Proof.
  apply (fifo_order true 2 two_clients sample_enqueues sample_dequeues
           (after 2 two_clients sample_enqueues) []).
  - unfold INT_MAX. lia.
  - reflexivity.
  - reflexivity.
  - vm_compute. reflexivity.
  - repeat constructor.
  - reflexivity.
Defined.

(** ** Facts about the owner of the mutex *)

Lemma total_crit C L s t st (w : tstate -> nat) :
  inv C L s -> threads s !! t = Some st -> crit st = true ->
  (forall su, crit su = false -> w su = 0) ->
  total w (threads s) = w st.
Proof.
  intros Hinv Ht Hc Hw. apply (total_alone w _ _ _ Ht).
  intros u su Hu Hsu. apply Hw.
  destruct (crit su) eqn:E; [|done]. exfalso. apply Hu.
  apply (inv_lock _ _ _ Hinv) in Hsu. apply (inv_lock _ _ _ Hinv) in Ht.
  apply Hsu in E. apply Ht in Hc. congruence.
Qed.

Lemma total_unlocked C L s (w : tstate -> nat) :
  inv C L s -> q_lock (dataQueue s) = None ->
  (forall su, crit su = false -> w su = 0) ->
  total w (threads s) = 0.
Proof.
  intros Hinv Hl Hw. apply total_quiescent. intros u su Hsu. apply Hw.
  destruct (crit su) eqn:E; [|done].
  apply (inv_lock _ _ _ Hinv) in Hsu. apply Hsu in E. congruence.
Qed.

Lemma count_low_crit su : crit su = false -> count_low su = 0.
Proof. destruct su as [?|? ? ? []|? ? []|? []]; simpl; done. Qed.

Lemma count_high_crit su : crit su = false -> count_high su = 0.
Proof. destruct su as [?|? ? ? []|? ? []|? []]; simpl; done. Qed.

Lemma inv_count_ok C L s : inv C L s -> count_ok (Z.of_nat C) s.
Proof.
  intros Hinv. split; [by eapply inv_count_range|]. intros Hl.
  pose proof (inv_count _ _ _ Hinv) as Hc.
  rewrite (total_unlocked _ _ _ count_low Hinv Hl count_low_crit) in Hc.
  rewrite (total_unlocked _ _ _ count_high Hinv Hl count_high_crit) in Hc.
  rewrite (inv_items_eq _ _ _ Hinv), length_fmap. lia.
Qed.

(** C2 (count invariant).  In every state the program can reach from
    the initialised queue, under any interleaving of the threads,
    [0 <= count <= capacity]; and whenever the mutex is free (nobody is
    between the splice and the update of [count]) [count] is the number
    of packets stored in the linked list.  Every further statement of any
    thread leads to a state where this holds again. *)
Theorem count_invariant size pool s :
  (0 <= size <= INT_MAX)%Z ->
  reachable size pool s ->
  count_ok size s /\
  forall t e s', step t e s = Step s' -> count_ok size s'.
Proof.
  intros Hsz Hreach.
  assert (forall s0, reachable size pool s0 -> count_ok size s0) as Hok.
  { intros s0 Hs0. destruct (reachable_inv _ _ _ Hsz Hs0) as [L Hinv].
    apply inv_count_ok in Hinv. by rewrite Z2Nat.id in Hinv by lia. }
  split; [by apply Hok|].
  intros t e s' Hstep. apply Hok. by eapply reachable_step.
Qed.

Lemma finish_unfold fuel t e s :
  finish fuel t e s =
  match threads s !! t with
  | Some (Client _) => Step s
  | _ =>
      match fuel with
      | O => Refused
      | S fuel' =>
          match step t e s with
          | Step s' => finish fuel' t e s'
          | o => o
          end
      end
  end.
Proof. by destruct fuel. Qed.

Lemma finish_reachable size pool t e fuel : forall s s',
  reachable size pool s -> finish fuel t e s = Step s' -> reachable size pool s'.
Proof.
  induction fuel as [|fuel IH]; intros s s' Hr; rewrite finish_unfold.
  - destruct (threads s !! t) as [[]|]; intros; by simplify_eq.
  - assert (match step t e s with
            | Step s1 => finish fuel t e s1
            | o => o
            end = Step s' -> reachable size pool s') as Hgo.
    { destruct (step t e s) as [s1| | |] eqn:Hstep; try done.
      apply IH. by eapply reachable_step. }
    destruct (threads s !! t) as [[]|]; try done. intros. by simplify_eq.
Qed.

Lemma call_enqueue_reachable size pool t e p s s' :
  reachable size pool s -> call_enqueue t e p s = Step s' ->
  reachable size pool s'.
Proof.
  unfold call_enqueue. intros Hr.
  destruct (threads s !! t) as [[r| | |]|] eqn:Ht; try done.
  apply finish_reachable.
  apply (reachable_step size pool s t (calling (Some p) e)); [done|].
  unfold step. by rewrite Ht.
Qed.

Lemma call_dequeue_reachable size pool t e s s' :
  reachable size pool s -> call_dequeue t e s = Step s' ->
  reachable size pool s'.
Proof.
  unfold call_dequeue. intros Hr.
  destruct (threads s !! t) as [[r| | |]|] eqn:Ht; try done.
  apply finish_reachable.
  apply (reachable_step size pool s t (calling None e)); [done|].
  unfold step. by rewrite Ht.
Qed.

Lemma perform_reachable size pool ops : forall s s' rets,
  reachable size pool s -> perform ops s = Some (s', rets) ->
  reachable size pool s'.
Proof.
  induction ops as [|[t e p|t e] ops IH]; intros s s' rets Hr Hp;
    simpl in Hp.
  - by simplify_eq.
  - destruct (call_enqueue t e p s) as [s1| | |] eqn:Hcall; try done.
    eapply IH; [|done]. by eapply call_enqueue_reachable.
  - destruct (call_dequeue t e s) as [s1| | |] eqn:Hcall; try done.
    destruct (returned t s1); [|done].
    destruct (perform ops s1) as [[s2 ds]|] eqn:Hrest; [|done].
    simplify_eq. eapply IH; [|done]. by eapply call_dequeue_reachable.
Qed.

Lemma reachable_boot size pool :
  forallb fresh_thread pool = true -> reachable size pool (boot true size pool).
Proof. intros Hpool. split; [done|]. by exists true, []. Qed.

(** The sample state is reachable. *)
Lemma reachable_sample :
  reachable 2 two_clients (after 2 two_clients sample_enqueues).
Proof.
  apply (perform_reachable 2 two_clients sample_enqueues
           (boot true 2 two_clients) _ []).
  - by apply reachable_boot.
  - vm_compute. reflexivity.
Qed.

Lemma count_invariant_witness :
  reachable 2 two_clients (after 2 two_clients sample_enqueues) /\
  count_ok 2 (after 2 two_clients sample_enqueues).
Proof.
  split; [exact reachable_sample|].
  apply (count_invariant 2 two_clients _ ltac:(unfold INT_MAX; lia)
           reachable_sample).
Defined.

(** C3 (no loss, no duplication).  For every sequence of [enqueue] and
    [dequeue] calls performed on the initialised queue, the packets the
    dequeues returned together with the packets still stored are, as a
    multiset, the packets of the enqueues that got a node; so when every
    node allocation succeeds (normal operation) they are exactly the
    packets passed to [enqueue]: none is returned twice and none is
    lost. *)
Theorem no_loss_no_duplication fopen_ok size pool ops s rets :
  (0 <= size <= INT_MAX)%Z ->
  forallb fresh_thread pool = true ->
  perform ops (boot fopen_ok size pool) = Some (s, rets) ->
  rets ++ items s ≡ₚ delivered ops /\
  (forallb allocates ops = true -> rets ++ items s ≡ₚ passed ops).
Proof.
  intros Hsz Hpool Hp.
  pose proof (inv_boot fopen_ok size pool Hsz Hpool) as Hinv0.
  pose proof (quiescent_boot fopen_ok size pool Hpool) as Hq0.
  destruct (perform_spec _ _ _ _ _ _ Hinv0 Hq0 Hp) as (L & Hinv & Hq & Heq & _).
  rewrite (inv_items_eq _ _ _ Hinv), Heq. simpl. split; [done|].
  intros Hall. clear -Hall.
  induction ops as [|[t e p|t e] ops IH]; simpl in *; [done| |by apply IH].
  apply andb_prop in Hall as [Ha Hall]. apply bool_decide_eq_true in Ha.
  destruct Ha as [a ->]. by rewrite IH.
Qed.

Lemma no_loss_no_duplication_witness :
  [sample_packet 5] ++ items (after 2 two_clients (sample_enqueues ++ [OpDequeue 1 (sample_env None)]))
  ≡ₚ [sample_packet 5; sample_packet 6].
Proof.
  apply (no_loss_no_duplication true 2 two_clients
           (sample_enqueues ++ [OpDequeue 1 (sample_env None)])
           (after 2 two_clients (sample_enqueues ++ [OpDequeue 1 (sample_env None)]))
           [sample_packet 5]).
  - unfold INT_MAX. lia.
  - reflexivity.
  - vm_compute. reflexivity.
  - reflexivity.
Defined.

(** C4 (the empty-queue branch of [dequeue] is dead).  In every state
    the program can reach from the initialised queue no thread is in
    lines 157 to 160 of [dequeue], so no [dequeue] ever returns the
    zero packet of that branch.  A thread that has acquired [full] and the
    mutex and stands at the test [q->head == NULL] of line 156 finds
    [count > 0] and [head] not [NULL], and goes on to line 163. *)
Theorem dequeue_error_branch_unreachable size pool s :
  (0 <= size <= INT_MAX)%Z ->
  reachable size pool s ->
  (forall t st, threads s !! t = Some st -> in_error_branch st = false) /\
  (forall t d tmp, threads s !! t = Some (InDequeue d tmp D156) ->
     (0 < q_count (dataQueue s))%Z /\
     q_head (dataQueue s) <> None /\
     forall e, step t e s = Step (set_thread t (InDequeue d tmp D163) s)).
Proof.
  intros Hsz Hreach. destruct (reachable_inv _ _ _ Hsz Hreach) as [L Hinv].
  split; [by apply (inv_noerr _ _ _ Hinv)|].
  intros t d tmp Ht.
  pose proof (inv_head_nonnull _ _ _ _ _ Hinv Ht eq_refl) as Hhd.
  split_and!; [|done|].
  - pose proof (inv_count _ _ _ Hinv) as Hc.
    rewrite (total_crit _ _ _ _ _ count_low Hinv Ht eq_refl count_low_crit) in Hc.
    rewrite (total_crit _ _ _ _ _ count_high Hinv Ht eq_refl count_high_crit) in Hc.
    pose proof (inv_items _ _ _ Hinv) as Hi.
    pose proof (total_ge item_held _ _ _ Ht) as Hge.
    simpl in *. lia.
  - intros e. unfold step. rewrite Ht. simpl.
    by destruct (q_head (dataQueue s)).
Qed.

Lemma dequeue_error_branch_unreachable_witness :
  reachable 2 two_clients (after 2 two_clients sample_enqueues) /\
  (forall t st,
     threads (after 2 two_clients sample_enqueues) !! t = Some st ->
     in_error_branch st = false).
Proof.
  split; [exact reachable_sample|].
  apply (dequeue_error_branch_unreachable 2 two_clients _
           ltac:(unfold INT_MAX; lia) reachable_sample).
Defined.









(** [capacity] successful enqueues without a dequeue lead to a
    reachable, quiescent state whose [count] is the capacity. *)
Lemma capacity_enqueues_fill fopen_ok size pool enqs s r :
  (0 <= size <= INT_MAX)%Z ->
  forallb fresh_thread pool = true ->
  forallb is_enqueue enqs = true ->
  perform enqs (boot fopen_ok size pool) = Some (s, r) ->
  length (delivered enqs) = Z.to_nat size ->
  quiescent s /\ q_count (dataQueue s) = size.
Proof.
  intros Hsz Hpool Henq Hp Hlen.
  pose proof (inv_boot fopen_ok size pool Hsz Hpool) as Hinv0.
  pose proof (quiescent_boot fopen_ok size pool Hpool) as Hq0.
  destruct (perform_spec _ _ _ _ _ _ Hinv0 Hq0 Hp) as (L & Hinv & Hq & Heq & _).
  rewrite (perform_enqueues_rets _ _ _ _ Henq Hp) in Heq. simpl in Heq.
  split; [done|].
  destruct (quiescent_facts _ _ _ Hinv Hq) as (Hcount & _).
  rewrite Hcount, <- (length_fmap snd L), Heq, Hlen. lia.
Qed.

(** C8 (lock ordering).  In every state the program can reach, a
    thread owns the mutex exactly while it is between the
    [pthread_mutex_lock] and the [pthread_mutex_unlock] of [enqueue]
    (lines 127 to 135) or of [dequeue] (lines 156 to 172).  Hence a thread
    standing at a [sem_wait] or at a [sem_post] does not own it; a thread
    can only be blocked at a [sem_wait] or at the [pthread_mutex_lock],
    and never while owning the mutex; the statement after a [sem_wait] is
    the [pthread_mutex_lock], which gives the thread the mutex; and the
    statement after the [pthread_mutex_unlock], which frees the mutex, is
    the [sem_post] on the other semaphore. *)
Theorem lock_ordering size pool s t st :
  (0 <= size <= INT_MAX)%Z ->
  reachable size pool s ->
  threads s !! t = Some st ->
  (q_lock (dataQueue s) = Some t <-> crit st = true) /\
  (at_sem_wait st = true \/ at_sem_post st = true ->
   q_lock (dataQueue s) <> Some t) /\
  (forall e, step t e s = Blocked ->
     (at_sem_wait st = true \/ at_mutex_lock st = true) /\
     q_lock (dataQueue s) <> Some t) /\
  (forall e s' st',
     step t e s = Step s' -> threads s' !! t = Some st' ->
     (at_sem_wait st = true -> at_mutex_lock st' = true) /\
     (at_mutex_lock st = true -> q_lock (dataQueue s') = Some t) /\
     (at_mutex_unlock st = true ->
      q_lock (dataQueue s') = None /\ at_sem_post st' = true)).
Proof.
  intros Hsz Hreach Ht.
  destruct (reachable_inv _ _ _ Hsz Hreach) as [L Hinv].
  pose proof (inv_lock _ _ _ Hinv _ _ Ht) as Hl.
  pose proof (lookup_lt_Some _ _ _ Ht) as Hlt.
  split_and!.
  - by symmetry.
  - intros Hsem Hown. apply Hl in Hown.
    destruct st as [?|? ? ? []|? ? []|? []]; simpl in *;
      destruct Hsem; done.
  - intros e Hstep. split.
    + step_cases Hinv Ht Hstep; simpl; auto.
    + intros Hown. apply Hl in Hown.
      step_cases Hinv Ht Hstep; simpl in *; done.
  - intros e s' st' Hstep Ht'.
    step_cases Hinv Ht Hstep; simpl in *;
      rewrite list_lookup_insert_eq in Ht' by done; simplify_eq;
      split_and!; simpl; try done; auto.
Qed.

Lemma reachable_run size pool sched s :
  forallb fresh_thread pool = true ->
  run sched (boot true size pool) = Some s -> reachable size pool s.
Proof. intros Hpool Hrun. split; [done|]. by exists true, sched. Qed.

Lemma reachable_sample_waiting : reachable 2 two_clients sample_waiting.
Proof.
  apply (reachable_run 2 two_clients
           (replicate 5 (0, calling (Some (sample_packet 5)) (sample_env (Some 10))))).
  - reflexivity.
  - vm_compute. reflexivity.
Qed.

Lemma lock_ordering_witness :
  (reachable 2 two_clients sample_waiting /\
   threads sample_waiting !! 0
   = Some (InEnqueue FromClient (sample_packet 5) (Some 10) E124)) /\
  (q_lock (dataQueue sample_waiting) = Some 0 <->
   crit (InEnqueue FromClient (sample_packet 5) (Some 10) E124) = true).
Proof.
  split; [split; [exact reachable_sample_waiting|vm_compute; reflexivity]|].
  apply (lock_ordering 2 two_clients sample_waiting 0
           (InEnqueue FromClient (sample_packet 5) (Some 10) E124)).
  - unfold INT_MAX. lia.
  - exact reachable_sample_waiting.
  - vm_compute. reflexivity.
Defined.

(** C10 ([get_external_data]).  For every call with
    [bufferSizeInBytes > 0] (and [rand()] returning a non-negative value,
    as the C library guarantees) the test [bufferSizeInBytes < val] of
    line 197 is false, so the [-1] branch is not taken; whatever the call
    returns is between 0 and [bufferSizeInBytes - 1]; and the call does
    return, [rand() % bufferSizeInBytes], when the buffer has
    [bufferSizeInBytes] bytes. *)
Theorem get_external_data_range rand buffer bufferSizeInBytes :
  (0 <= rand)%Z ->
  (0 < bufferSizeInBytes)%Z ->
  (bufferSizeInBytes <? Z.rem rand bufferSizeInBytes)%Z = false /\
  (forall b n,
     get_external_data rand buffer bufferSizeInBytes = Some (b, n) ->
     (0 <= n <= bufferSizeInBytes - 1)%Z) /\
  ((bufferSizeInBytes <= Z.of_nat (length buffer))%Z ->
   exists b,
     get_external_data rand buffer bufferSizeInBytes
     = Some (b, Z.rem rand bufferSizeInBytes)).
Proof.
  intros Hr Hn.
  pose proof (Z.rem_bound_pos rand bufferSizeInBytes Hr Hn) as Hrem.
  split_and!.
  - apply Z.ltb_ge. lia.
  - intros b n. unfold get_external_data.
    destruct (bufferSizeInBytes =? 0)%Z; [done|].
    destruct (bufferSizeInBytes <? Z.rem rand bufferSizeInBytes)%Z eqn:E.
    + apply Z.ltb_lt in E. lia.
    + destruct (strncpy _ _ _); intros; simplify_eq. lia.
  - by apply get_external_data_some.
Qed.

Lemma get_external_data_range_witness :
  ((0 <= 1030)%Z /\ (0 < 1024)%Z) /\
  (1024 <? Z.rem 1030 1024)%Z = false.
Proof.
  split; [lia|].
  apply (get_external_data_range 1030 (replicate 1024 "x"%char) 1024); lia.
Defined.

(** ** The writer loop *)

Lemma writer_step C L s t e pk pc s' :
  inv C L s -> threads s !! t = Some (InWriter pk pc) ->
  step t e s = Step s' -> inv C L s'.
Proof.
  intros Hinv Ht Hstep.
  apply (step_inv _ _ _ _ _ _ _ Hinv Ht Hstep).
Qed.

(** C9 (zero-length discard).  Let a writer stand at line 254 in a
    state the program can reach.  Its [packet.data] points to a buffer
    and [get_external_data] returns some length [n].  If [n <= 0], the
    next three statements of the writer bring it to the test of line 258
    with [packet.size = n]; from there it goes to line 261, not to the
    call of [enqueue] on line 259; and after five statements in all the
    writer is back at the top of its loop, the buffer is freed, and the
    queue, its [count] included, and the packets it stores are what they
    were. *)
Theorem zero_length_discard size pool s t pk e0 e1 e2 e3 e4 :
  (0 <= size <= INT_MAX)%Z ->
  reachable size pool s ->
  threads s !! t = Some (InWriter pk W254) ->
  (0 <= e_rand e0 <= INT_MAX)%Z ->
  exists a buf b n,
    pk_data pk = Some a /\
    heap s !! a = Some (BBuf buf) /\
    get_external_data (e_rand e0) buf 1024 = Some (b, n) /\
    ((n <= 0)%Z ->
     exists s3 pk3 s',
       run [(t, e0); (t, e1); (t, e2)] s = Some s3 /\
       threads s3 !! t = Some (InWriter pk3 W258) /\
       pk_size pk3 = n /\
       step t e3 s3 = Step (set_thread t (InWriter pk3 W261) s3) /\
       run [(t, e0); (t, e1); (t, e2); (t, e3); (t, e4)] s = Some s' /\
       threads s' = <[t := InWriter zero_packet W249]> (threads s) /\
       dataQueue s' = dataQueue s /\
       items s' = items s /\
       heap s' = delete a (heap s)).
Proof.
  intros Hsz Hreach Ht Hrand.
  destruct (reachable_inv _ _ _ Hsz Hreach) as [L Hinv].
  pose proof (lookup_lt_Some _ _ _ Ht) as Hlt.
  destruct (inv_priv _ _ _ Hinv _ _ Ht) as (a & buf & Hpk & Hbuf & Hlen).
  destruct (get_external_data_some (e_rand e0) buf 1024) as [b Hget];
    [lia..|].
  exists a, buf, b, (Z.rem (e_rand e0) 1024).
  split_and!; [done..|]. intros Hn.
  assert ((e_rand e0 <? 0)%Z || (INT_MAX <? e_rand e0)%Z = false) as Hchk.
  { apply orb_false_intro; apply Z.ltb_ge; lia. }
  set (n := Z.rem (e_rand e0) 1024) in *. clearbody n.
  set (pk1 := with_size n pk).
  set (pk2 := with_eventId 0 pk1).
  set (pk3 := with_eventCorrelationId 0 pk2).
  set (s1 := set_thread t (InWriter pk1 W255)
               (set_heap (<[a := BBuf b]> (heap s)) s)).
  set (s2 := set_thread t (InWriter pk2 W256) s1).
  set (s3 := set_thread t (InWriter pk3 W258) s2).
  set (s4 := set_thread t (InWriter pk3 W261) s3).
  set (s5 := set_thread t (InWriter zero_packet W249)
               (set_heap (delete a (heap s4)) s4)).
  assert (step t e0 s = Step s1) as H1.
  { unfold step. rewrite Ht. simpl. rewrite Hchk, Hpk. simpl.
    rewrite Hbuf, Hget. done. }
  assert (step t e1 s1 = Step s2) as H2.
  { unfold step. simpl. by rewrite list_lookup_insert_eq. }
  assert (step t e2 s2 = Step s3) as H3.
  { unfold step. simpl.
    by rewrite list_lookup_insert_eq by (by rewrite ?length_insert). }
  assert (step t e3 s3 = Step s4) as H4.
  { unfold step. simpl.
    rewrite list_lookup_insert_eq by (by rewrite ?length_insert). simpl.
    destruct (0 <? n)%Z eqn:E; [apply Z.ltb_lt in E; lia|done]. }
  assert (step t e4 s4 = Step s5) as H5.
  { unfold step. simpl.
    rewrite list_lookup_insert_eq by (by rewrite ?length_insert). simpl.
    rewrite Hpk. simpl. by rewrite lookup_insert_eq. }
  exists s3, pk3, s5. split_and!.
  - simpl. by rewrite H1, H2, H3.
  - simpl. by rewrite list_lookup_insert_eq by (by rewrite ?length_insert).
  - done.
  - exact H4.
  - simpl. by rewrite H1, H2, H3, H4, H5.
  - simpl. by rewrite !list_insert_insert_eq.
  - done.
  - assert (forall st (s0 : state), t < length (threads s0) ->
              threads (set_thread t st s0) !! t = Some st) as Hset
      by (intros; by apply set_thread_lookup).
    pose proof (writer_step _ _ _ _ _ _ _ _ Hinv Ht H1) as Hinv1.
    assert (threads s1 !! t = Some (InWriter pk1 W255)) as Ht1
      by (apply Hset; simpl; by rewrite ?length_insert).
    pose proof (writer_step _ _ _ _ _ _ _ _ Hinv1 Ht1 H2) as Hinv2.
    assert (threads s2 !! t = Some (InWriter pk2 W256)) as Ht2
      by (apply Hset; simpl; by rewrite ?length_insert).
    pose proof (writer_step _ _ _ _ _ _ _ _ Hinv2 Ht2 H3) as Hinv3.
    assert (threads s3 !! t = Some (InWriter pk3 W258)) as Ht3
      by (apply Hset; simpl; by rewrite ?length_insert).
    pose proof (writer_step _ _ _ _ _ _ _ _ Hinv3 Ht3 H4) as Hinv4.
    assert (threads s4 !! t = Some (InWriter pk3 W261)) as Ht4
      by (apply Hset; simpl; by rewrite ?length_insert).
    pose proof (writer_step _ _ _ _ _ _ _ _ Hinv4 Ht4 H5) as Hinv5.
    by rewrite (inv_items_eq _ _ _ Hinv), (inv_items_eq _ _ _ Hinv5).
  - simpl. by rewrite delete_insert_eq.
Qed.

Lemma reachable_sample_writer : reachable 2 one_writer sample_writer.
Proof.
  apply (reachable_run 2 one_writer sample_writer_sched).
  - reflexivity.
  - vm_compute. reflexivity.
Qed.

Lemma zero_length_discard_witness :
  (reachable 2 one_writer sample_writer /\
   threads sample_writer !! 0
   = Some (InWriter (with_data (Some 5) zero_packet) W254) /\
   (0 <= e_rand sample_writer_env <= INT_MAX)%Z) /\
  exists a buf b n,
    pk_data (with_data (Some 5) zero_packet) = Some a /\
    heap sample_writer !! a = Some (BBuf buf) /\
    get_external_data (e_rand sample_writer_env) buf 1024 = Some (b, n) /\
    ((n <= 0)%Z ->
     exists s3 pk3 s',
       run [(0, sample_writer_env); (0, sample_writer_env);
            (0, sample_writer_env)] sample_writer = Some s3 /\
       threads s3 !! 0 = Some (InWriter pk3 W258) /\
       pk_size pk3 = n /\
       step 0 sample_writer_env s3
       = Step (set_thread 0 (InWriter pk3 W261) s3) /\
       run [(0, sample_writer_env); (0, sample_writer_env);
            (0, sample_writer_env); (0, sample_writer_env);
            (0, sample_writer_env)] sample_writer = Some s' /\
       threads s' = <[0 := InWriter zero_packet W249]> (threads sample_writer) /\
       dataQueue s' = dataQueue sample_writer /\
       items s' = items sample_writer /\
       heap s' = delete a (heap sample_writer)).
Proof.
  assert (threads sample_writer !! 0
          = Some (InWriter (with_data (Some 5) zero_packet) W254)) as Ht
    by (vm_compute; reflexivity).
  assert ((0 <= e_rand sample_writer_env <= INT_MAX)%Z) as Hr
    by (unfold INT_MAX; simpl; lia).
  split; [split; [exact reachable_sample_writer|split; [exact Ht|exact Hr]]|].
  apply (zero_length_discard 2 one_writer sample_writer 0
           (with_data (Some 5) zero_packet)
           sample_writer_env sample_writer_env sample_writer_env
           sample_writer_env sample_writer_env
           ltac:(unfold INT_MAX; lia) reachable_sample_writer Ht Hr).
Defined.

(** * Further properties of the code *)

Lemma reachable_sample_locked : reachable 2 two_clients sample_locked.
Proof.
  apply (reachable_run 2 two_clients
           (replicate 7 (0, calling (Some (sample_packet 5)) (sample_env (Some 10))))).
  - reflexivity.
  - vm_compute. reflexivity.
Qed.

(** X1 (memory safety).  In every state the program can reach, the next
    statement of any thread has defined behaviour: no [NULL] or dangling
    pointer is dereferenced in [enqueue] or [dequeue], [free] is only
    called on allocated blocks, the mutex is only unlocked by its owner,
    and [get_external_data] stays inside the 1024-byte buffer. *)
Theorem no_undefined_behaviour size pool s t e :
  (0 <= size <= INT_MAX)%Z ->
  reachable size pool s ->
  step t e s <> Undefined.
Proof.
  intros Hsz Hreach. destruct (reachable_inv _ _ _ Hsz Hreach) as [L Hinv].
  by eapply step_defined.
Qed.

Lemma no_undefined_behaviour_witness :
  reachable 2 two_clients sample_locked /\
  step 0 (sample_env None) sample_locked <> Undefined.
Proof.
  split; [exact reachable_sample_locked|].
  apply (no_undefined_behaviour 2 two_clients sample_locked 0 (sample_env None)).
  - unfold INT_MAX. lia.
  - exact reachable_sample_locked.
Defined.

(** X2 (mutual exclusion).  In every state the program can reach, at
    most one thread is between [pthread_mutex_lock] and
    [pthread_mutex_unlock] (lines 127 to 135 of [enqueue], 156 to 172 of
    [dequeue]). *)
Theorem mutual_exclusion size pool s t u st su :
  (0 <= size <= INT_MAX)%Z ->
  reachable size pool s ->
  threads s !! t = Some st -> threads s !! u = Some su ->
  crit st = true -> crit su = true ->
  t = u.
Proof.
  intros Hsz Hreach Ht Hu Hct Hcu.
  destruct (reachable_inv _ _ _ Hsz Hreach) as [L Hinv].
  apply (inv_lock _ _ _ Hinv) in Ht. apply (inv_lock _ _ _ Hinv) in Hu.
  apply Ht in Hct. apply Hu in Hcu. congruence.
Qed.

Lemma mutual_exclusion_witness :
  (reachable 2 two_clients sample_locked /\
   threads sample_locked !! 0
   = Some (InEnqueue FromClient (sample_packet 5) (Some 10) E127) /\
   crit (InEnqueue FromClient (sample_packet 5) (Some 10) E127) = true) /\
  0 = 0.
Proof.
  assert (threads sample_locked !! 0
          = Some (InEnqueue FromClient (sample_packet 5) (Some 10) E127)) as Ht
    by (vm_compute; reflexivity).
  split; [split; [exact reachable_sample_locked|split; [exact Ht|reflexivity]]|].
  apply (mutual_exclusion 2 two_clients sample_locked 0 0 _ _
           ltac:(unfold INT_MAX; lia) reachable_sample_locked Ht Ht);
    reflexivity.
Defined.

(** X3 (bounded buffer).  In every state the program can reach, under
    any interleaving, the list never holds more packets than the size
    given to [initializeQueue]; [full] never exceeds the number of stored
    packets and [empty] never exceeds the number of free slots. *)
Theorem stored_items_bounded size pool s :
  (0 <= size <= INT_MAX)%Z ->
  reachable size pool s ->
  (Z.of_nat (length (items s)) <= size)%Z /\
  q_full (dataQueue s) <= length (items s) /\
  (Z.of_nat (q_empty (dataQueue s) + length (items s)) <= size)%Z.
Proof.
  intros Hsz Hreach. destruct (reachable_inv _ _ _ Hsz Hreach) as [L Hinv].
  pose proof (inv_slots _ _ _ Hinv) as Hs.
  pose proof (inv_items _ _ _ Hinv) as Hi.
  rewrite (inv_items_eq _ _ _ Hinv), length_fmap. lia.
Qed.

Lemma stored_items_bounded_witness :
  reachable 2 two_clients (after 2 two_clients sample_enqueues) /\
  (Z.of_nat (length (items (after 2 two_clients sample_enqueues))) <= 2)%Z.
Proof.
  split; [exact reachable_sample|].
  apply (stored_items_bounded 2 two_clients _
           ltac:(unfold INT_MAX; lia) reachable_sample).
Defined.

Lemma chain_last h p L a d :
  chain h p L -> last L = Some (a, d) ->
  h !! a = Some (BNode (mkNode d NULL)).
Proof.
  revert p. induction L as [|[b e] L IH]; simpl; intros p Hc Hl; [done|].
  destruct Hc as (-> & nx & Hb & Hc).
  destruct L as [|x L].
  - simpl in *. simplify_eq. done.
  - apply (IH nx); done.
Qed.

Lemma last_fmap_fst (L : list (nat * DataPacket)) :
  last L.*1 = fst <$> last L.
Proof. apply fmap_last. Qed.

(** X4 (the queue between calls).  In a reachable state in which no
    call is in progress, [count] and [full] are the number of stored
    packets, [empty] is the number of free slots, the mutex is free,
    [head] and [tail] are [NULL] exactly when the list is empty, and
    otherwise [tail] points to the node of the last packet, whose [next]
    is [NULL]. *)
Theorem quiescent_queue_fields size pool s :
  (0 <= size <= INT_MAX)%Z ->
  reachable size pool s -> quiescent s ->
  q_count (dataQueue s) = Z.of_nat (length (items s)) /\
  q_full (dataQueue s) = length (items s) /\
  (Z.of_nat (q_empty (dataQueue s) + length (items s)) = size)%Z /\
  q_lock (dataQueue s) = None /\
  (q_head (dataQueue s) = NULL <-> items s = []) /\
  (q_tail (dataQueue s) = NULL <-> items s = []) /\
  (forall a, q_tail (dataQueue s) = Some a ->
     exists d, heap s !! a = Some (BNode (mkNode d NULL)) /\
               last (items s) = Some d).
Proof.
  intros Hsz Hreach Hq. destruct (reachable_inv _ _ _ Hsz Hreach) as [L Hinv].
  destruct (quiescent_facts _ _ _ Hinv Hq) as (Hc & Hf & He & Hl & Ht).
  pose proof (inv_chain _ _ _ Hinv) as Hch.
  rewrite (inv_items_eq _ _ _ Hinv), length_fmap.
  split_and!; try done; try lia.
  - rewrite (chain_nil_iff _ _ _ Hch). split; [by intros ->|].
    by intros ?%fmap_nil_inv.
  - rewrite Ht, last_None. split; intros ?%fmap_nil_inv; by subst.
  - intros a Ha. rewrite Ht, last_fmap_fst in Ha.
    destruct (last L) as [[a' d]|] eqn:Hlast; simplify_eq/=.
    exists d. split; [by eapply chain_last|]. by rewrite fmap_last, Hlast.
Qed.

Lemma quiescent_sample : quiescent (after 2 two_clients sample_enqueues).
Proof.
  assert (threads (after 2 two_clients sample_enqueues) = two_clients) as H
    by (vm_compute; reflexivity).
  intros u su. rewrite H. clear H. intros Hu.
  apply list_elem_of_lookup_2 in Hu.
  repeat (apply elem_of_cons in Hu as [->|Hu]; [reflexivity|]).
  by apply elem_of_nil in Hu.
Qed.

Lemma quiescent_queue_fields_witness :
  (reachable 2 two_clients (after 2 two_clients sample_enqueues) /\
   quiescent (after 2 two_clients sample_enqueues)) /\
  q_count (dataQueue (after 2 two_clients sample_enqueues))
  = Z.of_nat (length (items (after 2 two_clients sample_enqueues))).
Proof.
  split; [split; [exact reachable_sample|exact quiescent_sample]|].
  apply (quiescent_queue_fields 2 two_clients _
           ltac:(unfold INT_MAX; lia) reachable_sample quiescent_sample).
Defined.

Lemma crit_left_crit st : crit st = true <-> crit_left st <> 0.
Proof. destruct st as [?|? ? ? []|? ? []|? []]; simpl; split; done. Qed.

Lemma crit_progress C L s t e st :
  inv C L s -> threads s !! t = Some st -> crit st = true ->
  exists s' st',
    step t e s = Step s' /\
    threads s' !! t = Some st' /\
    crit_left st' < crit_left st /\
    (crit_left st' = 0 -> q_lock (dataQueue s') = None).
Proof.
  intros Hinv Ht Hc.
  pose proof (lookup_lt_Some _ _ _ Ht) as Hlt.
  pose proof (inv_lock _ _ _ Hinv _ _ Ht) as Hl.
  destruct (step t e s) as [s'| | |] eqn:Hstep.
  - step_cases Hinv Ht Hstep; simpl in *; try done;
      eexists _, _; (split; [reflexivity|]); simpl;
      rewrite list_lookup_insert_eq by done;
      (split; [reflexivity|]); simpl; split; try lia; try done.
  - exfalso. step_cases Hinv Ht Hstep; simpl in *; done.
  - by apply (step_defined _ _ _ _ _ Hinv) in Hstep.
  - exfalso. step_cases Hinv Ht Hstep; simpl in *; done.
Qed.

(** X5 (the critical sections are short and never wait).  In every
    state the program can reach, the thread that owns the mutex can
    execute its next statement whatever the environment does, and each of
    its statements brings it closer to its [pthread_mutex_unlock], which
    is at most 8 statements away; when that count reaches 0 the mutex is
    free. *)
Theorem critical_section_finishes size pool s t st e :
  (0 <= size <= INT_MAX)%Z ->
  reachable size pool s ->
  threads s !! t = Some st ->
  q_lock (dataQueue s) = Some t ->
  0 < crit_left st <= 8 /\
  exists s' st',
    step t e s = Step s' /\
    threads s' !! t = Some st' /\
    crit_left st' < crit_left st /\
    (crit_left st' = 0 -> q_lock (dataQueue s') = None).
Proof.
  intros Hsz Hreach Ht Hown.
  destruct (reachable_inv _ _ _ Hsz Hreach) as [L Hinv].
  apply (inv_lock _ _ _ Hinv _ _ Ht) in Hown.
  split; [|by eapply crit_progress].
  destruct st as [?|? ? ? []|? ? []|? []]; simpl in *; try done; lia.
Qed.

Lemma critical_section_finishes_witness :
  (reachable 2 two_clients sample_locked /\
   threads sample_locked !! 0
   = Some (InEnqueue FromClient (sample_packet 5) (Some 10) E127) /\
   q_lock (dataQueue sample_locked) = Some 0) /\
  0 < crit_left (InEnqueue FromClient (sample_packet 5) (Some 10) E127) <= 8.
Proof.
  assert (threads sample_locked !! 0
          = Some (InEnqueue FromClient (sample_packet 5) (Some 10) E127)) as Ht
    by (vm_compute; reflexivity).
  assert (q_lock (dataQueue sample_locked) = Some 0) as Hl
    by (vm_compute; reflexivity).
  split; [split; [exact reachable_sample_locked|split; [exact Ht|exact Hl]]|].
  apply (critical_section_finishes 2 two_clients sample_locked 0 _
           (sample_env None) ltac:(unfold INT_MAX; lia)
           reachable_sample_locked Ht Hl).
Defined.

Lemma total_pos (w : tstate -> nat) (l : list tstate) :
  0 < total w l -> exists t st, l !! t = Some st /\ 0 < w st.
Proof.
  induction l as [|x l IH]; simpl; [lia|]. intros H.
  destruct (decide (0 < w x)) as [Hx|Hx].
  - by exists 0, x.
  - destruct IH as (t & st & Ht & Hst); [lia|]. by exists (S t), st.
Qed.

Lemma token_holder_progress C L s u su :
  inv C L s -> threads s !! u = Some su ->
  0 < slot_held su + item_held su ->
  q_lock (dataQueue s) = None ->
  forall e, exists s', step u e s = Step s'.
Proof.
  intros Hinv Hu Hw Hl e.
  pose proof (inv_lock _ _ _ Hinv _ _ Hu) as Hlu.
  pose proof (inv_noerr _ _ _ Hinv _ _ Hu) as Hne.
  assert (crit su = false) as Hc.
  { destruct (crit su); [|done]. destruct Hlu as [Hlu _].
    specialize (Hlu eq_refl). congruence. }
  unfold step. rewrite Hu.
  destruct su as [?|? ? ? []|? ? []|? []]; simpl in *; try done; try lia;
    rewrite ?Hl; simpl; eauto.
Qed.

(** X6 (no deadlock between producers and consumers).  Take a reachable
    state of a queue of capacity at least 1 in which both semaphores are
    0, so that a producer arriving at [sem_wait(&q->empty)] and a consumer
    arriving at [sem_wait(&q->full)] would both wait.  Then some thread is
    between its [sem_wait] and its [sem_post], and that thread (the owner
    of the mutex if the mutex is taken) can execute its next statement
    whatever the environment does. *)
Theorem no_deadlock size pool s :
  (1 <= size <= INT_MAX)%Z ->
  reachable size pool s ->
  q_empty (dataQueue s) = 0 -> q_full (dataQueue s) = 0 ->
  exists v sv,
    threads s !! v = Some sv /\
    0 < slot_held sv + item_held sv /\
    forall e, exists s', step v e s = Step s'.
Proof.
  intros Hsz Hreach He Hf.
  destruct (reachable_inv size pool s ltac:(lia) Hreach) as [L Hinv].
  pose proof (inv_slots _ _ _ Hinv) as Hs.
  pose proof (inv_items _ _ _ Hinv) as Hi.
  destruct (q_lock (dataQueue s)) as [o|] eqn:Hl.
  - pose proof (inv_owner _ _ _ Hinv o Hl) as Hlen.
    apply lookup_lt_is_Some in Hlen as [so Hso].
    pose proof (inv_lock _ _ _ Hinv _ _ Hso) as [_ Hcrit].
    specialize (Hcrit Hl).
    pose proof (inv_noerr _ _ _ Hinv _ _ Hso) as Hne.
    exists o, so. split_and!; [done| |].
    + destruct so as [?|? ? ? []|? ? []|? []]; simpl in *; try done; lia.
    + intros e.
      destruct (crit_progress _ _ _ _ e _ Hinv Hso Hcrit) as (s' & _ & H & _).
      eauto.
  - destruct (total_pos (fun st => slot_held st + item_held st) (threads s))
      as (u & su & Hu & Hw).
    { assert (forall l, total (fun st => slot_held st + item_held st) l
                        = total slot_held l + total item_held l) as Hsum.
      { induction l as [|x l IH]; simpl; [done|]. rewrite IH. lia. }
      rewrite Hsum. lia. }
    exists u, su. split_and!; [done..|].
    by eapply token_holder_progress.
Qed.

Lemma no_deadlock_witness :
  (reachable 1 two_clients
     (after_run 1 two_clients
        (replicate 6 (0, calling (Some (sample_packet 5)) (sample_env (Some 10))))) /\
   q_empty (dataQueue
     (after_run 1 two_clients
        (replicate 6 (0, calling (Some (sample_packet 5)) (sample_env (Some 10)))))) = 0 /\
   q_full (dataQueue
     (after_run 1 two_clients
        (replicate 6 (0, calling (Some (sample_packet 5)) (sample_env (Some 10)))))) = 0) /\
  exists v sv,
    threads
      (after_run 1 two_clients
         (replicate 6 (0, calling (Some (sample_packet 5)) (sample_env (Some 10)))))
      !! v = Some sv /\
    0 < slot_held sv + item_held sv /\
    forall e, exists s',
      step v e
        (after_run 1 two_clients
           (replicate 6 (0, calling (Some (sample_packet 5)) (sample_env (Some 10)))))
      = Step s'.
Proof.
  set (s := after_run 1 two_clients
              (replicate 6 (0, calling (Some (sample_packet 5)) (sample_env (Some 10))))).
  assert (reachable 1 two_clients s) as Hr.
  { apply (reachable_run 1 two_clients
             (replicate 6 (0, calling (Some (sample_packet 5)) (sample_env (Some 10))))).
    - reflexivity.
    - vm_compute. reflexivity. }
  assert (q_empty (dataQueue s) = 0) as He by (vm_compute; reflexivity).
  assert (q_full (dataQueue s) = 0) as Hf by (vm_compute; reflexivity).
  split; [split; [exact Hr|split; [exact He|exact Hf]]|].
  apply (no_deadlock 1 two_clients s ltac:(unfold INT_MAX; lia) Hr He Hf).
Defined.

(** X7 ([dequeue] between calls).  On a reachable queue with no call in
    progress, a [dequeue] call by an idle client waits when the list is
    empty; otherwise it returns the packet at the head, the list loses
    exactly that packet and [count] is one less. *)
Theorem dequeue_outcome size pool s t e :
  (0 <= size <= INT_MAX)%Z ->
  reachable size pool s -> quiescent s -> client_at t s = true ->
  match items s with
  | [] => call_dequeue t e s = Blocked
  | d :: rest =>
      exists s',
        call_dequeue t e s = Step s' /\
        returned t s' = Some d /\
        items s' = rest /\
        q_count (dataQueue s') = (q_count (dataQueue s) - 1)%Z
  end.
Proof.
  intros Hsz Hreach Hq Hc.
  destruct (reachable_inv _ _ _ Hsz Hreach) as [L Hinv].
  destruct (client_at_lookup _ _ Hc) as [r Ht].
  destruct (quiescent_facts _ _ _ Hinv Hq) as (Hcount & _).
  pose proof (call_dequeue_spec _ L s t e r Hinv Hq Ht) as Hs.
  rewrite (inv_items_eq _ _ _ Hinv).
  destruct L as [|[a d] L1]; simpl; [done|].
  destruct Hs as (s' & Hcall & Hinv' & Hth). exists s'.
  pose proof (quiescent_set _ _ _ Hq _ Hth) as Hq'.
  destruct (quiescent_facts _ _ _ Hinv' Hq') as (Hcount' & _).
  split_and!; [done| | |].
  - eapply returned_set; [|done]. by eapply lookup_lt_Some.
  - by rewrite (inv_items_eq _ _ _ Hinv').
  - rewrite Hcount, Hcount'. simpl. lia.
Qed.

Lemma dequeue_outcome_witness :
  (reachable 2 two_clients (after 2 two_clients sample_enqueues) /\
   quiescent (after 2 two_clients sample_enqueues) /\
   client_at 1 (after 2 two_clients sample_enqueues) = true) /\
  exists s',
    call_dequeue 1 (sample_env None) (after 2 two_clients sample_enqueues)
    = Step s' /\
    returned 1 s' = Some (sample_packet 5) /\
    items s' = [sample_packet 6] /\
    q_count (dataQueue s')
    = (q_count (dataQueue (after 2 two_clients sample_enqueues)) - 1)%Z.
Proof.
  assert (client_at 1 (after 2 two_clients sample_enqueues) = true) as Hc
    by (vm_compute; reflexivity).
  split; [split; [exact reachable_sample|split; [exact quiescent_sample|exact Hc]]|].
  pose proof (dequeue_outcome 2 two_clients
                (after 2 two_clients sample_enqueues) 1 (sample_env None)
                ltac:(unfold INT_MAX; lia) reachable_sample quiescent_sample Hc)
    as H.
  clear Hc.
  assert (items (after 2 two_clients sample_enqueues)
          = [sample_packet 5; sample_packet 6]) as Hi
    by (vm_compute; reflexivity).
  rewrite Hi in H. exact H.
Defined.

(** X8 ([get_external_data], contents).  When the call returns a
    length [n] for a positive [bufferSizeInBytes], the buffer keeps its
    size, its first [n] bytes are the first [n] bytes of [srcString]
    followed by NUL bytes (so for [n <= 62] they are a prefix of
    [srcString]), and the bytes from position [n] on are untouched. *)
Theorem get_external_data_contents rand buffer bufferSizeInBytes b n :
  (0 <= rand)%Z ->
  (0 < bufferSizeInBytes)%Z ->
  get_external_data rand buffer bufferSizeInBytes = Some (b, n) ->
  length b = length buffer /\
  take (Z.to_nat n) b
  = take (Z.to_nat n) (srcString ++ replicate (Z.to_nat n - 62) Ascii.zero) /\
  drop (Z.to_nat n) b = drop (Z.to_nat n) buffer /\
  ((n <= 62)%Z -> take (Z.to_nat n) b = take (Z.to_nat n) srcString).
Proof.
  intros Hr Hn Hget.
  pose proof (Z.rem_bound_pos rand bufferSizeInBytes Hr Hn) as Hrem.
  pose proof (get_external_data_length _ _ _ _ _ Hget) as Hlen.
  unfold get_external_data in Hget.
  destruct (bufferSizeInBytes =? 0)%Z; [done|].
  destruct (bufferSizeInBytes <? Z.rem rand bufferSizeInBytes)%Z eqn:E.
  { apply Z.ltb_lt in E. lia. }
  unfold strncpy in Hget.
  destruct (Z.to_nat (Z.rem rand bufferSizeInBytes) <=? length buffer) eqn:E2;
    [|done].
  apply Nat.leb_le in E2. simplify_eq.
  set (k := Z.to_nat (Z.rem rand bufferSizeInBytes)) in *.
  assert (length srcString = 62) as Hsrc by reflexivity.
  assert (length (take k (srcString ++ replicate (k - 62) Ascii.zero)) = k)
    as Htk.
  { rewrite length_take, length_app, length_replicate, Hsrc. lia. }
  rewrite Hsrc.
  split_and!.
  - done.
  - by rewrite take_app_length'.
  - by rewrite drop_app_length'.
  - intros Hle.
    rewrite take_app_length'; [|done].
    rewrite take_app_le; [done|]. rewrite Hsrc. lia.
Qed.

Lemma get_external_data_contents_witness :
  ((0 <= 1027)%Z /\ (0 < 1024)%Z /\
   get_external_data 1027 (replicate 1024 "x"%char) 1024
   = Some (["0"; "1"; "2"]%char ++ replicate 1021 "x"%char, 3%Z)) /\
  take 3 (["0"; "1"; "2"]%char ++ replicate 1021 "x"%char) = take 3 srcString.
Proof.
  assert (get_external_data 1027 (replicate 1024 "x"%char) 1024
          = Some (["0"; "1"; "2"]%char ++ replicate 1021 "x"%char, 3%Z)) as H
    by (vm_compute; reflexivity).
  split; [split; [lia|split; [lia|exact H]]|].
  apply (get_external_data_contents 1027 (replicate 1024 "x"%char) 1024
           _ 3 ltac:(lia) ltac:(lia) H).
  lia.
Defined.

(** X9 ([get_external_data], negative size).  For a negative
    [bufferSizeInBytes] the remainder [rand() % bufferSizeInBytes] is not
    negative, so the test of line 197 succeeds: the call returns [-1] and
    leaves the buffer as it was. *)
Theorem get_external_data_negative_size rand buffer bufferSizeInBytes :
  (0 <= rand)%Z ->
  (bufferSizeInBytes < 0)%Z ->
  get_external_data rand buffer bufferSizeInBytes = Some (buffer, (-1)%Z).
Proof.
  intros Hr Hn. unfold get_external_data.
  destruct (bufferSizeInBytes =? 0)%Z eqn:E0; [apply Z.eqb_eq in E0; lia|].
  assert (0 <= Z.rem rand bufferSizeInBytes)%Z as Hrem.
  { rewrite <- (Z.opp_involutive bufferSizeInBytes), Z.rem_opp_r by lia.
    apply Z.rem_bound_pos; lia. }
  destruct (bufferSizeInBytes <? Z.rem rand bufferSizeInBytes)%Z eqn:E;
    [done|]. apply Z.ltb_ge in E. lia.
Qed.

Lemma get_external_data_negative_size_witness :
  ((0 <= 7)%Z /\ (-4 < 0)%Z) /\
  get_external_data 7 ["a"; "b"]%char (-4) = Some (["a"; "b"]%char, (-1)%Z).
Proof.
  split; [lia|].
  apply (get_external_data_negative_size 7 ["a"; "b"]%char (-4)); lia.
Defined.

(** ** Packets under arbitrary interleavings *)

Lemma flat_map_insert {A} (f : tstate -> list A) (l : list tstate) t st :
  l !! t = Some st ->
  exists R,
    flat_map f l ≡ₚ f st ++ R /\
    (forall st', flat_map f (<[t := st']> l) ≡ₚ f st' ++ R).
Proof.
  revert t. induction l as [|x l IH]; intros [|t] H; simplify_eq/=.
  - by exists (flat_map f l).
  - destruct (IH t H) as (R & H1 & H2).
    exists (f x ++ R). split.
    + rewrite H1. solve_Permutation.
    + intros st'. rewrite H2. solve_Permutation.
Qed.

(** What one statement does to the packets. *)
Lemma step_events C L s t e st s' :
  inv C L s -> threads s !! t = Some st -> step t e s = Step s' ->
  exists st',
    threads s' = <[t := st']> (threads s) /\
    L.*2 ++ linked_in (observe e st)
    = unlinked_in (observe e st) ++ (abs_step st L).*2 /\
    pending st ++ passed_in (observe e st)
    ≡ₚ pending st' ++ linked_in (observe e st) ++ dropped_in (observe e st) /\
    holding st ++ unlinked_in (observe e st)
    ≡ₚ holding st' ++ returned_in (observe e st).
Proof.
  intros Hinv Ht Hstep.
  step_cases Hinv Ht Hstep; simpl in *;
    eexists; (split; [reflexivity|]); simpl;
    rewrite ?app_nil_r, ?fmap_app; simpl; split_and!; done.
Qed.

Lemma conserve_step {A} (p p' R a l d A1 P L D : list A) :
  p ++ a ≡ₚ p' ++ l ++ d ->
  (p' ++ R) ++ A1 ≡ₚ P ++ L ++ D ->
  (p ++ R) ++ (a ++ A1) ≡ₚ P ++ (l ++ L) ++ (d ++ D).
Proof.
  intros H1 H2.
  transitivity ((p ++ a) ++ R ++ A1); [solve_Permutation|].
  rewrite H1.
  transitivity ((l ++ d) ++ ((p' ++ R) ++ A1)); [solve_Permutation|].
  rewrite H2. solve_Permutation.
Qed.

Lemma hold_step {A} (p p' R u r U P Rt : list A) :
  p ++ u ≡ₚ p' ++ r ->
  (p' ++ R) ++ U ≡ₚ P ++ Rt ->
  (p ++ R) ++ (u ++ U) ≡ₚ P ++ (r ++ Rt).
Proof.
  intros H1 H2.
  transitivity ((p ++ u) ++ R ++ U); [solve_Permutation|].
  rewrite H1.
  transitivity (r ++ ((p' ++ R) ++ U)); [solve_Permutation|].
  rewrite H2. solve_Permutation.
Qed.

Lemma run_events C sched : forall L0 s0 s,
  inv C L0 s0 -> run sched s0 = Some s ->
  exists L,
    inv C L s /\
    L0.*2 ++ linked_in (history sched s0)
    = unlinked_in (history sched s0) ++ L.*2 /\
    flat_map pending (threads s0) ++ passed_in (history sched s0)
    ≡ₚ flat_map pending (threads s) ++ linked_in (history sched s0)
       ++ dropped_in (history sched s0) /\
    flat_map holding (threads s0) ++ unlinked_in (history sched s0)
    ≡ₚ flat_map holding (threads s) ++ returned_in (history sched s0).
Proof.
  induction sched as [|[t e] sched IH]; intros L0 s0 s Hinv Hrun;
    simpl in Hrun.
  - simplify_eq. exists L0. simpl. rewrite !app_nil_r. done.
  - destruct (step t e s0) as [s1| | |] eqn:Hstep; try done.
    destruct (step_thread _ _ _ _ Hstep) as [st Ht].
    pose proof (step_inv _ _ _ _ _ _ _ Hinv Ht Hstep) as Hinv1.
    destruct (step_events _ _ _ _ _ _ _ Hinv Ht Hstep)
      as (st' & Hth & Hord & Hpend & Hhold).
    destruct (IH _ _ _ Hinv1 Hrun) as (L & HinvL & IHord & IHpend & IHhold).
    destruct (flat_map_insert pending _ _ _ Ht) as (Rp & Hp0 & Hp1).
    destruct (flat_map_insert holding _ _ _ Ht) as (Rh & Hh0 & Hh1).
    rewrite Hth in IHpend, IHhold.
    rewrite (Hp1 st') in IHpend. rewrite (Hh1 st') in IHhold.
    exists L. simpl. rewrite Ht, Hstep.
    unfold passed_in, dropped_in, linked_in, unlinked_in, returned_in in *.
    rewrite !omap_app.
    split_and!; [done| | |].
    + rewrite (assoc (++)), Hord, <- (assoc (++)), IHord.
      by rewrite (assoc (++)).
    + rewrite Hp0. eapply conserve_step; [exact Hpend|exact IHpend].
    + rewrite Hh0. eapply hold_step; [exact Hhold|exact IHhold].
Qed.

Lemma flat_map_fresh {A} (f : tstate -> list A) (pool : list tstate) :
  (forall st, fresh_thread st = true -> f st = []) ->
  forallb fresh_thread pool = true -> flat_map f pool = [].
Proof.
  intros Hf. induction pool as [|x l IH]; simpl; [done|].
  intros [Hx Hl]%andb_prop. by rewrite (Hf x Hx), IH.
Qed.

Lemma threads_boot fopen_ok size pool :
  threads (boot fopen_ok size pool) = pool.
Proof. by destruct fopen_ok. Qed.

(** X10 (first linked, first unlinked, under any interleaving).  Run the
    program from the initialised queue under any schedule.  The packets
    that lines 128/130 have linked into the list, in the order of these
    statements, are the packets that line 165 has unlinked, in the order
    of those statements, followed by the packets still stored: packets
    leave the list in exactly the order in which they entered it, whatever
    the threads and however they interleave. *)
Theorem unlink_order_is_link_order fopen_ok size pool sched s :
  (0 <= size <= INT_MAX)%Z ->
  forallb fresh_thread pool = true ->
  run sched (boot fopen_ok size pool) = Some s ->
  linked_in (history sched (boot fopen_ok size pool))
  = unlinked_in (history sched (boot fopen_ok size pool)) ++ items s.
Proof.
  intros Hsz Hpool Hrun.
  pose proof (inv_boot fopen_ok size pool Hsz Hpool) as Hinv0.
  destruct (run_events _ _ _ _ _ Hinv0 Hrun) as (L & Hinv & Hord & _).
  by rewrite (inv_items_eq _ _ _ Hinv), <- Hord.
Qed.

Lemma unlink_order_is_link_order_witness :
  run sample_sched (boot true 2 two_clients)
  = Some (after_run 2 two_clients sample_sched) /\
  linked_in (history sample_sched (boot true 2 two_clients))
  = unlinked_in (history sample_sched (boot true 2 two_clients))
    ++ items (after_run 2 two_clients sample_sched).
Proof.
  assert (run sample_sched (boot true 2 two_clients)
          = Some (after_run 2 two_clients sample_sched)) as Hrun
    by (vm_compute; reflexivity).
  split; [exact Hrun|].
  apply (unlink_order_is_link_order true 2 two_clients sample_sched _
           ltac:(unfold INT_MAX; lia) eq_refl Hrun).
Defined.

(** X11 (no packet is lost or duplicated, under any interleaving).  Run
    the program from the initialised queue under any schedule.  As
    multisets, the packets passed to [enqueue] so far are: the packets
    [enqueue] dropped at line 118 because [malloc] failed, the packets
    [dequeue] calls have returned, the packets unlinked by [dequeue] calls
    that have not returned yet, the packets stored in the list, and the
    packets of [enqueue] calls that have not linked their node yet.  In
    particular every packet returned by [dequeue] was passed to
    [enqueue], and none is returned twice. *)
Theorem packets_conserved fopen_ok size pool sched s :
  (0 <= size <= INT_MAX)%Z ->
  forallb fresh_thread pool = true ->
  run sched (boot fopen_ok size pool) = Some s ->
  passed_in (history sched (boot fopen_ok size pool))
  ≡ₚ dropped_in (history sched (boot fopen_ok size pool))
     ++ returned_in (history sched (boot fopen_ok size pool))
     ++ flat_map holding (threads s)
     ++ items s
     ++ flat_map pending (threads s).
Proof.
  intros Hsz Hpool Hrun.
  pose proof (inv_boot fopen_ok size pool Hsz Hpool) as Hinv0.
  destruct (run_events _ _ _ _ _ Hinv0 Hrun) as (L & Hinv & Hord & Hp & Hh).
  rewrite threads_boot in Hp, Hh.
  rewrite (flat_map_fresh pending) in Hp
    by (done || by intros [[]| | |? []]).
  rewrite (flat_map_fresh holding) in Hh
    by (done || by intros [[]| | |? []]).
  simpl in *. rewrite (inv_items_eq _ _ _ Hinv), Hp, Hord, Hh.
  solve_Permutation.
Qed.

Lemma packets_conserved_witness :
  run sample_sched (boot true 2 two_clients)
  = Some (after_run 2 two_clients sample_sched) /\
  passed_in (history sample_sched (boot true 2 two_clients))
  ≡ₚ dropped_in (history sample_sched (boot true 2 two_clients))
     ++ returned_in (history sample_sched (boot true 2 two_clients))
     ++ flat_map holding (threads (after_run 2 two_clients sample_sched))
     ++ items (after_run 2 two_clients sample_sched)
     ++ flat_map pending (threads (after_run 2 two_clients sample_sched)).
Proof.
  assert (run sample_sched (boot true 2 two_clients)
          = Some (after_run 2 two_clients sample_sched)) as Hrun
    by (vm_compute; reflexivity).
  split; [exact Hrun|].
  apply (packets_conserved true 2 two_clients sample_sched _
           ltac:(unfold INT_MAX; lia) eq_refl Hrun).
Defined.

(** ** Logging *)

Lemma step_mute t e s s' :
  forget_log s = forget_log s' ->
  match step t e s, step t (mute e) s' with
  | Step a, Step b => forget_log a = forget_log b
  | Blocked, Blocked | Undefined, Undefined | Refused, Refused => True
  | _, _ => False
  end.
Proof.
  destruct s as [q h th lg], s' as [q' h' th' lg'].
  unfold forget_log, set_logfile. simpl. intros [= -> -> ->].
  unfold step. simpl.
  destruct e as [ec em en eb er ef].
  destruct (th' !! t) as [[r|k d n pc|d tmp pc|pk pc]|]; simpl; [|destruct pc..|done];
    simpl; unfold_prims; simpl; destruct ef; simpl;
    repeat (case_match; simplify_eq/=; try done); done.
Qed.

Lemma run_mute sched : forall s s',
  forget_log s = forget_log s' ->
  forget_log <$> run sched s = forget_log <$> run (mute_all sched) s'.
Proof.
  induction sched as [|[t e] sched IH]; intros s s' H; simpl.
  - by rewrite H.
  - pose proof (step_mute t e s s' H) as Hstep.
    destruct (step t e s), (step t (mute e) s'); try done.
    by apply IH.
Qed.

(** X12 (logging is best effort).  Whether the calls of [fopen] in
    [log_message] succeed or fail has no influence on the program: a
    schedule run with every [fopen] failing gets exactly as far, and
    reaches the same queue, heap and thread states, as the same schedule
    run with the [fopen] results it was given; only the contents of the
    log file differ. *)
Theorem logging_is_best_effort sched s :
  forget_log <$> run sched s = forget_log <$> run (mute_all sched) s.
Proof. by apply run_mute. Qed.

Lemma step_log t e s s' :
  step t e s = Step s' ->
  logfile s' = logfile s \/
  exists m, logfile s' = logfile s ++ [m] /\ e_fopen e = true.
Proof.
  unfold step.
  destruct (threads s !! t) as [[r|k d n pc|d tmp pc|pk pc]|]; simpl;
    [|destruct pc..|done]; simpl; unfold_prims;
    destruct (e_fopen e); simpl;
    repeat (case_match; simplify_eq/=; try done);
    intros; simplify_eq/=; eauto.
Qed.

(** X13 (the log is append-only).  Along any run of the program the log
    file only grows at its end: what it held before is a prefix of what it
    holds afterwards, and a run of [n] statements adds at most [n]
    lines. *)
Theorem log_is_append_only sched s s' :
  run sched s = Some s' ->
  logfile s `prefix_of` logfile s' /\
  length (logfile s') <= length (logfile s) + length sched.
Proof.
  revert s. induction sched as [|[t e] sched IH]; intros s Hrun;
    simpl in Hrun.
  - simplify_eq. split; [done|lia].
  - destruct (step t e s) as [s1| | |] eqn:Hstep; try done.
    destruct (IH _ Hrun) as [Hpre Hlen].
    destruct (step_log _ _ _ _ Hstep) as [Heq|(m & Heq & _)];
      rewrite Heq in *; simpl.
    + split; [done|lia].
    + split.
      * etransitivity; [|exact Hpre]. by apply prefix_app_r.
      * rewrite length_app in Hlen. simpl in Hlen. lia.
Qed.

Lemma log_is_append_only_witness :
  run sample_sched (boot true 2 two_clients)
  = Some (after_run 2 two_clients sample_sched) /\
  logfile (boot true 2 two_clients)
  `prefix_of` logfile (after_run 2 two_clients sample_sched).
Proof.
  assert (run sample_sched (boot true 2 two_clients)
          = Some (after_run 2 two_clients sample_sched)) as Hrun
    by (vm_compute; reflexivity).
  split; [exact Hrun|].
  apply (log_is_append_only sample_sched _ _ Hrun).
Defined.

(** ** More of the writer loop *)

Lemma get_external_data_bound r buf n b v :
  (0 <= r)%Z -> (0 < n)%Z ->
  get_external_data r buf n = Some (b, v) -> (0 <= v < n)%Z.
Proof.
  intros Hr Hn. unfold get_external_data.
  pose proof (Z.rem_bound_pos r n Hr Hn) as Hrem.
  destruct (n =? 0)%Z; [done|].
  destruct (n <? Z.rem r n)%Z eqn:E; [apply Z.ltb_lt in E; lia|].
  destruct (strncpy _ _ _); intros; simplify_eq. lia.
Qed.

(** X14 (a positive length is enqueued).  Let a writer stand at line 254
    in a state the program can reach.  If [get_external_data] returns a
    length [n > 0], then after five statements the writer is at the first
    line of [enqueue] with the packet [{data, n, 0, 0}], where [data] is
    its buffer, which now holds what [get_external_data] wrote; the queue
    has not been touched yet. *)
Theorem positive_length_is_enqueued size pool s t pk e0 e1 e2 e3 e4 :
  (0 <= size <= INT_MAX)%Z ->
  reachable size pool s ->
  threads s !! t = Some (InWriter pk W254) ->
  (0 <= e_rand e0 <= INT_MAX)%Z ->
  exists a buf b n,
    pk_data pk = Some a /\
    heap s !! a = Some (BBuf buf) /\
    get_external_data (e_rand e0) buf 1024 = Some (b, n) /\
    ((0 < n)%Z ->
     exists s',
       run [(t, e0); (t, e1); (t, e2); (t, e3); (t, e4)] s = Some s' /\
       threads s'
       = <[t := InEnqueue FromWriter (mkDataPacket (Some a) n 0 0) NULL E114]>
           (threads s) /\
       heap s' = <[a := BBuf b]> (heap s) /\
       dataQueue s' = dataQueue s).
Proof.
  intros Hsz Hreach Ht Hrand.
  destruct (reachable_inv _ _ _ Hsz Hreach) as [L Hinv].
  pose proof (lookup_lt_Some _ _ _ Ht) as Hlt.
  destruct (inv_priv _ _ _ Hinv _ _ Ht) as (a & buf & Hpk & Hbuf & Hlen).
  destruct (get_external_data_some (e_rand e0) buf 1024) as [b Hget];
    [lia..|].
  exists a, buf, b, (Z.rem (e_rand e0) 1024).
  split_and!; [done..|]. intros Hn.
  assert ((e_rand e0 <? 0)%Z || (INT_MAX <? e_rand e0)%Z = false) as Hchk.
  { apply orb_false_intro; apply Z.ltb_ge; lia. }
  set (n := Z.rem (e_rand e0) 1024) in *. clearbody n.
  set (pk1 := with_size n pk).
  set (pk2 := with_eventId 0 pk1).
  set (pk3 := with_eventCorrelationId 0 pk2).
  set (s1 := set_thread t (InWriter pk1 W255)
               (set_heap (<[a := BBuf b]> (heap s)) s)).
  set (s2 := set_thread t (InWriter pk2 W256) s1).
  set (s3 := set_thread t (InWriter pk3 W258) s2).
  set (s4 := set_thread t (InWriter pk3 W259) s3).
  set (s5 := set_thread t (InEnqueue FromWriter pk3 NULL E114) s4).
  assert (step t e0 s = Step s1) as H1.
  { unfold step. rewrite Ht. simpl. rewrite Hchk, Hpk. simpl.
    rewrite Hbuf, Hget. done. }
  assert (step t e1 s1 = Step s2) as H2.
  { unfold step. simpl. by rewrite list_lookup_insert_eq. }
  assert (step t e2 s2 = Step s3) as H3.
  { unfold step. simpl.
    by rewrite list_lookup_insert_eq by (by rewrite ?length_insert). }
  assert (step t e3 s3 = Step s4) as H4.
  { unfold step. simpl.
    rewrite list_lookup_insert_eq by (by rewrite ?length_insert). simpl.
    destruct (0 <? n)%Z eqn:E; [done|apply Z.ltb_ge in E; lia]. }
  assert (step t e4 s4 = Step s5) as H5.
  { unfold step. simpl.
    by rewrite list_lookup_insert_eq by (by rewrite ?length_insert). }
  exists s5. split_and!.
  - simpl. by rewrite H1, H2, H3, H4, H5.
  - simpl. rewrite !list_insert_insert_eq. do 2 f_equal.
    unfold pk3, pk2, pk1, with_eventCorrelationId, with_eventId, with_size.
    simpl. by rewrite Hpk.
  - done.
  - done.
Qed.

Lemma positive_length_is_enqueued_witness :
  (reachable 2 one_writer sample_writer /\
   threads sample_writer !! 0
   = Some (InWriter (with_data (Some 5) zero_packet) W254) /\
   (0 <= 3 <= INT_MAX)%Z) /\
  exists a buf b n,
    pk_data (with_data (Some 5) zero_packet) = Some a /\
    heap sample_writer !! a = Some (BBuf buf) /\
    get_external_data 3 buf 1024 = Some (b, n) /\
    ((0 < n)%Z ->
     exists s',
       run [(0, mkEnv None NULL (mkNode zero_packet NULL) [] 3 true);
            (0, sample_writer_env); (0, sample_writer_env);
            (0, sample_writer_env); (0, sample_writer_env)] sample_writer
       = Some s' /\
       threads s'
       = <[0 := InEnqueue FromWriter (mkDataPacket (Some a) n 0 0) NULL E114]>
           (threads sample_writer) /\
       heap s' = <[a := BBuf b]> (heap sample_writer) /\
       dataQueue s' = dataQueue sample_writer).
Proof.
  assert (threads sample_writer !! 0
          = Some (InWriter (with_data (Some 5) zero_packet) W254)) as Ht
    by (vm_compute; reflexivity).
  assert ((0 <= 3 <= INT_MAX)%Z) as Hr by (unfold INT_MAX; lia).
  split; [split; [exact reachable_sample_writer|split; [exact Ht|exact Hr]]|].
  apply (positive_length_is_enqueued 2 one_writer sample_writer 0
           (with_data (Some 5) zero_packet)
           (mkEnv None NULL (mkNode zero_packet NULL) [] 3 true)
           sample_writer_env sample_writer_env sample_writer_env
           sample_writer_env
           ltac:(unfold INT_MAX; lia) reachable_sample_writer Ht Hr).
Defined.

(** X15 ([enqueue] gives up: the payload is leaked).  Let a writer stand
    at the call of line 259 in a state the program can reach, and let the
    [malloc] of line 114 return [NULL].  After five statements the writer
    is back at the top of its loop with a fresh [packet]; the queue and
    the heap are exactly what they were, so the packet has not been stored
    and its buffer, to which no thread holds a pointer any more, is still
    allocated: unlike line 261, this path does not free it. *)
Theorem enqueue_failure_leaks_payload size pool s t pk e0 e1 e2 e3 e4 :
  (0 <= size <= INT_MAX)%Z ->
  reachable size pool s ->
  threads s !! t = Some (InWriter pk W259) ->
  e_malloc e1 = NULL ->
  exists a b s',
    pk_data pk = Some a /\
    run [(t, e0); (t, e1); (t, e2); (t, e3); (t, e4)] s = Some s' /\
    threads s' = <[t := InWriter zero_packet W249]> (threads s) /\
    dataQueue s' = dataQueue s /\
    heap s' = heap s /\
    heap s' !! a = Some (BBuf b) /\
    a ∉ owned (InWriter zero_packet W249).
Proof.
  intros Hsz Hreach Ht Hm.
  destruct (reachable_inv _ _ _ Hsz Hreach) as [L Hinv].
  pose proof (lookup_lt_Some _ _ _ Ht) as Hlt.
  destruct (inv_priv _ _ _ Hinv _ _ Ht) as (a & b & Hpk & Hbuf & _).
  set (s1 := set_thread t (InEnqueue FromWriter pk NULL E114) s).
  set (s2 := set_thread t (InEnqueue FromWriter pk NULL E115)
               (set_heap (heap s1) s1)).
  set (s3 := set_thread t (InEnqueue FromWriter pk NULL E117) s2).
  set (s4 := set_thread t (InEnqueue FromWriter pk NULL E118)
               (log_message (e_fopen e3)
                  "Error: Memory allocation failed for new node." s3)).
  set (s5 := set_thread t (InWriter zero_packet W249) s4).
  assert (forall ok m (s0 : state), threads (log_message ok m s0) = threads s0)
    as Hlogth by (by intros [] ? ?).
  assert (step t e0 s = Step s1) as H1.
  { unfold step. by rewrite Ht. }
  assert (step t e1 s1 = Step s2) as H2.
  { unfold step. simpl. rewrite list_lookup_insert_eq by done. simpl.
    by rewrite Hm. }
  assert (step t e2 s2 = Step s3) as H3.
  { unfold step. simpl.
    by rewrite list_lookup_insert_eq by (by rewrite ?length_insert). }
  assert (step t e3 s3 = Step s4) as H4.
  { unfold step. simpl.
    by rewrite list_lookup_insert_eq by (by rewrite ?length_insert). }
  assert (step t e4 s4 = Step s5) as H5.
  { unfold step. unfold s4 at 1. simpl. rewrite Hlogth. simpl.
    by rewrite list_lookup_insert_eq by (by rewrite ?length_insert). }
  exists a, b, s5. split_and!.
  - done.
  - simpl. by rewrite H1, H2, H3, H4, H5.
  - simpl. rewrite Hlogth. simpl. by rewrite !list_insert_insert_eq.
  - simpl. by destruct (e_fopen e3).
  - simpl. by destruct (e_fopen e3).
  - simpl. by destruct (e_fopen e3).
  - simpl. apply not_elem_of_nil.
Qed.

Lemma reachable_sample_calling : reachable 2 one_writer sample_calling.
Proof.
  apply (reachable_run 2 one_writer
           (sample_writer_sched ++ replicate 4 (0, sample_rand_env))).
  - reflexivity.
  - vm_compute. reflexivity.
Qed.

Lemma enqueue_failure_leaks_payload_witness :
  (reachable 2 one_writer sample_calling /\
   threads sample_calling !! 0
   = Some (InWriter (mkDataPacket (Some 5) 3 0 0) W259) /\
   e_malloc sample_rand_env = NULL) /\
  exists a b s',
    pk_data (mkDataPacket (Some 5) 3 0 0) = Some a /\
    run (replicate 5 (0, sample_rand_env)) sample_calling = Some s' /\
    threads s' = <[0 := InWriter zero_packet W249]> (threads sample_calling) /\
    dataQueue s' = dataQueue sample_calling /\
    heap s' = heap sample_calling /\
    heap s' !! a = Some (BBuf b) /\
    a ∉ owned (InWriter zero_packet W249).
Proof.
  assert (threads sample_calling !! 0
          = Some (InWriter (mkDataPacket (Some 5) 3 0 0) W259)) as Ht
    by (vm_compute; reflexivity).
  split; [split; [exact reachable_sample_calling|split; [exact Ht|]]|].
  - reflexivity.
  - apply (enqueue_failure_leaks_payload 2 one_writer sample_calling 0
             (mkDataPacket (Some 5) 3 0 0)
             sample_rand_env sample_rand_env sample_rand_env sample_rand_env
             sample_rand_env
             ltac:(unfold INT_MAX; lia) reachable_sample_calling Ht eq_refl).
Defined.

(** X16 (the writer cannot allocate).  When the [malloc] of line 249
    returns [NULL], the writer logs the failure and starts its loop again
    ([continue]): after four statements it is back at line 249,
    and neither the queue nor the heap has changed; the only trace is one
    line in the log. *)
Theorem writer_allocation_failure_retries s t pk e0 e1 e2 e3 :
  threads s !! t = Some (InWriter pk W249) ->
  e_malloc e0 = NULL ->
  length (e_bytes e0) = 1024 ->
  exists s',
    run [(t, e0); (t, e1); (t, e2); (t, e3)] s = Some s' /\
    threads s' = <[t := InWriter zero_packet W249]> (threads s) /\
    dataQueue s' = dataQueue s /\
    heap s' = heap s /\
    logfile s'
    = logfile (log_message (e_fopen e2)
                 "Error: Memory allocation failed for data packet." s).
Proof.
  intros Ht Hm Hlen.
  pose proof (lookup_lt_Some _ _ _ Ht) as Hlt.
  set (pk1 := with_data NULL pk).
  set (s1 := set_thread t (InWriter pk1 W250) (set_heap (heap s) s)).
  set (s2 := set_thread t (InWriter pk1 W251) s1).
  set (s3 := set_thread t (InWriter pk1 W252)
               (log_message (e_fopen e2)
                  "Error: Memory allocation failed for data packet." s2)).
  set (s4 := set_thread t (InWriter zero_packet W249) s3).
  assert (forall ok m (s0 : state), threads (log_message ok m s0) = threads s0)
    as Hlogth by (by intros [] ? ?).
  assert (step t e0 s = Step s1) as H1.
  { unfold step. rewrite Ht. simpl. rewrite Hlen, Hm. done. }
  assert (step t e1 s1 = Step s2) as H2.
  { unfold step. simpl. by rewrite list_lookup_insert_eq. }
  assert (step t e2 s2 = Step s3) as H3.
  { unfold step. simpl.
    by rewrite list_lookup_insert_eq by (by rewrite ?length_insert). }
  assert (step t e3 s3 = Step s4) as H4.
  { unfold step. unfold s3 at 1. simpl. rewrite Hlogth. simpl.
    by rewrite list_lookup_insert_eq by (by rewrite ?length_insert). }
  exists s4. split_and!.
  - simpl. by rewrite H1, H2, H3, H4.
  - simpl. rewrite Hlogth. simpl. by rewrite !list_insert_insert_eq.
  - simpl. by destruct (e_fopen e2).
  - simpl. by destruct (e_fopen e2).
  - simpl. by destruct (e_fopen e2).
Qed.

Lemma writer_allocation_failure_retries_witness :
  (threads (boot true 2 one_writer) !! 0 = Some (InWriter zero_packet W249) /\
   e_malloc sample_rand_env = NULL /\
   length (e_bytes sample_rand_env) = 1024) /\
  exists s',
    run (replicate 4 (0, sample_rand_env)) (boot true 2 one_writer) = Some s' /\
    threads s'
    = <[0 := InWriter zero_packet W249]> (threads (boot true 2 one_writer)) /\
    dataQueue s' = dataQueue (boot true 2 one_writer) /\
    heap s' = heap (boot true 2 one_writer) /\
    logfile s'
    = logfile (log_message (e_fopen sample_rand_env)
                 "Error: Memory allocation failed for data packet."
                 (boot true 2 one_writer)).
Proof.
  split; [split_and!; reflexivity|].
  apply (writer_allocation_failure_retries (boot true 2 one_writer) 0
           zero_packet sample_rand_env sample_rand_env sample_rand_env
           sample_rand_env eq_refl eq_refl eq_refl).
Defined.

(** ** Packets made by the writer *)

Lemma step_writer_ok C L s t e st s' :
  inv C L s ->
  threads s !! t = Some st ->
  step t e s = Step s' ->
  (forall u su, threads s !! u = Some su -> writer_ok su) ->
  forall u su, threads s' !! u = Some su -> writer_ok su.
Proof.
  intros Hinv Ht Hstep Hall u su Hu.
  pose proof (Hall _ _ Ht) as Hok.
  step_cases Hinv Ht Hstep; simpl in *;
    destruct (lookup_set_thread _ _ _ _ _ _ Ht Hu) as [[-> ->]|[Hne Hu']];
    try (by eapply Hall); simpl; try done.
  - match goal with
    | E : _ || _ = false, G : get_external_data _ _ _ = Some _ |- _ =>
        apply orb_false_elim in E as [Hlo _]; apply Z.ltb_ge in Hlo;
        pose proof (get_external_data_bound _ _ 1024 _ _ Hlo eq_refl G)
    end. lia.
  - tauto.
  - match goal with E : (0 <? _)%Z = true |- _ => apply Z.ltb_lt in E end.
    split_and!; [lia|lia|tauto|tauto].
  - unfold well_formed.
    match goal with E : pk_data _ = Some _ |- _ => rewrite E end.
    split_and!; [done|lia|lia|tauto|tauto].
Qed.

Lemma step_producer s t e s' :
  step t e s = Step s' ->
  (forall u su, threads s !! u = Some su -> producer su = true) ->
  forall u su, threads s' !! u = Some su -> producer su = true.
Proof.
  intros Hstep Hall u su Hu.
  destruct (step_thread _ _ _ _ Hstep) as [st Ht].
  pose proof (Hall _ _ Ht) as Hp.
  unfold step in Hstep. rewrite Ht in Hstep.
  destruct st as [ret | k d n pc | d tmp pc | pk pc]; try done.
  - destruct k; [done|]. destruct pc; simpl in Hstep; unfold_prims;
      repeat (case_match; simplify_eq/=; try done); simplify_eq/=;
      destruct (lookup_set_thread _ _ _ _ _ _ Ht Hu) as [[-> ->]|[Hne Hu']];
      by eauto.
  - destruct pc; simpl in Hstep; unfold_prims;
      repeat (case_match; simplify_eq/=; try done); simplify_eq/=;
      destruct (lookup_set_thread _ _ _ _ _ _ Ht Hu) as [[-> ->]|[Hne Hu']];
      by eauto.
Qed.

Lemma step_stored C L s t e st s' :
  inv C L s ->
  threads s !! t = Some st ->
  step t e s = Step s' ->
  writer_ok st -> producer st = true ->
  Forall well_formed L.*2 ->
  Forall well_formed (abs_step st L).*2.
Proof.
  intros Hinv Ht Hstep Hok Hp HL.
  destruct st as [ret | k d n pc | d tmp pc | pk pc]; try done.
  destruct k; [done|].
  pose proof (inv_priv _ _ _ Hinv _ _ Ht) as Hpriv.
  destruct pc; simpl in *; try done;
    destruct_exists; subst; simpl;
    rewrite fmap_app; apply Forall_app; (split; [done|]);
    by apply Forall_singleton.
Qed.

Lemma run_writers C sched : forall L s s',
  inv C L s ->
  (forall u su, threads s !! u = Some su -> writer_ok su) ->
  run sched s = Some s' ->
  (forall u su, threads s' !! u = Some su -> writer_ok su) /\
  ((forall u su, threads s !! u = Some su -> producer su = true) ->
   Forall well_formed L.*2 ->
   (forall u su, threads s' !! u = Some su -> producer su = true) /\
   Forall well_formed (items s')).
Proof.
  induction sched as [|[t e] sched IH]; simpl; intros L s s' Hinv Hok Hrun.
  - simplify_eq. split; [done|]. intros Hp HL. split; [done|].
    by rewrite (inv_items_eq _ _ _ Hinv).
  - destruct (step t e s) as [s1| | |] eqn:Hstep; try done.
    destruct (step_thread _ _ _ _ Hstep) as [st Ht].
    pose proof (step_inv _ _ _ _ _ _ _ Hinv Ht Hstep) as Hinv1.
    pose proof (step_writer_ok _ _ _ _ _ _ _ Hinv Ht Hstep Hok) as Hok1.
    destruct (IH _ _ _ Hinv1 Hok1 Hrun) as [IH1 IH2].
    split; [done|]. intros Hp HL. apply IH2.
    + by eapply step_producer.
    + eapply step_stored; eauto.
Qed.

Lemma fresh_writer_ok pool :
  forallb fresh_thread pool = true ->
  forall u su, pool !! u = Some su -> writer_ok su.
Proof.
  intros Hpool u su Hu. rewrite forallb_forall in Hpool.
  apply list_elem_of_lookup_2, list_elem_of_In, Hpool in Hu.
  by destruct su as [[]| | |? []].
Qed.

(** X17 (what the writer passes to [enqueue]).  In every state the program
    can reach, a call of [enqueue] made by a writer has a packet with a
    buffer ([data] is not [NULL]), a length between 1 and 1023 and both
    identifiers zero: the test of line 258 lets nothing else through. *)
Theorem writer_enqueues_well_formed size pool s t d n pc :
  (0 <= size <= INT_MAX)%Z ->
  reachable size pool s ->
  threads s !! t = Some (InEnqueue FromWriter d n pc) ->
  pk_data d <> NULL /\ (1 <= pk_size d <= 1023)%Z /\
  pk_eventId d = 0%Z /\ pk_eventCorrelationId d = 0%Z.
Proof.
  intros Hsz (Hpool & ok & sched & Hrun) Ht.
  pose proof (inv_boot ok size pool Hsz Hpool) as Hinv.
  assert (forall u su, threads (boot ok size pool) !! u = Some su ->
                       writer_ok su) as Hfresh.
  { rewrite threads_boot. by apply fresh_writer_ok. }
  destruct (run_writers _ _ _ _ _ Hinv Hfresh Hrun) as [Hok _].
  destruct (Hok _ _ Ht) as (H1 & H2 & H3 & H4). split_and!; [done|lia|lia|done..].
Qed.

Lemma writer_enqueues_well_formed_witness :
  (reachable 2 one_writer sample_in_call /\
   threads sample_in_call !! 0
   = Some (InEnqueue FromWriter sample_built NULL E114)) /\
  (pk_data sample_built <> NULL /\
   (1 <= pk_size sample_built <= 1023)%Z /\
   pk_eventId sample_built = 0%Z /\
   pk_eventCorrelationId sample_built = 0%Z).
Proof.
  assert (reachable 2 one_writer sample_in_call) as Hreach.
  { apply (reachable_run 2 one_writer
             (sample_writer_sched ++ replicate 5 (0, sample_rand_env)));
      [reflexivity|vm_compute; reflexivity]. }
  assert (threads sample_in_call !! 0
          = Some (InEnqueue FromWriter sample_built NULL E114))
    as Ht by (vm_compute; reflexivity).
  split; [split; [exact Hreach|exact Ht]|].
  apply (writer_enqueues_well_formed 2 one_writer sample_in_call 0
           sample_built NULL E114
           ltac:(unfold INT_MAX; lia) Hreach Ht).
Defined.

(** X18 (what a consumer can find).  When every thread of the program is
    a writer, as are the producers that [main] starts, every packet stored
    in the queue, in every reachable state, has a buffer, a length between
    1 and 1023 and both identifiers zero; no stored packet has the length
    zero or a negative length. *)
Theorem writers_store_well_formed size pool s :
  (0 <= size <= INT_MAX)%Z ->
  reachable size pool s ->
  forallb producer pool = true ->
  Forall (fun d => pk_data d <> NULL /\ (1 <= pk_size d <= 1023)%Z /\
                   pk_eventId d = 0%Z /\ pk_eventCorrelationId d = 0%Z)
         (items s).
Proof.
  intros Hsz (Hpool & ok & sched & Hrun) Hprod.
  pose proof (inv_boot ok size pool Hsz Hpool) as Hinv.
  assert (forall u su, threads (boot ok size pool) !! u = Some su ->
                       writer_ok su) as Hfresh.
  { rewrite threads_boot. by apply fresh_writer_ok. }
  destruct (run_writers _ _ _ _ _ Hinv Hfresh Hrun) as [_ HL].
  destruct HL as [_ HL].
  - rewrite threads_boot. intros u su Hu. rewrite forallb_forall in Hprod.
    by apply list_elem_of_lookup_2, list_elem_of_In, Hprod in Hu.
  - constructor.
  - eapply Forall_impl; [exact HL|].
    intros d (H1 & H2 & H3 & H4). split_and!; [done|lia|lia|done..].
Qed.

Lemma writers_store_well_formed_witness :
  (reachable 2 two_writers sample_produced /\
   forallb producer two_writers = true /\
   items sample_produced = [sample_built]) /\
  Forall (fun d => pk_data d <> NULL /\ (1 <= pk_size d <= 1023)%Z /\
                   pk_eventId d = 0%Z /\ pk_eventCorrelationId d = 0%Z)
         (items sample_produced).
Proof.
  assert (reachable 2 two_writers sample_produced) as Hreach.
  { apply (reachable_run 2 two_writers
             (sample_writer_sched ++ replicate 4 (0, sample_rand_env)
              ++ replicate 13 (0, sample_link_env)));
      [reflexivity|vm_compute; reflexivity]. }
  split; [split; [exact Hreach|split; [reflexivity|vm_compute; reflexivity]]|].
  apply (writers_store_well_formed 2 two_writers sample_produced
           ltac:(unfold INT_MAX; lia) Hreach eq_refl).
Defined.

(** ** Nodes and buffers *)

Lemma trail_chain h p L n :
  chain h p L -> length L <= n -> trail n h p = L.*1.
Proof.
  revert p n. induction L as [|[a d] L IH]; intros p n.
  - simpl. intros -> _. destruct n; done.
  - simpl. intros (-> & nx & Ha & Hc) Hn. destruct n as [|n]; [lia|].
    simpl. rewrite Ha. simpl. f_equal. apply IH; [done|lia].
Qed.

Lemma inv_cells C L s : inv C L s -> cells s = L.*1.
Proof.
  intros Hinv. unfold cells. apply trail_chain; [by eapply inv_chain|].
  eapply chain_length_heap; [by eapply inv_chain|].
  pose proof (inv_own _ _ _ Hinv) as Hnd. apply NoDup_app in Hnd. tauto.
Qed.

Lemma step_nodes C L s t e st s' :
  inv C L s ->
  threads s !! t = Some st ->
  step t e s = Step s' ->
  nodes_accounted L s ->
  nodes_accounted (abs_step st L) s'.
Proof.
  intros Hinv Ht Hstep Hacc.
  destruct (owned_insert _ _ _ Ht) as (R & HR & HR' & _).
  unfold nodes_accounted in *. setoid_rewrite HR in Hacc.
  step_cases Hinv Ht Hstep; simpl in *; intros a' nd' Ha';
    rewrite ?HR'; rewrite ?fmap_app; simpl;
    repeat match goal with
           | G : <[_:=_]> _ !! _ = Some _ |- _ =>
               apply lookup_insert_Some in G as [[<- ?]|[? G]]
           | G : delete _ _ !! _ = Some _ |- _ =>
               apply lookup_delete_Some in G as [? G]
           end;
    simplify_eq/=;
    repeat match goal with
           | G : heap s !! _ = Some (BNode _) |- _ =>
               pose proof (Hacc _ _ G); revert G
           end;
    intros;
    repeat match goal with
           | G : pk_data ?pk = _, G' : context [pk_data ?pk] |- _ =>
               rewrite G in G'; simpl in G'
           | G : pk_data ?pk = _ |- context [pk_data ?pk] =>
               rewrite G; simpl
           end;
    try set_solver.
  - pose proof (inv_chain _ _ _ Hinv) as [Hhd _]. set_solver.
Qed.

Lemma run_nodes C sched : forall L s s',
  inv C L s -> nodes_accounted L s -> run sched s = Some s' ->
  exists L', inv C L' s' /\ nodes_accounted L' s'.
Proof.
  induction sched as [|[t e] sched IH]; simpl; intros L s s' Hinv Hacc Hrun.
  - simplify_eq. eauto.
  - destruct (step t e s) as [s1| | |] eqn:Hstep; try done.
    destruct (step_thread _ _ _ _ Hstep) as [st Ht].
    eapply IH; [| |done].
    + by eapply step_inv.
    + by eapply step_nodes.
Qed.

Lemma reachable_nodes size pool s :
  (0 <= size <= INT_MAX)%Z ->
  reachable size pool s ->
  exists L, inv (Z.to_nat size) L s /\ nodes_accounted L s.
Proof.
  intros Hsz (Hpool & ok & sched & Hrun).
  eapply run_nodes; [by apply inv_boot| |done].
  intros a nd Ha. by destruct ok.
Qed.

Lemma owned_writer_buffer h pk pc a :
  priv_ok h (InWriter pk pc) -> a ∈ owned (InWriter pk pc) ->
  exists b, h !! a = Some (BBuf b).
Proof.
  intros Hpriv Ha.
  destruct pc; simpl in *; try (by apply not_elem_of_nil in Ha);
    destruct (pk_data pk) as [a0|] eqn:Hd; simpl in Ha;
    try (by apply not_elem_of_nil in Ha);
    apply list_elem_of_singleton in Ha as ->;
    try discriminate Hpriv.
  - destruct (Hpriv a0 eq_refl) as (b & Hb & _). eauto.
  - destruct Hpriv as (a1 & b & ? & Hb & _). simplify_eq. eauto.
  - destruct Hpriv as (a1 & b & ? & Hb & _). simplify_eq. eauto.
  - destruct Hpriv as (a1 & b & ? & Hb & _). simplify_eq. eauto.
  - destruct Hpriv as (a1 & b & ? & Hb & _). simplify_eq. eauto.
  - destruct Hpriv as (a1 & b & ? & Hb & _). simplify_eq. eauto.
  - destruct Hpriv as (a1 & b & ? & Hb & _). simplify_eq. eauto.
Qed.

(** X19 (no node is leaked).  In every state the program can reach, every
    [Node] block of the heap is a node of the list or the one node a thread
    holds in [enqueue] before linking it ([newNode]) or in [dequeue] before
    freeing it ([temp]).  When no call is under way, the [Node] blocks of
    the heap are exactly the nodes of the list. *)
Theorem no_node_is_leaked size pool s a nd :
  (0 <= size <= INT_MAX)%Z ->
  reachable size pool s ->
  heap s !! a = Some (BNode nd) ->
  (a ∈ cells s \/
   exists t st, threads s !! t = Some st /\ a ∈ node_in_hand st) /\
  (quiescent s -> a ∈ cells s).
Proof.
  intros Hsz Hreach Ha.
  destruct (reachable_nodes _ _ _ Hsz Hreach) as (L & Hinv & Hacc).
  rewrite (inv_cells _ _ _ Hinv).
  pose proof (Hacc _ _ Ha) as Hin. apply elem_of_app in Hin.
  destruct Hin as [Hin|Hin]; [by split; [left|]|].
  apply list_elem_of_In, in_flat_map in Hin as (st & Hst & Hin).
  apply list_elem_of_In in Hin.
  apply list_elem_of_In, list_elem_of_lookup in Hst as [t Ht].
  split.
  - right. exists t, st. split; [done|].
    destruct st as [ret | k d n pc | d tmp pc | pk pc]; try done.
    destruct (owned_writer_buffer _ _ _ _ (inv_priv _ _ _ Hinv _ _ Ht) Hin)
      as [b Hb]. congruence.
  - intros Hq. specialize (Hq _ _ Ht).
    destruct st as [ret | k d n [] | d tmp [] | pk []]; try done;
      by apply not_elem_of_nil in Hin.
Qed.

Lemma no_node_is_leaked_witness :
  (reachable 2 two_writers sample_produced /\
   heap sample_produced !! 7 = Some (BNode (mkNode sample_built NULL))) /\
  (7 ∈ cells sample_produced \/
   exists t st, threads sample_produced !! t = Some st /\ 7 ∈ node_in_hand st) /\
  (quiescent sample_produced -> 7 ∈ cells sample_produced).
Proof.
  assert (reachable 2 two_writers sample_produced) as Hreach.
  { apply (reachable_run 2 two_writers
             (sample_writer_sched ++ replicate 4 (0, sample_rand_env)
              ++ replicate 13 (0, sample_link_env)));
      [reflexivity|vm_compute; reflexivity]. }
  assert (heap sample_produced !! 7 = Some (BNode (mkNode sample_built NULL)))
    as Ha by (vm_compute; reflexivity).
  split; [split; [exact Hreach|exact Ha]|].
  apply (no_node_is_leaked 2 two_writers sample_produced 7
           (mkNode sample_built NULL) ltac:(unfold INT_MAX; lia) Hreach Ha).
Defined.

Lemma step_buffers C L s t e st s' :
  inv C L s ->
  threads s !! t = Some st ->
  in_queue_code st = true ->
  step t e s = Step s' ->
  forall p, load_buf (heap s') p = load_buf (heap s) p.
Proof.
  intros Hinv Ht Hq Hstep.
  step_cases Hinv Ht Hstep; try done; intros [a|]; try done;
    unfold load_buf; cbn [heap set_heap set_thread set_queue log_message];
    try match goal with
        | |- context [<[?x:=_]> _ !! ?a] =>
            destruct (decide (a = x)) as [->|];
            [rewrite lookup_insert_eq|rewrite lookup_insert_ne by done]
        | |- context [delete ?x _ !! ?a] =>
            destruct (decide (a = x)) as [->|];
            [rewrite lookup_delete_eq|rewrite lookup_delete_ne by done]
        end;
    repeat match goal with G : heap s !! _ = _ |- _ => rewrite G end;
    try done.
Qed.

(** X20 (the queue leaves the payload alone).  In every state the program
    can reach, a statement of [enqueue] or [dequeue] allocates, frees and
    changes no payload buffer: a buffer address holds the same bytes
    before and after it.  The queue copies the [data] pointer of a packet
    and never follows it; in particular [dequeue] frees the node, not the
    buffer. *)
Theorem queue_leaves_payload_alone size pool s t e st s' p :
  (0 <= size <= INT_MAX)%Z ->
  reachable size pool s ->
  threads s !! t = Some st ->
  in_queue_code st = true ->
  step t e s = Step s' ->
  load_buf (heap s') p = load_buf (heap s) p.
Proof.
  intros Hsz Hreach Ht Hq Hstep.
  destruct (reachable_inv _ _ _ Hsz Hreach) as [L Hinv].
  by eapply step_buffers.
Qed.

Lemma queue_leaves_payload_alone_witness :
  (reachable 2 one_writer sample_in_call /\
   threads sample_in_call !! 0
   = Some (InEnqueue FromWriter sample_built NULL E114) /\
   step 0 sample_link_env sample_in_call = Step sample_node_made) /\
  load_buf (heap sample_node_made) (Some 5)
  = load_buf (heap sample_in_call) (Some 5).
Proof.
  assert (reachable 2 one_writer sample_in_call) as Hreach.
  { apply (reachable_run 2 one_writer
             (sample_writer_sched ++ replicate 5 (0, sample_rand_env)));
      [reflexivity|vm_compute; reflexivity]. }
  assert (threads sample_in_call !! 0
          = Some (InEnqueue FromWriter sample_built NULL E114))
    as Ht by (vm_compute; reflexivity).
  assert (step 0 sample_link_env sample_in_call = Step sample_node_made)
    as Hstep by (vm_compute; reflexivity).
  split; [split; [exact Hreach|split; [exact Ht|exact Hstep]]|].
  apply (queue_leaves_payload_alone 2 one_writer sample_in_call 0
           sample_link_env (InEnqueue FromWriter sample_built NULL E114)
           sample_node_made (Some 5)
           ltac:(unfold INT_MAX; lia) Hreach Ht eq_refl Hstep).
Defined.

Lemma step_consumer s t e st s' :
  threads s !! t = Some st ->
  producer st = false ->
  step t e s = Step s' ->
  exists st', threads s' !! t = Some st' /\ producer st' = false.
Proof.
  intros Ht Hp Hstep.
  pose proof (lookup_lt_Some _ _ _ Ht) as Hlt.
  unfold step in Hstep. rewrite Ht in Hstep.
  destruct st as [ret | k d n pc | d tmp pc | pk pc]; try done.
  - destruct (e_call e); simplify_eq/=;
      rewrite list_lookup_insert_eq by done; eauto.
  - destruct k; [|done]. destruct pc; simpl in Hstep; unfold_prims;
      repeat (case_match; simplify_eq/=; try done); simplify_eq/=;
      rewrite list_lookup_insert_eq by done; eauto.
  - destruct pc; simpl in Hstep; unfold_prims;
      repeat (case_match; simplify_eq/=; try done); simplify_eq/=;
      rewrite list_lookup_insert_eq by done; eauto.
Qed.

Lemma finish_buffers C t e fuel : forall L s s' st,
  inv C L s ->
  threads s !! t = Some st ->
  producer st = false ->
  finish fuel t e s = Step s' ->
  forall p, load_buf (heap s') p = load_buf (heap s) p.
Proof.
  induction fuel as [|fuel IH]; intros L s s' st Hinv Ht Hp Hfin p;
    rewrite finish_unfold, Ht in Hfin.
  - destruct st; by simplify_eq.
  - destruct st as [ret | k d n pc | d tmp pc | pk pc]; try done;
      try (by simplify_eq);
      destruct (step t e s) as [s1| | |] eqn:Hstep; try done;
      destruct (step_consumer _ _ _ _ _ Ht Hp Hstep) as (st1 & Ht1 & Hp1);
      rewrite (IH _ _ _ _ (step_inv _ _ _ _ _ _ _ Hinv Ht Hstep) Ht1 Hp1 Hfin);
      by eapply step_buffers.
Qed.

Lemma quiescent_no_nodes L s :
  nodes_accounted L s -> quiescent s ->
  forall a nd, heap s !! a = Some (BNode nd) -> a ∈ L.*1.
Proof.
  intros Hacc Hq a nd Ha.
  apply Hacc, elem_of_app in Ha as [Ha|Ha]; [done|].
  apply list_elem_of_In, in_flat_map in Ha as (st & Hst & Hin).
  apply list_elem_of_In, list_elem_of_lookup in Hst as [t Ht].
  specialize (Hq _ _ Ht).
  destruct st as [ret | k d n [] | d tmp [] | pk []]; done.
Qed.

Lemma heap_eq_buffers (h h' : gmap loc block) :
  (forall a nd, h !! a <> Some (BNode nd)) ->
  (forall a nd, h' !! a <> Some (BNode nd)) ->
  (forall p, load_buf h' p = load_buf h p) ->
  h' = h.
Proof.
  intros Hn Hn' Hb. apply map_eq. intros a.
  specialize (Hb (Some a)). simpl in Hb.
  destruct (h !! a) as [[nd|b]|] eqn:E, (h' !! a) as [[nd'|b']|] eqn:E';
    try (by destruct (Hn a nd)); try (by destruct (Hn' a nd'));
    congruence.
Qed.

Lemma quiescent_insert_client s s' t r r' :
  quiescent s -> threads s !! t = Some (Client r) ->
  threads s' = <[t := Client r']> (threads s) -> quiescent s'.
Proof.
  intros Hq Ht Hth u su Hu. rewrite Hth in Hu.
  destruct (lookup_set_thread _ _ _ _ _ _ Ht Hu) as [[-> ->]|[Hne Hu']];
    [done|by eapply Hq].
Qed.

Lemma empty_queue_record C s :
  inv C [] s -> quiescent s ->
  dataQueue s = mkQueue NULL NULL 0 0 C None.
Proof.
  intros Hinv Hq.
  destruct (quiescent_facts _ _ _ Hinv Hq) as (H1 & H2 & H3 & H4 & H5).
  pose proof (inv_chain _ _ _ Hinv) as Hhd. simpl in *.
  destruct (dataQueue s); simpl in *. f_equal; try done; lia.
Qed.

(** X21 ([enqueue] then [dequeue] on an empty queue).  On an empty queue
    between calls, in a state the program can reach and with capacity at
    least 1, a call [enqueue(p)] that gets its node followed by a call of
    [dequeue] returns [p] and leaves the queue record and the whole heap
    exactly as they were: the node made by the one call is freed by the
    other, [head] and [tail] are [NULL] again and the two semaphores have
    their old values. *)
Theorem enqueue_then_dequeue_restores size pool s t u e e' p r r' a :
  (1 <= size <= INT_MAX)%Z ->
  reachable size pool s ->
  quiescent s ->
  items s = [] ->
  threads s !! t = Some (Client r) ->
  threads s !! u = Some (Client r') ->
  e_malloc e = Some a ->
  heap s !! a = None ->
  exists s1 s2,
    call_enqueue t e p s = Step s1 /\
    call_dequeue u e' s1 = Step s2 /\
    returned u s2 = Some p /\
    dataQueue s2 = dataQueue s /\
    heap s2 = heap s.
Proof.
  intros Hsz Hreach Hq Hitems Ht Hu Hm Ha.
  assert ((0 <= size <= INT_MAX)%Z) as Hsz0 by lia.
  destruct (reachable_nodes _ _ _ Hsz0 Hreach) as (L & Hinv & Hacc).
  assert (L = []) as ->.
  { rewrite (inv_items_eq _ _ _ Hinv) in Hitems.
    by apply fmap_nil_inv in Hitems. }
  pose proof (call_enqueue_some _ _ _ _ e p _ _ Hinv Hq Ht Hm Ha) as Henq.
  destruct (Z.to_nat size <=? length (@nil (loc * DataPacket))) eqn:HC;
    [apply Nat.leb_le in HC; simpl in HC; lia|].
  destruct Henq as (s1 & Henq & Hinv1 & Hth1).
  assert (quiescent s1) as Hq1
    by (eapply quiescent_insert_client; [exact Hq|exact Ht|exact Hth1]).
  assert (exists r1, threads s1 !! u = Some (Client r1)) as [r1 Hu1].
  { rewrite Hth1. destruct (decide (u = t)) as [->|Hne].
    - rewrite list_lookup_insert_eq by (by eapply lookup_lt_Some). eauto.
    - rewrite list_lookup_insert_ne by done. eauto. }
  destruct (call_dequeue_spec _ _ _ _ e' _ Hinv1 Hq1 Hu1)
    as (s2 & Hdeq & Hinv2 & Hth2).
  assert (quiescent s2) as Hq2
    by (eapply quiescent_insert_client; [exact Hq1|exact Hu1|exact Hth2]).
  exists s1, s2. split_and!; [done..| | |].
  - unfold returned. rewrite Hth2.
    by rewrite list_lookup_insert_eq by (by eapply lookup_lt_Some).
  - by rewrite (empty_queue_record _ _ Hinv2 Hq2),
      (empty_queue_record _ _ Hinv Hq).
  - assert (reachable size pool s2) as Hreach2.
    { eapply call_dequeue_reachable; [|done].
      by eapply call_enqueue_reachable. }
    destruct (reachable_nodes _ _ _ Hsz0 Hreach2) as (L2 & Hinv2' & Hacc2).
    rewrite <- (inv_unique _ _ _ _ _ Hinv2 Hinv2') in Hacc2.
    apply heap_eq_buffers.
    + intros a0 nd Ha0.
      by apply (quiescent_no_nodes _ _ Hacc Hq), not_elem_of_nil in Ha0.
    + intros a0 nd Ha0.
      by apply (quiescent_no_nodes _ _ Hacc2 Hq2), not_elem_of_nil in Ha0.
    + intros q. transitivity (load_buf (heap s1) q).
      * unfold call_dequeue in Hdeq. rewrite Hu1 in Hdeq.
        apply (finish_buffers (Z.to_nat size) u e' 19 [(a, p)]
                 (set_thread u (InDequeue zero_packet NULL D151) s1) s2
                 (InDequeue zero_packet NULL D151)); [|  |done|done].
        -- eapply call_begin; eauto.
        -- apply set_thread_lookup. by eapply lookup_lt_Some.
      * unfold call_enqueue in Henq. rewrite Ht in Henq.
        apply (finish_buffers (Z.to_nat size) t e 16 []
                 (set_thread t (InEnqueue FromClient p NULL E114) s) s1
                 (InEnqueue FromClient p NULL E114)); [|  |done|done].
        -- eapply call_begin; eauto.
        -- apply set_thread_lookup. by eapply lookup_lt_Some.
Qed.

Lemma enqueue_then_dequeue_restores_witness :
  ((1 <= 2 <= INT_MAX)%Z /\
   reachable 2 two_clients (boot true 2 two_clients) /\
   quiescent (boot true 2 two_clients) /\
   items (boot true 2 two_clients) = [] /\
   threads (boot true 2 two_clients) !! 0 = Some (Client None) /\
   threads (boot true 2 two_clients) !! 1 = Some (Client None) /\
   e_malloc (sample_env (Some 4)) = Some 4 /\
   heap (boot true 2 two_clients) !! 4 = None) /\
  exists s1 s2,
    call_enqueue 0 (sample_env (Some 4)) (sample_packet 3)
      (boot true 2 two_clients) = Step s1 /\
    call_dequeue 1 (sample_env NULL) s1 = Step s2 /\
    returned 1 s2 = Some (sample_packet 3) /\
    dataQueue s2 = dataQueue (boot true 2 two_clients) /\
    heap s2 = heap (boot true 2 two_clients).
Proof.
  assert ((1 <= 2 <= INT_MAX)%Z) as Hsz by (unfold INT_MAX; lia).
  split.
  - split_and!; [lia|unfold INT_MAX; lia|by apply reachable_boot
                 |by apply quiescent_boot|reflexivity..].
  - apply (enqueue_then_dequeue_restores 2 two_clients
             (boot true 2 two_clients) 0 1 (sample_env (Some 4))
             (sample_env NULL) (sample_packet 3) None None 4 Hsz
             (reachable_boot 2 two_clients eq_refl)
             (quiescent_boot true 2 two_clients eq_refl)
             eq_refl eq_refl eq_refl eq_refl eq_refl).
Defined.

(** ** [process_data] and [reader_thread] *)

Lemma print_loop_take buffer count : forall i,
  i + count <= length buffer ->
  print_loop buffer i count = Some (Chr <$> take count (drop i buffer)).
Proof.
  induction count as [|count IH]; intros i Hlen; [done|].
  simpl. destruct (lookup_lt_is_Some_2 buffer i ltac:(lia)) as [c Hc].
  rewrite Hc, IH by lia.
  rewrite (drop_S _ _ _ Hc). by simpl.
Qed.

Lemma fill_spec c count : forall buffer i,
  i + count <= length buffer ->
  fill buffer c i count
  = take i buffer ++ replicate count c ++ drop (i + count) buffer.
Proof.
  induction count as [|count IH]; intros buffer i Hlen; simpl.
  - by rewrite Nat.add_0_r, take_drop.
  - rewrite IH by (rewrite length_insert; lia).
    rewrite (take_S_r _ _ c) by (apply list_lookup_insert_eq; lia).
    rewrite take_insert_ge by lia.
    rewrite drop_insert_lt by lia.
    rewrite <- (assoc_L (++)). simpl. by rewrite Nat.add_succ_r.
Qed.

Lemma process_data_some t h a b n :
  h !! a = Some (BBuf b) ->
  (0 <= n <= Z.of_nat (length b))%Z ->
  process_data t h (Some a) n
  = Some ([Text "thread "; Self t; Text " - "]
            ++ (Chr <$> take (Z.to_nat n) b) ++ [Newline],
          <[a := BBuf (replicate (Z.to_nat n) Ascii.zero
                         ++ drop (Z.to_nat n) b)]> h).
Proof.
  intros Ha Hn. unfold process_data, memset. rewrite Ha.
  rewrite print_loop_take by (simpl; lia).
  destruct (n <? 0)%Z eqn:E1; [apply Z.ltb_lt in E1; lia|].
  destruct (Z.of_nat (length b) <? n)%Z eqn:E2; [apply Z.ltb_lt in E2; lia|].
  simpl. rewrite fill_spec by (simpl; lia). by rewrite drop_0.
Qed.

(** X22 ([process_data] prints and clears).  Called by thread [t] on a
    live buffer with a length [n] between 0 and the size of the buffer,
    [process_data] prints the header, the first [n] bytes of the buffer in
    order and a line end; afterwards these [n] bytes are zero, the rest
    of the buffer and every other block of the heap are as before.  With
    a negative [n], or an [n] beyond the buffer, the call is undefined. *)
Theorem process_data_prints_and_clears t h a b n :
  h !! a = Some (BBuf b) ->
  ((0 <= n <= Z.of_nat (length b))%Z ->
   exists b',
     process_data t h (Some a) n
     = Some ([Text "thread "; Self t; Text " - "]
               ++ (Chr <$> take (Z.to_nat n) b) ++ [Newline],
             <[a := BBuf b']> h) /\
     length b' = length b /\
     take (Z.to_nat n) b' = replicate (Z.to_nat n) Ascii.zero /\
     drop (Z.to_nat n) b' = drop (Z.to_nat n) b) /\
  ((n < 0 \/ Z.of_nat (length b) < n)%Z ->
   process_data t h (Some a) n = None).
Proof.
  intros Ha. split.
  - intros Hn. eexists. split; [by apply process_data_some|].
    split_and!.
    + rewrite length_app, length_replicate, length_drop. lia.
    + by rewrite take_app_length' by (by rewrite length_replicate).
    + by rewrite drop_app_length' by (by rewrite length_replicate).
  - intros Hn. unfold process_data, memset. rewrite Ha.
    destruct (print_loop b 0 (Z.to_nat n)); [|done].
    destruct (n <? 0)%Z eqn:E1; [done|]. apply Z.ltb_ge in E1.
    destruct (Z.of_nat (length b) <? n)%Z eqn:E2; [done|].
    apply Z.ltb_ge in E2. lia.
Qed.

Lemma process_data_prints_and_clears_witness :
  (<[5 := BBuf (list_ascii_of_string "abcd")]> (∅ : gmap loc block) !! 5
   = Some (BBuf (list_ascii_of_string "abcd"))) /\
  ((0 <= 3 <= Z.of_nat (length (list_ascii_of_string "abcd")))%Z ->
   exists b',
     process_data 1 (<[5 := BBuf (list_ascii_of_string "abcd")]> ∅) (Some 5) 3
     = Some ([Text "thread "; Self 1; Text " - "]
               ++ (Chr <$> take (Z.to_nat 3) (list_ascii_of_string "abcd"))
               ++ [Newline],
             <[5 := BBuf b']> (<[5 := BBuf (list_ascii_of_string "abcd")]> ∅)) /\
     length b' = length (list_ascii_of_string "abcd") /\
     take (Z.to_nat 3) b' = replicate (Z.to_nat 3) Ascii.zero /\
     drop (Z.to_nat 3) b' = drop (Z.to_nat 3) (list_ascii_of_string "abcd")) /\
  ((3 < 0 \/ Z.of_nat (length (list_ascii_of_string "abcd")) < 3)%Z ->
   process_data 1 (<[5 := BBuf (list_ascii_of_string "abcd")]> ∅) (Some 5) 3
   = None).
Proof.
  assert (<[5 := BBuf (list_ascii_of_string "abcd")]> (∅ : gmap loc block) !! 5
          = Some (BBuf (list_ascii_of_string "abcd"))) as Ha
    by (vm_compute; reflexivity).
  split; [exact Ha|].
  apply (process_data_prints_and_clears 1
           (<[5 := BBuf (list_ascii_of_string "abcd")]> ∅) 5
           (list_ascii_of_string "abcd") 3 Ha).
Defined.

(** X23 (what the writer copies is what the reader prints).  Let
    [get_external_data] fill a buffer of 1024 bytes and return [n].  Then
    [process_data], called on that buffer with the length [n], prints the
    first [n] characters of [srcString], followed by NUL characters when
    [n] is more than the 62 characters of [srcString]. *)
Theorem writer_data_is_printed t h a rand buffer b n :
  (0 <= rand)%Z ->
  length buffer = 1024 ->
  get_external_data rand buffer 1024 = Some (b, n) ->
  h !! a = Some (BBuf b) ->
  exists h',
    process_data t h (Some a) n
    = Some ([Text "thread "; Self t; Text " - "]
              ++ (Chr <$> take (Z.to_nat n) srcString
                          ++ replicate (Z.to_nat n - 62) Ascii.zero)
              ++ [Newline], h').
Proof.
  intros Hr Hlen Hget Ha.
  pose proof (get_external_data_bound _ _ 1024 _ _ Hr eq_refl Hget) as Hn.
  pose proof (get_external_data_length _ _ _ _ _ Hget) as Hlen'.
  eexists. rewrite (process_data_some t h a b n Ha)
    by (rewrite Hlen', Hlen; lia).
  do 3 f_equal.
  unfold get_external_data in Hget. simpl in Hget.
  destruct (1024 <? Z.rem rand 1024)%Z; [simplify_eq; lia|].
  unfold strncpy in Hget.
  destruct (Z.to_nat (Z.rem rand 1024) <=? length buffer); [|done].
  simplify_eq.
  set (k := Z.to_nat (Z.rem rand 1024)). clearbody k.
  assert (length srcString = 62) as Hsrc by reflexivity.
  rewrite take_app_length'.
  - by rewrite take_app, take_replicate, Hsrc, Nat.min_id.
  - rewrite length_take, length_app, length_replicate, Hsrc. lia.
Qed.

Lemma writer_data_is_printed_witness :
  ((0 <= 3)%Z /\
   length sample_buffer = 1024 /\
   get_external_data 3 sample_buffer 1024 = Some (sample_filled, 3%Z) /\
   <[5 := BBuf sample_filled]> (∅ : gmap loc block) !! 5
   = Some (BBuf sample_filled)) /\
  exists h',
    process_data 1 (<[5 := BBuf sample_filled]> ∅) (Some 5) 3
    = Some ([Text "thread "; Self 1; Text " - "]
              ++ (Chr <$> take (Z.to_nat 3) srcString
                          ++ replicate (Z.to_nat 3 - 62) Ascii.zero)
              ++ [Newline], h').
Proof.
  assert (length sample_buffer = 1024) as Hlen by reflexivity.
  assert (get_external_data 3 sample_buffer 1024 = Some (sample_filled, 3%Z))
    as Hget by (vm_compute; reflexivity).
  assert (<[5 := BBuf sample_filled]> (∅ : gmap loc block) !! 5
          = Some (BBuf sample_filled)) as Ha by (vm_compute; reflexivity).
  split; [split_and!; [lia|exact Hlen|exact Hget|exact Ha]|].
  apply (writer_data_is_printed 1 (<[5 := BBuf sample_filled]> ∅) 5 3
           sample_buffer sample_filled 3 ltac:(lia) Hlen Hget Ha).
Defined.

Lemma step_payload C L s t e st s' d :
  inv C L s ->
  threads s !! t = Some st ->
  step t e s = Step s' ->
  payload_in (heap s) (threads s) d ->
  payload_in (heap s') (threads s') d.
Proof.
  intros Hinv Ht Hstep (a & b & Hd & Ha & Hlen & Hsz & Hown).
  pose proof (Hown _ _ Ht) as Hnot.
  exists a, b.
  step_cases Hinv Ht Hstep; simpl in *;
    (split; [done|split; [|split; [done|split; [done|]]]]);
    try done;
    try (intros u su Hu;
         destruct (lookup_set_thread _ _ _ _ _ _ Ht Hu) as [[-> ->]|[Hne Hu']];
         [simpl|by eapply Hown]);
    try done; try (by apply not_elem_of_nil);
    try exact Hnot;
    try (match goal with
         | G : pk_data _ = _ |- _ => rewrite G in Hnot; simpl in Hnot
         end);
    try (rewrite lookup_insert_ne; [done|intros ->; first [congruence|set_solver]]);
    try (rewrite lookup_delete_ne; [done|intros ->; first [congruence|set_solver]]);
    try (intros Hin%list_elem_of_singleton; congruence);
    try (match goal with
         | G : pk_data ?pk = _ |- context [pk_data ?pk] => rewrite G; simpl
         end; first [exact Hnot|by apply not_elem_of_nil]).
Qed.

Lemma step_in_flight s t e st s' u k d n pc :
  threads s !! t = Some st ->
  step t e s = Step s' ->
  threads s' !! u = Some (InEnqueue k d n pc) ->
  (exists n' pc', threads s !! u = Some (InEnqueue k d n' pc')) \/
  (u = t /\ st = InWriter d W259 /\ s' = set_thread t (InEnqueue FromWriter d NULL E114) s) \/
  (u = t /\ k = FromClient /\ exists r, st = Client r /\ e_call e = Some d).
Proof.
  intros Ht Hstep Hu.
  unfold step in Hstep. rewrite Ht in Hstep.
  destruct st as [ret | k0 d0 n0 pc0 | d0 tmp pc0 | pk pc0].
  - destruct (e_call e) eqn:He; simplify_eq;
      destruct (lookup_set_thread _ _ _ _ _ _ Ht Hu) as [[-> ?]|[Hne Hu']];
      simplify_eq; eauto 10.
  - destruct pc0; simpl in Hstep; unfold_prims;
      repeat (case_match; simplify_eq/=; try done); simplify_eq/=;
      destruct (lookup_set_thread _ _ _ _ _ _ Ht Hu) as [[-> ?]|[Hne Hu']];
      simplify_eq; eauto 10.
  - destruct pc0; simpl in Hstep; unfold_prims;
      repeat (case_match; simplify_eq/=; try done); simplify_eq/=;
      destruct (lookup_set_thread _ _ _ _ _ _ Ht Hu) as [[-> ?]|[Hne Hu']];
      simplify_eq; eauto 10.
  - destruct pc0; simpl in Hstep; unfold_prims;
      repeat (case_match; simplify_eq/=; try done); simplify_eq/=;
      destruct (lookup_set_thread _ _ _ _ _ _ Ht Hu) as [[-> ?]|[Hne Hu']];
      simplify_eq; eauto 10.
Qed.

Lemma abs_step_packets st L d :
  d ∈ (abs_step st L).*2 ->
  d ∈ L.*2 \/ exists k n pc, st = InEnqueue k d n pc.
Proof.
  intros Hd.
  destruct st as [ret | k d0 n [] | d0 tmp [] | pk []]; simpl in Hd;
    try (by left).
  - rewrite fmap_app in Hd. apply elem_of_app in Hd as [Hd|Hd]; [by left|].
    destruct n; simpl in Hd; [|by apply elem_of_nil in Hd].
    apply list_elem_of_singleton in Hd as ->. right. eauto.
  - rewrite fmap_app in Hd. apply elem_of_app in Hd as [Hd|Hd]; [by left|].
    destruct n; simpl in Hd; [|by apply elem_of_nil in Hd].
    apply list_elem_of_singleton in Hd as ->. right. eauto.
  - left. destruct L; [done|]. simpl in *. by apply list_elem_of_further.
Qed.

Lemma step_payloads C L s t e st s' :
  inv C L s ->
  threads s !! t = Some st ->
  step t e s = Step s' ->
  e_call e = None ->
  (forall u su, threads s !! u = Some su -> writer_ok su) ->
  payloads_ok L s ->
  payloads_ok (abs_step st L) s'.
Proof.
  intros Hinv Ht Hstep He Hok [HL HF]. split.
  - intros d Hd. apply (step_payload C L s t e st s' d Hinv Ht Hstep).
    apply abs_step_packets in Hd as [Hd|(k & n & pc & ->)]; [by apply HL|].
    by eapply HF.
  - intros u k d n pc Hu.
    destruct (step_in_flight _ _ _ _ _ _ _ _ _ _ Ht Hstep Hu)
      as [(n' & pc' & Hu')|[(-> & -> & ->)|(_ & _ & r & _ & He')]];
      [|  |congruence].
    + apply (step_payload C L s t e st s' d Hinv Ht Hstep). by eapply HF.
    + destruct (inv_priv _ _ _ Hinv _ _ Ht) as (a & b & Hd & Ha & Hlen).
      destruct (Hok _ _ Ht) as (Hsz & _).
      exists a, b. split; [done|]. split; [done|]. split; [done|].
      split; [lia|].
      intros u su Hsu. simpl in Hsu.
      destruct (lookup_set_thread _ _ _ _ _ _ Ht Hsu) as [[-> ->]|[Hne Hsu']];
        [apply not_elem_of_nil|].
      destruct (inv_split _ _ _ _ _ Hinv Ht) as (R & Hnd & _ & _ & HR).
      intros Hin. specialize (HR _ _ Hne Hsu' _ Hin).
      simpl in Hnd. rewrite Hd in Hnd. simpl in Hnd.
      apply NoDup_app in Hnd as (_ & _ & Hnd).
      apply NoDup_cons in Hnd as [Hnd _]. done.
Qed.

Lemma run_payloads C sched : forall L s s',
  inv C L s ->
  never_enqueues sched ->
  (forall u su, threads s !! u = Some su -> writer_ok su) ->
  payloads_ok L s ->
  run sched s = Some s' ->
  exists L', inv C L' s' /\ payloads_ok L' s'.
Proof.
  induction sched as [|[t e] sched IH]; simpl; intros L s s' Hinv Hne Hok HP Hrun.
  - simplify_eq. eauto.
  - destruct (step t e s) as [s1| | |] eqn:Hstep; try done.
    destruct (step_thread _ _ _ _ Hstep) as [st Ht].
    apply Forall_cons in Hne as [He Hne]. simpl in He.
    eapply (IH (abs_step st L) s1); [by eapply step_inv|done| | |done].
    + by eapply step_writer_ok.
    + by eapply step_payloads.
Qed.

Lemma boot_payloads ok size pool :
  forallb fresh_thread pool = true ->
  payloads_ok [] (boot ok size pool).
Proof.
  intros Hpool. split.
  - intros d Hd. by apply elem_of_nil in Hd.
  - intros u k d n pc Hu. rewrite threads_boot in Hu.
    rewrite forallb_forall in Hpool.
    by apply list_elem_of_lookup_2, list_elem_of_In, Hpool in Hu.
Qed.

(** X24 (one round of the reader).  Let the program run, from the
    initialised queue, under any schedule in which the threads that are
    not writers call nothing but [dequeue], and let it stand between
    calls with at least one stored packet.  Then a round of the loop of
    [reader_thread] run by a client thread is defined and completes: it
    takes the oldest packet [d], whose [data] is a live buffer the writer
    filled, prints the first [d.size] bytes of this buffer, and frees the
    buffer.  Afterwards the other packets are stored as before and the
    buffer is gone: what a writer allocates is freed exactly once. *)
Theorem reader_round_is_safe size pool sched ok s t e r d rest :
  (0 <= size <= INT_MAX)%Z ->
  forallb fresh_thread pool = true ->
  never_enqueues sched ->
  run sched (boot ok size pool) = Some s ->
  quiescent s ->
  threads s !! t = Some (Client r) ->
  items s = d :: rest ->
  exists a b s',
    pk_data d = Some a /\
    heap s !! a = Some (BBuf b) /\
    reader_thread t e s
    = (Step s',
       [Text "thread "; Self t; Text " - "]
         ++ (Chr <$> take (Z.to_nat (pk_size d)) b) ++ [Newline]) /\
    items s' = rest /\
    heap s' !! a = None /\
    threads s' = <[t := Client (Some d)]> (threads s).
Proof.
  intros Hsz Hpool Hne Hrun Hq Ht Hitems.
  pose proof (inv_boot ok size pool Hsz Hpool) as Hinv0.
  assert (forall u su, threads (boot ok size pool) !! u = Some su ->
                       writer_ok su) as Hfresh.
  { rewrite threads_boot. by apply fresh_writer_ok. }
  destruct (run_payloads _ _ _ _ _ Hinv0 Hne Hfresh
              (boot_payloads ok size pool Hpool) Hrun)
    as (L & Hinv & HL & _).
  rewrite (inv_items_eq _ _ _ Hinv) in Hitems.
  destruct L as [|[x d'] L']; [done|]. simpl in Hitems. simplify_eq.
  destruct (HL d ltac:(apply list_elem_of_here))
    as (a & b & Hd & Ha & Hlen & Hsize & _).
  destruct (call_dequeue_spec _ _ _ _ e _ Hinv Hq Ht)
    as (s1 & Hdeq & Hinv1 & Hth1).
  pose proof (lookup_lt_Some _ _ _ Ht) as Hlt.
  assert (heap s1 !! a = Some (BBuf b)) as Ha1.
  { assert (load_buf (heap s1) (Some a) = load_buf (heap s) (Some a)) as Hb.
    { pose proof Hdeq as Hfin. unfold call_dequeue in Hfin. rewrite Ht in Hfin.
      apply (finish_buffers (Z.to_nat size) t e 19 ((x, d) :: L')
               (set_thread t (InDequeue zero_packet NULL D151) s) s1
               (InDequeue zero_packet NULL D151)); [| |done|done].
      - eapply call_begin; eauto.
      - by apply set_thread_lookup. }
    simpl in Hb. rewrite Ha in Hb.
    by destruct (heap s1 !! a) as [[?|?]|]; simplify_eq. }
  exists a, b. eexists. split; [done|]. split; [done|].
  assert (returned t s1 = Some d) as Hret.
  { unfold returned. rewrite Hth1. by rewrite list_lookup_insert_eq. }
  split; [|split; [|split]].
  - unfold reader_thread. rewrite Hdeq, Hret.
    destruct (0 <? pk_size d)%Z eqn:E; [|apply Z.ltb_ge in E; lia].
    rewrite Hd, (process_data_some t (heap s1) a b (pk_size d) Ha1)
      by (rewrite Hlen; lia).
    unfold free. rewrite lookup_insert_eq. reflexivity.
  - unfold items. simpl.
    pose proof (inv_chain _ _ _ Hinv1) as Hch.
    pose proof (inv_own _ _ _ Hinv1) as Hnd.
    apply NoDup_app in Hnd as (Hnd & _ & _).
    eapply chain_frame in Hch.
    + apply walk_chain; [exact Hch|]. by eapply chain_length_heap.
    + intros a0 Ha0. simpl.
      destruct (chain_alloc _ _ _ _ (inv_chain _ _ _ Hinv1) Ha0) as [nd Hnd0].
      assert (a0 <> a) by congruence.
      by rewrite lookup_delete_ne, lookup_insert_ne.
  - simpl. apply lookup_delete_eq.
  - done.
Qed.

Lemma never_enqueues_sample : never_enqueues sample_production.
Proof. unfold never_enqueues. apply Forall_forall. intros te Hte.
  unfold sample_production, sample_writer_sched in Hte.
  repeat (apply elem_of_app in Hte as [Hte|Hte]);
    repeat (apply elem_of_cons in Hte as [->|Hte]; [reflexivity|]);
    try (by apply elem_of_nil in Hte);
    by apply elem_of_replicate in Hte as [-> _].
Qed.

Lemma quiescent_sample_to_read : quiescent sample_to_read.
Proof.
  assert (threads sample_to_read = writer_and_reader) as H
    by (vm_compute; reflexivity).
  intros u su. rewrite H. clear H. intros Hu.
  apply list_elem_of_lookup_2 in Hu.
  repeat (apply elem_of_cons in Hu as [->|Hu]; [reflexivity|]).
  by apply elem_of_nil in Hu.
Qed.

Lemma reader_round_is_safe_witness :
  ((0 <= 2 <= INT_MAX)%Z /\
   forallb fresh_thread writer_and_reader = true /\
   never_enqueues sample_production /\
   run sample_production (boot true 2 writer_and_reader) = Some sample_to_read /\
   quiescent sample_to_read /\
   threads sample_to_read !! 1 = Some (Client None) /\
   items sample_to_read = [sample_built]) /\
  exists a b s',
    pk_data sample_built = Some a /\
    heap sample_to_read !! a = Some (BBuf b) /\
    reader_thread 1 (sample_env NULL) sample_to_read
    = (Step s',
       [Text "thread "; Self 1; Text " - "]
         ++ (Chr <$> take (Z.to_nat (pk_size sample_built)) b) ++ [Newline]) /\
    items s' = [] /\
    heap s' !! a = None /\
    threads s' = <[1 := Client (Some sample_built)]> (threads sample_to_read).
Proof.
  assert ((0 <= 2 <= INT_MAX)%Z) as Hsz by (unfold INT_MAX; lia).
  assert (run sample_production (boot true 2 writer_and_reader)
          = Some sample_to_read) as Hrun by (vm_compute; reflexivity).
  assert (threads sample_to_read !! 1 = Some (Client None)) as Ht
    by (vm_compute; reflexivity).
  assert (items sample_to_read = [sample_built]) as Hitems
    by (vm_compute; reflexivity).
  split.
  - split_and!; [lia|unfold INT_MAX; lia|reflexivity
                 |exact never_enqueues_sample|exact Hrun
                 |exact quiescent_sample_to_read|exact Ht|exact Hitems].
  - apply (reader_round_is_safe 2 writer_and_reader sample_production true
             sample_to_read 1 (sample_env NULL) None sample_built [] Hsz
             eq_refl never_enqueues_sample Hrun quiescent_sample_to_read
             Ht Hitems).
Defined.
